(** * A model of the two containers of the repository

    [vector.h] defines [RawMemory<T>] (a block of raw storage) and [Vector<T>]
    (placement construction over a [RawMemory]); [simple_vector.h] defines
    [SimpleVector<Type>] (an array of live objects behind an [ArrayPtr]).

    The containers are embedded as programs of a small state-and-exception
    monad over a store of heap blocks: a block is a list of cells, a pointer
    is a block address with an offset, the object a method runs on is the
    [this] component of the state.  Three outcomes are told apart: normal
    return, a C++ exception that propagates, and a contract violation (a
    failed [assert], an access outside a block, an invalid range).

    [size_t] is taken 64 bits wide (the README names GCC/MinGW-w64): sizes are
    kept as [nat] and every [size_t] operation of the source that can wrap
    ([+], [*], [++], [--], [-]) is written through [size_t_of], which reduces
    modulo [2^64]; so is the byte count [n * sizeof(T)] that [RawMemory]
    hands to [operator new].  Allocation itself is taken to succeed. *)

From stdpp Require Import gmap list strings.
From Stdlib Require Import ZArith Lia.

Set Default Proof Using "Type".

(** ** [size_t] arithmetic *)

Definition SIZE_MOD : Z := Eval cbv in (2 ^ 64)%Z.
Definition HALF_MOD : Z := Eval cbv in (2 ^ 63)%Z.

Definition size_t_of (z : Z) : nat := Z.to_nat (z mod SIZE_MOD).
Global Arguments size_t_of : simpl never.

Definition size_add (a b : nat) : nat := size_t_of (Z.of_nat a + Z.of_nat b).
Definition size_sub (a b : nat) : nat := size_t_of (Z.of_nat a - Z.of_nat b).
Definition size_mul (a b : nat) : nat := size_t_of (Z.of_nat a * Z.of_nat b).

(** A value fits [size_t]. *)
Definition fits (n : nat) : Prop := (Z.of_nat n < SIZE_MOD)%Z.
(** A value whose double fits [size_t]. *)
Definition doubles (n : nat) : Prop := (Z.of_nat n < HALF_MOD)%Z.

Ltac size_lia :=
  unfold size_add, size_sub, size_mul, size_t_of, fits, doubles, SIZE_MOD, HALF_MOD in *;
  zify; Z.to_euclidean_division_equations; lia.

(** ** The element type

    What the containers need to know about [T]: its size in bytes, its
    value-initialised value and whether [T()] throws, which values throw when
    copied, what a move leaves in its source, and the compile-time choice
    made by [Vector::UnitializedN].  Moves are taken not to throw. *)

Class Element (T : Type) := {
  (* sizeof(T) *)
  sizeof_T : positive;
  default_value : T;
  default_throws : bool;
  copy_throws : T → bool;
  moved_from : T → T;
  (* is_nothrow_move_constructible_v<T> || !is_copy_constructible_v<T> *)
  relocate_by_move : bool;
  (* what a slot of [new T[n]] holds before anything is assigned to it *)
  array_init : T;
}.

(** The comparisons of [T] that the relational operators of [SimpleVector]
    call: [operator==] and [operator<]. *)

Class Comparable (T : Type) := {
  elem_eqb : T → T → bool;
  elem_ltb : T → T → bool;
}.

(** The byte count [n * sizeof(T)] as the source computes it, in [size_t];
    the number of objects of type [T] that a block of so many bytes has room
    for; and the sizes [n] for which the product does not wrap. *)

Definition bytes_of {T} `{!Element T} (n : nat) : nat :=
  size_t_of (Z.of_nat n * Z.pos sizeof_T).
Definition slots_in {T} `{!Element T} (bytes : nat) : nat :=
  Z.to_nat (Z.of_nat bytes / Z.pos sizeof_T).
Definition allocatable {T} `{!Element T} (n : nat) : Prop :=
  (Z.of_nat n * Z.pos sizeof_T < SIZE_MOD)%Z.

(** ** Pointers, blocks, outcomes *)

Definition addr := positive.

Record ptr := Ptr { base : option addr; off : nat }.

Global Instance ptr_eq_dec : EqDecision ptr.
Proof. solve_decision. Defined.

Definition ptr_add (p : ptr) (k : nat) : ptr := Ptr (base p) (off p + k).
Definition ptr_sub (p : ptr) (k : nat) : ptr := Ptr (base p) (off p - k).

Inductive exn :=
  | out_of_range (what : string)
  | element_failure.

Section Machine.
Context {Obj Cell : Type}.

Record state := State { this : Obj; mem : gmap addr (list Cell) }.

Inductive res (A : Type) :=
  | Ok (a : A) (s : state)
  | Throw (e : exn) (s : state)
  | Undefined.
Global Arguments Ok {A} a s.
Global Arguments Throw {A} e s.
Global Arguments Undefined {A}.

Definition M (A : Type) : Type := state → res A.

Definition ret {A} (a : A) : M A := fun s => Ok a s.
Definition bind {A B} (c : M A) (k : A → M B) : M B := fun s =>
  match c s with
  | Ok a s' => k a s'
  | Throw e s' => Throw e s'
  | Undefined => Undefined
  end.
Definition throw {A} (e : exn) : M A := fun s => Throw e s.
Definition undefined {A} : M A := fun _ => Undefined.

(** Stack unwinding: when [c] throws, [cleanup] (the destructors of the
    locals in scope) runs before the exception leaves. *)
Definition unwind {A} (c : M A) (cleanup : M unit) : M A := fun s =>
  match c s with
  | Throw e s' =>
      match cleanup s' with
      | Ok _ s'' => Throw e s''
      | Throw _ _ | Undefined => Undefined
      end
  | r => r
  end.

Definition get_this : M Obj := fun s => Ok (this s) s.
Definition put_this (o : Obj) : M unit := fun s => Ok tt (State o (mem s)).

(** The block a pointer base denotes; the null pointer denotes the empty
    range. *)
Definition block_at (h : gmap addr (list Cell)) (b : option addr) : option (list Cell) :=
  match b with
  | None => Some []
  | Some a => h !! a
  end.

(** [operator new] / [new T[n]]: a block at an address not in use. *)
Definition operator_new (blk : list Cell) : M (option addr) := fun s =>
  let a := fresh (dom (mem s)) in
  Ok (Some a) (State (this s) (<[a := blk]> (mem s))).

(** [operator delete] / [delete[]]: a no-op on the null pointer. *)
Definition operator_delete (p : option addr) : M unit := fun s =>
  match p with
  | None => Ok tt s
  | Some a =>
      match mem s !! a with
      | Some _ => Ok tt (State (this s) (delete a (mem s)))
      | None => Undefined
      end
  end.

(** Reading and writing the [n] cells at [p, p + n). *)
Definition read_cells (p : ptr) (n : nat) : M (list Cell) := fun s =>
  match block_at (mem s) (base p) with
  | Some blk =>
      if decide (off p + n ≤ length blk)
      then Ok (take n (drop (off p) blk)) s
      else Undefined
  | None => Undefined
  end.

Definition splice (blk : list Cell) (o : nat) (cs : list Cell) : list Cell :=
  take o blk ++ cs ++ drop (o + length cs) blk.

Definition write_cells (p : ptr) (cs : list Cell) : M unit := fun s =>
  match base p with
  | None => if decide (off p + length cs ≤ 0) then Ok tt s else Undefined
  | Some a =>
      match mem s !! a with
      | Some blk =>
          if decide (off p + length cs ≤ length blk)
          then Ok tt (State (this s) (<[a := splice blk (off p) cs]> (mem s)))
          else Undefined
      | None => Undefined
      end
  end.

(** The length of the range [first, last): both pointers must be into the
    same block, [first] not after [last]. *)
Definition range_length (first last : ptr) : M nat :=
  if decide (base first = base last ∧ off first ≤ off last)
  then ret (off last - off first)
  else undefined.
(** *** Programs

    A program holds its objects by name, over one heap.  [after] is the
    state a call leaves behind, whether it returns or throws, the program
    catching the exception and carrying on; undefined behaviour leaves
    none. *)

Record world := World { objs : gmap nat Obj; heap : gmap addr (list Cell) }.

Definition after {A} (r : res A) : option state :=
  match r with
  | Ok _ s | Throw _ s => Some s
  | Undefined => None
  end.

(* the object named [k] is now what the call left of it *)
Definition put_object (k : nat) (s : state) (w : world) : world :=
  World (<[k := this s]> (objs w)) (mem s).

(* the object passed by reference, if it was another one, is now [r] *)
Definition put_other (j : nat) (r : option Obj) (w : world) : world :=
  match r with
  | Some o => World (<[j := o]> (objs w)) (heap w)
  | None => w
  end.

(* a constructor run for the new object [k]; when it throws there is no
   object.  Constructors do not look at [this], which is [blank]. *)
Definition construct (blank : Obj) (k : nat) (c : M Obj) (w : world) : option world :=
  match c (State blank (heap w)) with
  | Ok v s => Some (World (<[k := v]> (objs w)) (mem s))
  | Throw _ s => Some (World (objs w) (mem s))
  | Undefined => None
  end.

End Machine.

Global Arguments state : clear implicits.
Global Arguments res : clear implicits.
Global Arguments M : clear implicits.

Notation "x <- c ;; k" := (bind c (fun x => k))
  (at level 100, c at next level, right associativity).
Notation "c ;;; k" := (bind c (fun _ => k))
  (at level 100, right associativity).

(** ** Copying a range element by element

    A copy of a range stops at the first element whose copy throws. *)

Section Copies.
Context {T : Type} `{!Element T}.

(** The copies done, front to back, before the first throwing one. *)
Fixpoint copied_prefix (xs : list T) : list T :=
  match xs with
  | [] => []
  | x :: xs' => if copy_throws x then [] else x :: copied_prefix xs'
  end.

(** The copies done, back to front, before the first throwing one. *)
Definition copied_suffix (xs : list T) : list T :=
  reverse (copied_prefix (reverse xs)).

End Copies.

(** ** vector.h *)

Module Vec.

Record RawMemory := { buffer_ : option addr; capacity_ : nat }.
Record Vector := { data_ : RawMemory; size_ : nat }.

(** An argument passed by reference to a method: the object the method runs
    on, or another one (for [this != &rhs]). *)
Inductive vref := Self | Other (v : Vector).

Section Model.
Context {T : Type} `{!Element T}.

Local Abbreviation M := (M Vector (option T)).

(** *** Standard algorithms over raw storage

    A cell is [Some x] for a live object and [None] for raw memory. *)

Definition read_live (p : ptr) (n : nat) : M (list T) :=
  cs <- read_cells p n;;
  match mapM id cs with
  | Some xs => ret xs
  | None => undefined
  end.

(* new (p) T(...) : [mk] is the outcome of running the constructor *)
Definition construct_at (p : ptr) (mk : option T) : M ptr :=
  match mk with
  | Some x => write_cells p [Some x];;; ret p
  | None => throw element_failure
  end.

Definition destroy_n (p : ptr) (n : nat) : M unit :=
  _ <- read_live p n;;
  write_cells p (replicate n None).

Definition destroy_at (p : ptr) : M unit := destroy_n p 1.

Definition uninitialized_value_construct_n (p : ptr) (n : nat) : M unit :=
  if decide (n = 0) then ret tt
  else if default_throws then throw element_failure
  else write_cells p (replicate n (Some default_value)).

Definition uninitialized_move_n (from : ptr) (n : nat) (to : ptr) : M unit :=
  xs <- read_live from n;;
  write_cells from (Some ∘ moved_from <$> xs);;;
  write_cells to (Some <$> xs).

(* the copies made before a throwing one are destroyed again *)
Definition uninitialized_copy_n (from : ptr) (n : nat) (to : ptr) : M unit :=
  xs <- read_live from n;;
  if forallb (fun x => negb (copy_throws x)) xs
  then write_cells to (Some <$> xs)
  else throw element_failure.

(* std::copy_n: assignment onto live objects, front to back *)
Definition copy_n (from : ptr) (n : nat) (to : ptr) : M unit :=
  xs <- read_live from n;;
  _ <- read_live to n;;
  write_cells to (Some <$> copied_prefix xs);;;
  if decide (length (copied_prefix xs) = n) then ret tt else throw element_failure.

(* std::move(first, last, d_first): move assignment, front to back *)
Definition move_range (first last d_first : ptr) : M unit :=
  n <- range_length first last;;
  xs <- read_live first n;;
  _ <- read_live d_first n;;
  write_cells first (Some ∘ moved_from <$> xs);;;
  write_cells d_first (Some <$> xs).

(* std::move_backward(first, last, d_last): move assignment, back to front *)
Definition move_backward (first last d_last : ptr) : M unit :=
  n <- range_length first last;;
  if decide (n ≤ off d_last) then
    xs <- read_live first n;;
    _ <- read_live (ptr_sub d_last n) n;;
    write_cells first (Some ∘ moved_from <$> xs);;;
    write_cells (ptr_sub d_last n) (Some <$> xs)
  else undefined.

(* *p = std::move(x) *)
Definition move_assign_at (p : ptr) (x : T) : M unit :=
  _ <- read_live p 1;;
  write_cells p [Some x].

(** *** RawMemory *)

(* n != 0 ? operator new(n * sizeof(T)) : nullptr; the block has room for
   as many objects as the bytes asked for hold *)
Definition Allocate (n : nat) : M (option addr) :=
  if decide (n ≠ 0) then operator_new (replicate (slots_in (bytes_of n)) None)
  else ret None.

Definition Deallocate (buf : option addr) : M unit := operator_delete buf.

Definition RawMemory_default : RawMemory := {| buffer_ := None; capacity_ := 0 |}.

Definition RawMemory_new (capacity : nat) : M RawMemory :=
  b <- Allocate capacity;;
  ret {| buffer_ := b; capacity_ := capacity |}.

Definition RawMemory_destroy (r : RawMemory) : M unit := Deallocate (buffer_ r).

(* operator+ *)
Definition RawMemory_plus (r : RawMemory) (offset : nat) : M ptr :=
  if decide (offset ≤ capacity_ r) then ret (Ptr (buffer_ r) offset) else undefined.

(* operator[] *)
Definition RawMemory_index (r : RawMemory) (index : nat) : M ptr :=
  if decide (index < capacity_ r) then ret (Ptr (buffer_ r) index) else undefined.

Definition GetAddress (r : RawMemory) : ptr := Ptr (buffer_ r) 0.

Definition RawMemory_Capacity (r : RawMemory) : nat := capacity_ r.

(** *** Vector *)

Definition Vector_default : Vector := {| data_ := RawMemory_default; size_ := 0 |}.

Definition set_size (v : Vector) (n : nat) : Vector := {| data_ := data_ v; size_ := n |}.

Definition Size (v : Vector) : nat := size_ v.
Definition Capacity (v : Vector) : nat := RawMemory_Capacity (data_ v).

Definition begin_ (v : Vector) : ptr := GetAddress (data_ v).
Definition end_ (v : Vector) : ptr := ptr_add (GetAddress (data_ v)) (size_ v).
Definition cbegin (v : Vector) : ptr := GetAddress (data_ v).
Definition cend (v : Vector) : ptr := ptr_add (GetAddress (data_ v)) (size_ v).

(* explicit Vector(size_t size) *)
Definition Vector_sized (size : nat) : M Vector :=
  data <- RawMemory_new size;;
  unwind (uninitialized_value_construct_n (GetAddress data) size)
         (RawMemory_destroy data);;;
  ret {| data_ := data; size_ := size |}.

(* Vector(const Vector& other) *)
Definition Vector_copy (other : Vector) : M Vector :=
  data <- RawMemory_new (size_ other);;
  unwind (uninitialized_copy_n (GetAddress (data_ other)) (size_ other) (GetAddress data))
         (RawMemory_destroy data);;;
  ret {| data_ := data; size_ := size_ other |}.

(* Vector(Vector&& other): the new object and what is left of [other] *)
Definition Vector_move (other : Vector) : Vector * Vector := (other, Vector_default).

(* ~Vector() followed by ~RawMemory() *)
Definition Vector_destroy (v : Vector) : M unit :=
  destroy_n (GetAddress (data_ v)) (size_ v);;;
  RawMemory_destroy (data_ v).

Definition UnitializedN (from : ptr) (n : nat) (to : ptr) : M unit :=
  if relocate_by_move then uninitialized_move_n from n to
  else uninitialized_copy_n from n to.

Definition Reserve (new_capacity : nat) : M unit :=
  v <- get_this;;
  if decide (new_capacity ≤ RawMemory_Capacity (data_ v)) then ret tt
  else
    new_data <- RawMemory_new new_capacity;;
    unwind (UnitializedN (GetAddress (data_ v)) (size_ v) (GetAddress new_data))
           (RawMemory_destroy new_data);;;
    destroy_n (GetAddress (data_ v)) (size_ v);;;
    (* data_.Swap(new_data); new_data, now the old block, leaves scope *)
    put_this {| data_ := new_data; size_ := size_ v |};;;
    RawMemory_destroy (data_ v).

Definition Resize (new_size : nat) : M unit :=
  v <- get_this;;
  (if decide (new_size < size_ v) then
     destroy_n (ptr_add (GetAddress (data_ v)) new_size) (size_ v - new_size)
   else
     Reserve new_size;;;
     v' <- get_this;;
     uninitialized_value_construct_n
       (ptr_add (GetAddress (data_ v')) (size_ v')) (new_size - size_ v'));;;
  v'' <- get_this;;
  put_this (set_size v'' new_size).

(* operator[]: the address of the element, then the value there *)
Definition index (i : nat) : M ptr :=
  v <- get_this;;
  if decide (i < size_ v) then RawMemory_index (data_ v) i else undefined.

Definition get (i : nat) : M T :=
  p <- index i;;
  xs <- read_live p 1;;
  match xs with
  | [x] => ret x
  | _ => undefined
  end.

(* v[i] = x *)
Definition set (i : nat) (x : T) : M unit :=
  p <- index i;;
  move_assign_at p x.

(* operator=(const Vector& rhs) *)
Definition assign_copy (rhs : vref) : M unit :=
  match rhs with
  | Self => ret tt
  | Other rhs =>
      v <- get_this;;
      if decide (RawMemory_Capacity (data_ v) < size_ rhs) then
        rhs_copy <- Vector_copy rhs;;
        (* Swap(rhs_copy); rhs_copy, now the old contents, leaves scope *)
        put_this rhs_copy;;;
        Vector_destroy v
      else
        copy_n (GetAddress (data_ rhs)) (size_ rhs `min` size_ v) (GetAddress (data_ v));;;
        (if decide (size_ v < size_ rhs) then
           uninitialized_copy_n
             (ptr_add (GetAddress (data_ rhs)) (size_ v))
             (size_ rhs - size_ v)
             (ptr_add (GetAddress (data_ v)) (size_ v))
         else
           destroy_n (ptr_add (GetAddress (data_ v)) (size_ rhs)) (size_ v - size_ rhs));;;
        put_this (set_size v (size_ rhs))
  end.

(* operator=(Vector&& rhs): returns what is left of [rhs] *)
Definition assign_move (rhs : vref) : M (option Vector) :=
  match rhs with
  | Self => ret None
  | Other rhs =>
      put_this {| data_ := data_ rhs; size_ := size_ rhs |};;;
      ret (Some {| data_ := RawMemory_default; size_ := 0 |})
  end.

Definition grown_capacity (size : nat) : nat :=
  if decide (size = 0) then 1 else size_mul size 2.

Definition EmplaceBack (mk : option T) : M ptr :=
  v <- get_this;;
  elem <-
    (if decide (Capacity v = size_ v) then
       new_data <- RawMemory_new (grown_capacity (size_ v));;
       elem <- unwind (p <- RawMemory_plus new_data (size_ v);; construct_at p mk)
                      (RawMemory_destroy new_data);;
       unwind (UnitializedN (GetAddress (data_ v)) (size_ v) (GetAddress new_data))
              (RawMemory_destroy new_data);;;
       destroy_n (GetAddress (data_ v)) (size_ v);;;
       put_this {| data_ := new_data; size_ := size_ v |};;;
       RawMemory_destroy (data_ v);;;
       ret elem
     else
       p <- RawMemory_plus (data_ v) (size_ v);;
       construct_at p mk);;
  v' <- get_this;;
  put_this (set_size v' (size_add (size_ v') 1));;;
  ret elem.

(* the copy constructor of [T] run on [value] *)
Definition copy_construct (value : T) : option T :=
  if copy_throws value then None else Some value.

(** [EmplaceBack] and [Emplace] construct the new object from their
    arguments before they touch an element, on every path (into the new
    block, into the raw slot at the end, or into [temp]).  So an argument
    passed by reference is given here by the value it has when the call is
    made, also when it is an element of the vector itself; an argument that
    is moved from is an object the vector does not hold. *)

(* PushBack(const T& value) *)
Definition PushBack (value : T) : M unit :=
  EmplaceBack (copy_construct value);;; ret tt.

(* PushBack(T&& value) *)
Definition PushBack_move (value : T) : M unit :=
  EmplaceBack (Some value);;; ret tt.

Definition PopBack : M unit :=
  v <- get_this;;
  put_this (set_size v (size_sub (size_ v) 1));;;
  v' <- get_this;;
  p <- RawMemory_plus (data_ v') (size_ v');;
  destroy_at p.

(* Swap(Vector& other): returns what [other] holds afterwards *)
Definition Swap (other : vref) : M (option Vector) :=
  match other with
  | Self => ret None
  | Other o =>
      v <- get_this;;
      put_this o;;;
      ret (Some v)
  end.

(* std::distance(cbegin(), pos) *)
Definition distance_from_begin (pos : ptr) : M nat :=
  v <- get_this;;
  if decide (base pos = base (cbegin v)) then ret (off pos) else undefined.

Definition Emplace (pos : ptr) (mk : option T) : M ptr :=
  v <- get_this;;
  if decide (pos = cend v) then EmplaceBack mk
  else
    distance <- distance_from_begin pos;;
    (if decide (Capacity v = size_ v) then
       new_data <- RawMemory_new (grown_capacity (size_ v));;
       unwind (p <- RawMemory_plus new_data distance;; construct_at p mk)
              (RawMemory_destroy new_data);;;
       unwind (UnitializedN (GetAddress (data_ v)) distance (GetAddress new_data))
              (RawMemory_destroy new_data);;;
       unwind (UnitializedN (ptr_add (GetAddress (data_ v)) distance)
                            (size_sub (size_ v) distance)
                            (ptr_add (GetAddress new_data) (distance + 1)))
              (RawMemory_destroy new_data);;;
       destroy_n (GetAddress (data_ v)) (size_ v);;;
       put_this {| data_ := new_data; size_ := size_ v |};;;
       RawMemory_destroy (data_ v)
     else
       match mk with
       | None => throw element_failure
       | Some temp =>
           uninitialized_move_n (ptr_sub (end_ v) 1) 1 (end_ v);;;
           move_backward (ptr_add (begin_ v) distance) (ptr_sub (end_ v) 1) (end_ v);;;
           move_assign_at (ptr_add (begin_ v) distance) temp
       end);;;
    v' <- get_this;;
    put_this (set_size v' (size_add (size_ v') 1));;;
    v'' <- get_this;;
    ret (ptr_add (begin_ v'') distance).

Definition Erase (pos : ptr) : M ptr :=
  v <- get_this;;
  if decide (pos = cend v) then
    PopBack;;;
    v' <- get_this;;
    ret (end_ v')
  else
    distance <- distance_from_begin pos;;
    move_range (ptr_add (begin_ v) (distance + 1)) (end_ v) (ptr_add (begin_ v) distance);;;
    PopBack;;;
    v' <- get_this;;
    ret (ptr_add (begin_ v') distance).

(* Insert(const_iterator pos, const T& value) *)
Definition Insert (pos : ptr) (value : T) : M ptr := Emplace pos (copy_construct value).

(* Insert(const_iterator pos, T&& value) *)
Definition Insert_move (pos : ptr) (value : T) : M ptr := Emplace pos (Some value).

(* *it, for an iterator into the vector *)
Definition deref (it : ptr) : M T :=
  xs <- read_live it 1;;
  match xs with
  | [x] => ret x
  | _ => undefined
  end.

(** *** Calls

    The ways of appending a value, and the member functions that change a
    vector without naming another one.  Positions are given by their
    distance from [begin()]. *)

Inductive append :=
| push_copy (value : T)            (* PushBack(const T&) *)
| push_move (value : T)            (* PushBack(T&&) *)
| emplace_back (value : T).        (* EmplaceBack(args...), [T(args...)] being [value] *)

Definition appended (a : append) : T :=
  match a with
  | push_copy x | push_move x | emplace_back x => x
  end.

(* whether the append goes through when nothing has to be relocated *)
Definition append_ok (a : append) : bool :=
  match a with
  | push_copy x => negb (copy_throws x)
  | push_move _ | emplace_back _ => true
  end.

Definition do_append (a : append) : M unit :=
  match a with
  | push_copy x => PushBack x
  | push_move x => PushBack_move x
  | emplace_back x => EmplaceBack (Some x);;; ret tt
  end.

Fixpoint do_appends (l : list append) : M unit :=
  match l with
  | [] => ret tt
  | a :: l => do_append a;;; do_appends l
  end.

Inductive call :=
| call_Reserve (new_capacity : nat)
| call_Resize (new_size : nat)
| call_append (a : append)
| call_EmplaceBack_failing         (* EmplaceBack(args...) where [T(args...)] throws *)
| call_PopBack
| call_Insert (pos : nat) (value : T)
| call_Insert_move (pos : nat) (value : T)
| call_Emplace (pos : nat) (mk : option T)
| call_Erase (pos : nat)
| call_set (i : nat) (x : T).

Definition run_call (c : call) : M unit :=
  match c with
  | call_Reserve n => Reserve n
  | call_Resize n => Resize n
  | call_append a => do_append a
  | call_EmplaceBack_failing => EmplaceBack None;;; ret tt
  | call_PopBack => PopBack
  | call_Insert p x => v <- get_this;; Insert (ptr_add (cbegin v) p) x;;; ret tt
  | call_Insert_move p x => v <- get_this;; Insert_move (ptr_add (cbegin v) p) x;;; ret tt
  | call_Emplace p mk => v <- get_this;; Emplace (ptr_add (cbegin v) p) mk;;; ret tt
  | call_Erase p => v <- get_this;; Erase (ptr_add (cbegin v) p);;; ret tt
  | call_set i x => set i x
  end.

(* the byte count of the doubled block is still a [size_t] *)
Definition can_grow (v : Vector) : Prop :=
  size_ v = Capacity v → allocatable (1 `max` (2 * Capacity v)).

(* what the caller owes: sizes whose byte count is a [size_t], positions and
   indices inside the vector, no pop from an empty vector *)
Definition call_pre (c : call) (v : Vector) : Prop :=
  match c with
  | call_Reserve n | call_Resize n => allocatable n
  | call_append _ | call_EmplaceBack_failing => can_grow v
  | call_PopBack => size_ v ≠ 0
  | call_Insert p _ | call_Insert_move p _ | call_Emplace p _ => p ≤ size_ v ∧ can_grow v
  | call_Erase p => p < size_ v
  | call_set i _ => i < size_ v
  end.

(** *** Programs over vectors *)

Inductive stmt :=
| new_default (k : nat)                 (* Vector<T> k; *)
| new_sized (k : nat) (size : nat)      (* Vector<T> k(size); *)
| new_copy (k j : nat)                  (* Vector<T> k(j); *)
| new_move (k j : nat)                  (* Vector<T> k(std::move(j)); *)
| end_of (k : nat)                      (* the lifetime of k ends *)
| on (k : nat) (c : call)               (* k.c *)
| swap_with (k j : nat)                 (* k.Swap(j) *)
| assign (k j : nat)                    (* k = j *)
| assign_moved (k j : nat).             (* k = std::move(j) *)

Definition other_ref (k j : nat) (w : world (Obj:=Vector) (Cell:=option T)) : option vref :=
  if decide (k = j) then Some Self else Other <$> objs w !! j.

Definition exec (st : stmt) (w : world (Obj:=Vector) (Cell:=option T)) : option world :=
  match st with
  | new_default k => Some (World (<[k := Vector_default]> (objs w)) (heap w))
  | new_sized k n => construct Vector_default k (Vector_sized n) w
  | new_copy k j =>
      o ← objs w !! j;
      construct Vector_default k (Vector_copy o) w
  | new_move k j =>
      o ← objs w !! j;
      let '(v, o') := Vector_move o in
      Some (World (<[k := v]> (<[j := o']> (objs w))) (heap w))
  | end_of k =>
      v ← objs w !! k;
      match Vector_destroy v (State v (heap w)) with
      | Ok _ s => Some (World (delete k (objs w)) (mem s))
      | _ => None
      end
  | on k c =>
      v ← objs w !! k;
      s ← after (run_call c (State v (heap w)));
      Some (put_object k s w)
  | swap_with k j =>
      v ← objs w !! k;
      o ← other_ref k j w;
      match Swap o (State v (heap w)) with
      | Ok r s => Some (put_other j r (put_object k s w))
      | Throw _ s => Some (put_object k s w)
      | Undefined => None
      end
  | assign k j =>
      v ← objs w !! k;
      o ← other_ref k j w;
      s ← after (assign_copy o (State v (heap w)));
      Some (put_object k s w)
  | assign_moved k j =>
      v ← objs w !! k;
      o ← other_ref k j w;
      match assign_move o (State v (heap w)) with
      | Ok r s => Some (put_other j r (put_object k s w))
      | Throw _ s => Some (put_object k s w)
      | Undefined => None
      end
  end.

(* what the program owes: a new name for a new object, live objects
   elsewhere, and the contract of each call *)
Definition pre (st : stmt) (w : world (Obj:=Vector) (Cell:=option T)) : Prop :=
  match st with
  | new_default k => objs w !! k = None
  | new_sized k n => objs w !! k = None ∧ allocatable n
  | new_copy k j | new_move k j => objs w !! k = None ∧ is_Some (objs w !! j)
  | end_of k => is_Some (objs w !! k)
  | on k c => ∃ v, objs w !! k = Some v ∧ call_pre c v
  | swap_with k j | assign k j | assign_moved k j =>
      is_Some (objs w !! k) ∧ is_Some (objs w !! j)
  end.

Inductive reachable : world (Obj:=Vector) (Cell:=option T) → Prop :=
| reach_start : reachable (World ∅ ∅)
| reach_exec st w w' : reachable w → pre st w → exec st w = Some w' → reachable w'.

End Model.
End Vec.

(** ** simple_vector.h *)

Module Simple.

Record SimpleVector := { items_ : option addr; size_ : nat; capacity_ : nat }.

Inductive vref := Self | Other (v : SimpleVector).

Section Model.
Context {T : Type} `{!Element T}.

Local Abbreviation M := (M SimpleVector T).

(** *** ArrayPtr

    Modelled from the spec: array_ptr.h is not among the sources.  It is the
    owning pointer wrapper of the README: [ArrayPtr<Type>(n)] holds [new
    Type[n]] (the null pointer for [n = 0]), [Get] and [operator[]] give the
    raw pointer and its elements, [swap] exchanges the pointers, and the
    destructor is [delete[]]. *)

Definition ArrayPtr_new (size : nat) : M (option addr) :=
  if decide (size = 0) then ret None else operator_new (replicate size array_init).

Definition ArrayPtr_destroy (raw_ptr : option addr) : M unit := operator_delete raw_ptr.

(** *** Standard algorithms over arrays of live objects *)

(* Type() *)
Definition value_initialized : M T :=
  if default_throws then throw element_failure else ret default_value.

(** A parameter passed by reference ([const Type&] or [Type&&]).  The object
    it names is either one that no array holds, given by its value, or the
    object at a place in an array, the caller having written [v[i]] or [*it]
    for the argument: that one is read when the method gets to reading it,
    with whatever the method has done to the array by then. *)
Inductive ref := outside (x : T) | inside (p : ptr).

Definition read_ref (item : ref) : M T :=
  match item with
  | outside x => ret x
  | inside p =>
      xs <- read_cells p 1;;
      match xs with
      | [x] => ret x
      | _ => undefined
      end
  end.

(* *p = item, by copy *)
Definition assign_copy_at (p : ptr) (item : ref) : M unit :=
  _ <- read_cells p 1;;
  x <- read_ref item;;
  if copy_throws x then throw element_failure else write_cells p [x].

(* *p = std::move(item): the object moved from is left as the move leaves it *)
Definition assign_move_at (p : ptr) (item : ref) : M unit :=
  _ <- read_cells p 1;;
  x <- read_ref item;;
  match item with
  | outside _ => ret tt
  | inside q => write_cells q [moved_from x]
  end;;;
  write_cells p [x].

(* std::fill(first, last, value) *)
Definition fill (first last : ptr) (value : T) : M unit :=
  n <- range_length first last;;
  _ <- read_cells first n;;
  if decide (n = 0) then ret tt
  else if copy_throws value then throw element_failure
  else write_cells first (replicate n value).

(* std::copy(first, last, d_first), the source range being [xs] *)
Definition copy_list (xs : list T) (d_first : ptr) : M unit :=
  _ <- read_cells d_first (length xs);;
  write_cells d_first (copied_prefix xs);;;
  if decide (length (copied_prefix xs) = length xs) then ret tt
  else throw element_failure.

(* std::copy(first, last, d_first) *)
Definition copy_range (first last d_first : ptr) : M unit :=
  n <- range_length first last;;
  xs <- read_cells first n;;
  copy_list xs d_first.

(* std::copy_backward(first, last, d_last) *)
Definition copy_backward (first last d_last : ptr) : M unit :=
  n <- range_length first last;;
  if decide (n ≤ off d_last) then
    xs <- read_cells first n;;
    _ <- read_cells (ptr_sub d_last n) n;;
    write_cells (ptr_sub d_last (length (copied_suffix xs))) (copied_suffix xs);;;
    if decide (length (copied_suffix xs) = n) then ret tt
    else throw element_failure
  else undefined.

(* std::move(first, last, d_first) *)
Definition move_range (first last d_first : ptr) : M unit :=
  n <- range_length first last;;
  xs <- read_cells first n;;
  _ <- read_cells d_first n;;
  write_cells first (moved_from <$> xs);;;
  write_cells d_first xs.

(* std::move_backward(first, last, d_last) *)
Definition move_backward (first last d_last : ptr) : M unit :=
  n <- range_length first last;;
  if decide (n ≤ off d_last) then
    xs <- read_cells first n;;
    _ <- read_cells (ptr_sub d_last n) n;;
    write_cells first (moved_from <$> xs);;;
    write_cells (ptr_sub d_last n) xs
  else undefined.

(** *** SimpleVector *)

Definition SimpleVector_default : SimpleVector :=
  {| items_ := None; size_ := 0; capacity_ := 0 |}.

Definition set_size (v : SimpleVector) (n : nat) : SimpleVector :=
  {| items_ := items_ v; size_ := n; capacity_ := capacity_ v |}.

Definition set_items (v : SimpleVector) (items : option addr) (capacity : nat) : SimpleVector :=
  {| items_ := items; size_ := size_ v; capacity_ := capacity |}.

Definition GetSize (v : SimpleVector) : nat := size_ v.
Definition GetCapacity (v : SimpleVector) : nat := capacity_ v.
Definition IsEmpty (v : SimpleVector) : bool := bool_decide (GetSize v = 0).

Definition begin_ (v : SimpleVector) : ptr := Ptr (items_ v) 0.
Definition end_ (v : SimpleVector) : ptr := Ptr (items_ v) (size_ v).
Definition cbegin (v : SimpleVector) : ptr := Ptr (items_ v) 0.
Definition cend (v : SimpleVector) : ptr := Ptr (items_ v) (size_ v).

(* explicit SimpleVector(size_t size) *)
Definition SimpleVector_sized (size : nat) : M SimpleVector :=
  items <- ArrayPtr_new size;;
  let v := {| items_ := items; size_ := size; capacity_ := size |} in
  unwind (x <- value_initialized;; fill (begin_ v) (end_ v) x) (ArrayPtr_destroy items);;;
  ret v.

(* SimpleVector(size_t size, const Type& value) *)
Definition SimpleVector_filled (size : nat) (value : T) : M SimpleVector :=
  items <- ArrayPtr_new size;;
  let v := {| items_ := items; size_ := size; capacity_ := size |} in
  unwind (fill (begin_ v) (end_ v) value) (ArrayPtr_destroy items);;;
  ret v.

(* SimpleVector(std::initializer_list<Type> init) *)
Definition SimpleVector_of_list (init : list T) : M SimpleVector :=
  items <- ArrayPtr_new (length init);;
  let v := {| items_ := items; size_ := length init; capacity_ := length init |} in
  unwind (copy_list init (begin_ v)) (ArrayPtr_destroy items);;;
  ret v.

(* SimpleVector(const ReserveProxyObj& new_capacity) *)
Definition SimpleVector_reserved (new_capacity : nat) : M SimpleVector :=
  items <- ArrayPtr_new new_capacity;;
  ret {| items_ := items; size_ := 0; capacity_ := new_capacity |}.

(* SimpleVector(const SimpleVector& other) *)
Definition SimpleVector_copy (other : SimpleVector) : M SimpleVector :=
  items <- ArrayPtr_new (GetCapacity other);;
  let v := {| items_ := items; size_ := GetSize other; capacity_ := GetCapacity other |} in
  unwind (copy_range (begin_ other) (end_ other) (begin_ v)) (ArrayPtr_destroy items);;;
  ret v.

(* SimpleVector(SimpleVector&& other): the new object and what is left of [other] *)
Definition SimpleVector_move (other : SimpleVector) : SimpleVector * SimpleVector :=
  (other, SimpleVector_default).

(* ~SimpleVector() *)
Definition SimpleVector_destroy (v : SimpleVector) : M unit := ArrayPtr_destroy (items_ v).

(* operator[] *)
Definition get (index : nat) : M T :=
  v <- get_this;;
  xs <- read_cells (Ptr (items_ v) index) 1;;
  match xs with
  | [x] => ret x
  | _ => undefined
  end.

(* the argument [v[index]]: a reference to an element of [v] *)
Definition element (v : SimpleVector) (index : nat) : ref :=
  inside (Ptr (items_ v) index).

(* v[index] = x, for a value [x] that no array holds *)
Definition set (index : nat) (x : T) : M unit :=
  v <- get_this;;
  assign_move_at (Ptr (items_ v) index) (outside x).

Definition At (index : nat) : M T :=
  v <- get_this;;
  if decide (size_ v ≤ index) then throw (out_of_range "index >= size")
  else get index.

Definition Clear : M unit :=
  v <- get_this;;
  put_this (set_size v 0).

(* ReallocateCopy *)
Definition ReallocateCopy (new_capacity : nat) : M (option addr) :=
  v <- get_this;;
  result <- ArrayPtr_new new_capacity;;
  let move_size := new_capacity `min` size_ v in
  move_range (begin_ v) (ptr_add (begin_ v) move_size) (Ptr result 0);;;
  ret result.

Definition Resize (new_size : nat) : M unit :=
  v <- get_this;;
  (if decide (capacity_ v < new_size) then
     let new_capacity := new_size `max` size_mul (capacity_ v) 2 in
     new_items <- ReallocateCopy new_capacity;;
     unwind (x <- value_initialized;;
             fill (Ptr new_items (size_ v)) (Ptr new_items new_size) x)
            (ArrayPtr_destroy new_items);;;
     (* items_.swap(new_items); new_items, now the old array, leaves scope *)
     put_this (set_items v new_items new_capacity);;;
     ArrayPtr_destroy (items_ v)
   else
     if decide (size_ v < new_size) then
       x <- value_initialized;;
       fill (ptr_add (begin_ v) (size_ v)) (ptr_add (begin_ v) new_size) x
     else ret tt);;;
  v' <- get_this;;
  put_this (set_size v' new_size).

(* operator=(const SimpleVector& rhs) *)
Definition assign_copy (rhs : vref) : M unit :=
  match rhs with
  | Self => ret tt
  | Other rhs =>
      v <- get_this;;
      tmp <- SimpleVector_copy rhs;;
      (* swap(tmp); tmp, now the old contents, leaves scope *)
      put_this tmp;;;
      SimpleVector_destroy v
  end.

(* operator=(SimpleVector&& rhs): returns what is left of [rhs] *)
Definition assign_move (rhs : vref) : M (option SimpleVector) :=
  match rhs with
  | Self => ret None
  | Other rhs =>
      v <- get_this;;
      let '(tmp, rhs') := SimpleVector_move rhs in
      put_this tmp;;;
      SimpleVector_destroy v;;;
      ret (Some rhs')
  end.

(* PushBack(const Type& item) *)
Definition PushBack (item : ref) : M unit :=
  v <- get_this;;
  let new_size := size_add (size_ v) 1 in
  (if decide (capacity_ v < new_size) then
     let new_capacity := new_size `max` size_mul (capacity_ v) 2 in
     new_items <- ReallocateCopy new_capacity;;
     unwind (assign_copy_at (Ptr new_items (size_ v)) item) (ArrayPtr_destroy new_items);;;
     put_this (set_items v new_items new_capacity);;;
     ArrayPtr_destroy (items_ v)
   else
     assign_copy_at (Ptr (items_ v) (size_ v)) item);;;
  v' <- get_this;;
  put_this (set_size v' (size_add (size_ v') 1)).

(* PushBack(Type&& item) *)
Definition PushBack_move (item : ref) : M unit :=
  v <- get_this;;
  let new_size := size_add (size_ v) 1 in
  (if decide (capacity_ v < new_size) then
     let new_capacity := new_size `max` size_mul (capacity_ v) 2 in
     new_items <- ReallocateCopy new_capacity;;
     assign_move_at (Ptr new_items (size_ v)) item;;;
     put_this (set_items v new_items new_capacity);;;
     ArrayPtr_destroy (items_ v)
   else
     assign_move_at (Ptr (items_ v) (size_ v)) item);;;
  v' <- get_this;;
  put_this (set_size v' (size_add (size_ v') 1)).

(* std::distance(cbegin(), pos) *)
Definition distance_from_begin (pos : ptr) : M nat :=
  v <- get_this;;
  if decide (base pos = base (cbegin v)) then ret (off pos) else undefined.

(* the assert of Insert; the source writes it [pos <= size_] *)
Definition assert_position (offset : nat) : M unit :=
  v <- get_this;;
  if decide (offset ≤ size_ v) then ret tt else undefined.

(* Insert(ConstIterator pos, const Type& value) *)
Definition Insert (pos : ptr) (value : ref) : M ptr :=
  v <- get_this;;
  offset <- distance_from_begin pos;;
  assert_position offset;;;
  let mutable_pos := ptr_add (begin_ v) offset in
  let new_size := size_add (size_ v) 1 in
  mutable_pos <-
    (if decide (new_size ≤ capacity_ v) then
       copy_backward mutable_pos (end_ v) (ptr_add (end_ v) 1);;;
       assign_copy_at mutable_pos value;;;
       ret mutable_pos
     else
       let new_capacity := new_size `max` size_mul (capacity_ v) 2 in
       new_items <- ArrayPtr_new new_capacity;;
       unwind (copy_range (begin_ v) mutable_pos (Ptr new_items 0);;;
               copy_range mutable_pos (end_ v) (Ptr new_items (offset + 1));;;
               assign_copy_at (Ptr new_items offset) value)
              (ArrayPtr_destroy new_items);;;
       put_this (set_items v new_items new_capacity);;;
       ArrayPtr_destroy (items_ v);;;
       ret (Ptr new_items offset));;
  v' <- get_this;;
  put_this (set_size v' (size_add (size_ v') 1));;;
  ret mutable_pos.

(* Insert(ConstIterator pos, Type&& value) *)
Definition Insert_move (pos : ptr) (value : ref) : M ptr :=
  v <- get_this;;
  offset <- distance_from_begin pos;;
  assert_position offset;;;
  let new_size := size_add (size_ v) 1 in
  let mutable_pos := ptr_add (begin_ v) offset in
  mutable_pos <-
    (if decide (new_size ≤ capacity_ v) then
       move_backward mutable_pos (end_ v) (ptr_add (end_ v) 1);;;
       assign_move_at mutable_pos value;;;
       ret mutable_pos
     else
       let new_capacity := new_size `max` size_mul (capacity_ v) 2 in
       new_items <- ArrayPtr_new new_capacity;;
       move_range (begin_ v) mutable_pos (Ptr new_items 0);;;
       move_range mutable_pos (end_ v) (Ptr new_items (offset + 1));;;
       assign_move_at (Ptr new_items offset) value;;;
       put_this (set_items v new_items new_capacity);;;
       ArrayPtr_destroy (items_ v);;;
       ret (Ptr new_items offset));;
  v' <- get_this;;
  put_this (set_size v' (size_add (size_ v') 1));;;
  ret mutable_pos.

Definition PopBack : M unit :=
  v <- get_this;;
  if IsEmpty v then ret tt
  else put_this (set_size v (size_sub (size_ v) 1)).

Definition Erase (pos : ptr) : M ptr :=
  v <- get_this;;
  index <- distance_from_begin pos;;
  move_range (ptr_add (begin_ v) (index + 1)) (end_ v) (ptr_add (begin_ v) index);;;
  put_this (set_size v (size_sub (size_ v) 1));;;
  (* &items_[index] *)
  ret (Ptr (items_ v) index).

(* swap(SimpleVector& other): returns what [other] holds afterwards *)
Definition swap (other : vref) : M (option SimpleVector) :=
  match other with
  | Self => ret None
  | Other o =>
      v <- get_this;;
      put_this o;;;
      ret (Some v)
  end.

Definition Reserve (new_capacity : nat) : M unit :=
  v <- get_this;;
  if decide (capacity_ v < new_capacity) then
    new_items <- ReallocateCopy new_capacity;;
    put_this (set_items v new_items new_capacity);;;
    ArrayPtr_destroy (items_ v)
  else ret tt.

(* *it, for an iterator into the array *)
Definition deref (it : ptr) : M T :=
  xs <- read_cells it 1;;
  match xs with
  | [x] => ret x
  | _ => undefined
  end.

(** *** Calls

    The ways of appending a value, and the member functions that change a
    vector without naming another one.  The values appended, inserted and
    assigned are objects that no array holds; positions are given by their
    distance from [begin()]. *)

Inductive append :=
| push_copy (item : T)             (* PushBack(const Type&) *)
| push_move (item : T).            (* PushBack(Type&&) *)

Definition appended (a : append) : T :=
  match a with
  | push_copy x | push_move x => x
  end.

Definition append_ok (a : append) : bool :=
  match a with
  | push_copy x => negb (copy_throws x)
  | push_move _ => true
  end.

Definition do_append (a : append) : M unit :=
  match a with
  | push_copy x => PushBack (outside x)
  | push_move x => PushBack_move (outside x)
  end.

Fixpoint do_appends (l : list append) : M unit :=
  match l with
  | [] => ret tt
  | a :: l => do_append a;;; do_appends l
  end.

Inductive call :=
| call_Reserve (new_capacity : nat)
| call_Resize (new_size : nat)
| call_Clear
| call_append (a : append)
| call_PopBack
| call_Insert (pos : nat) (value : T)
| call_Insert_move (pos : nat) (value : T)
| call_Erase (pos : nat)
| call_set (i : nat) (x : T).

Definition run_call (c : call) : M unit :=
  match c with
  | call_Reserve n => Reserve n
  | call_Resize n => Resize n
  | call_Clear => Clear
  | call_append a => do_append a
  | call_PopBack => PopBack
  | call_Insert p x =>
      v <- get_this;; Insert (ptr_add (cbegin v) p) (outside x);;; ret tt
  | call_Insert_move p x =>
      v <- get_this;; Insert_move (ptr_add (cbegin v) p) (outside x);;; ret tt
  | call_Erase p => v <- get_this;; Erase (ptr_add (cbegin v) p);;; ret tt
  | call_set i x => set i x
  end.

(* the doubled capacity is still a [size_t] *)
Definition can_grow (v : SimpleVector) : Prop :=
  size_ v = capacity_ v → doubles (capacity_ v).

Definition call_pre (c : call) (v : SimpleVector) : Prop :=
  match c with
  | call_Reserve n | call_Resize n => fits n
  | call_Clear | call_PopBack => True
  | call_append _ => can_grow v
  | call_Insert p _ | call_Insert_move p _ => p ≤ size_ v ∧ can_grow v
  | call_Erase p => p < size_ v
  | call_set i _ => i < size_ v
  end.

(** *** ReserveProxyObj and the free function Reserve *)

Record ReserveProxyObj := { proxy_capacity_ : nat }.

Definition ReserveProxyObj_new (capacity : nat) : ReserveProxyObj :=
  {| proxy_capacity_ := capacity |}.

Definition ReserveProxyObj_GetCapacity (p : ReserveProxyObj) : nat := proxy_capacity_ p.

(* ReserveProxyObj Reserve(size_t capacity_to_reserve) *)
Definition Reserve_obj (capacity_to_reserve : nat) : ReserveProxyObj :=
  ReserveProxyObj_new capacity_to_reserve.

(* SimpleVector(const ReserveProxyObj& new_capacity) *)
Definition SimpleVector_of_proxy (new_capacity : ReserveProxyObj) : M SimpleVector :=
  SimpleVector_reserved (ReserveProxyObj_GetCapacity new_capacity).

(** *** The relational operators *)

Section Comparisons.
Context `{!Comparable T}.

(* std::equal(first1, last1, first2, last2) on the elements of the ranges *)
Fixpoint std_equal (xs ys : list T) : bool :=
  match xs, ys with
  | [], [] => true
  | x :: xs, y :: ys => if elem_eqb x y then std_equal xs ys else false
  | _, _ => false
  end.

(* std::lexicographical_compare(first1, last1, first2, last2) *)
Fixpoint std_lexicographical_compare (xs ys : list T) : bool :=
  match xs, ys with
  | x :: xs, y :: ys =>
      if elem_ltb x y then true
      else if elem_ltb y x then false
      else std_lexicographical_compare xs ys
  | [], _ :: _ => true
  | _, [] => false
  end.

(* the elements of [first, last) *)
Definition read_range (first last : ptr) : M (list T) :=
  n <- range_length first last;;
  read_cells first n.

Definition op_eq (lhs rhs : SimpleVector) : M bool :=
  if decide (GetSize lhs ≠ GetSize rhs) then ret false
  else
    xs <- read_range (cbegin lhs) (cend lhs);;
    ys <- read_range (cbegin rhs) (cend rhs);;
    ret (std_equal xs ys).

Definition op_ne (lhs rhs : SimpleVector) : M bool :=
  b <- op_eq lhs rhs;;
  ret (negb b).

Definition op_lt (lhs rhs : SimpleVector) : M bool :=
  xs <- read_range (cbegin lhs) (cend lhs);;
  ys <- read_range (cbegin rhs) (cend rhs);;
  ret (std_lexicographical_compare xs ys).

Definition op_gt (lhs rhs : SimpleVector) : M bool := op_lt rhs lhs.

Definition op_le (lhs rhs : SimpleVector) : M bool :=
  b <- op_gt lhs rhs;;
  ret (negb b).

Definition op_ge (lhs rhs : SimpleVector) : M bool :=
  b <- op_lt lhs rhs;;
  ret (negb b).

End Comparisons.

(** *** Programs over vectors *)

Inductive stmt :=
| new_default (k : nat)                       (* SimpleVector<T> k; *)
| new_sized (k : nat) (size : nat)            (* SimpleVector<T> k(size); *)
| new_filled (k : nat) (size : nat) (value : T)  (* SimpleVector<T> k(size, value); *)
| new_of_list (k : nat) (init : list T)       (* SimpleVector<T> k{init...}; *)
| new_reserved (k : nat) (capacity : nat)     (* SimpleVector<T> k(Reserve(capacity)); *)
| new_copy (k j : nat)                        (* SimpleVector<T> k(j); *)
| new_move (k j : nat)                        (* SimpleVector<T> k(std::move(j)); *)
| end_of (k : nat)                            (* the lifetime of k ends *)
| on (k : nat) (c : call)                     (* k.c *)
| swap_with (k j : nat)                       (* k.swap(j) *)
| assign (k j : nat)                          (* k = j *)
| assign_moved (k j : nat).                   (* k = std::move(j) *)

Definition other_ref (k j : nat) (w : world (Obj:=SimpleVector) (Cell:=T)) : option vref :=
  if decide (k = j) then Some Self else Other <$> objs w !! j.

Definition exec (st : stmt) (w : world (Obj:=SimpleVector) (Cell:=T)) : option world :=
  match st with
  | new_default k => Some (World (<[k := SimpleVector_default]> (objs w)) (heap w))
  | new_sized k n => construct SimpleVector_default k (SimpleVector_sized n) w
  | new_filled k n x => construct SimpleVector_default k (SimpleVector_filled n x) w
  | new_of_list k init => construct SimpleVector_default k (SimpleVector_of_list init) w
  | new_reserved k n => construct SimpleVector_default k (SimpleVector_reserved n) w
  | new_copy k j =>
      o ← objs w !! j;
      construct SimpleVector_default k (SimpleVector_copy o) w
  | new_move k j =>
      o ← objs w !! j;
      let '(v, o') := SimpleVector_move o in
      Some (World (<[k := v]> (<[j := o']> (objs w))) (heap w))
  | end_of k =>
      v ← objs w !! k;
      match SimpleVector_destroy v (State v (heap w)) with
      | Ok _ s => Some (World (delete k (objs w)) (mem s))
      | _ => None
      end
  | on k c =>
      v ← objs w !! k;
      s ← after (run_call c (State v (heap w)));
      Some (put_object k s w)
  | swap_with k j =>
      v ← objs w !! k;
      o ← other_ref k j w;
      match swap o (State v (heap w)) with
      | Ok r s => Some (put_other j r (put_object k s w))
      | Throw _ s => Some (put_object k s w)
      | Undefined => None
      end
  | assign k j =>
      v ← objs w !! k;
      o ← other_ref k j w;
      s ← after (assign_copy o (State v (heap w)));
      Some (put_object k s w)
  | assign_moved k j =>
      v ← objs w !! k;
      o ← other_ref k j w;
      match assign_move o (State v (heap w)) with
      | Ok r s => Some (put_other j r (put_object k s w))
      | Throw _ s => Some (put_object k s w)
      | Undefined => None
      end
  end.

Definition pre (st : stmt) (w : world (Obj:=SimpleVector) (Cell:=T)) : Prop :=
  match st with
  | new_default k => objs w !! k = None
  | new_sized k n | new_filled k n _ | new_reserved k n => objs w !! k = None ∧ fits n
  | new_of_list k init => objs w !! k = None ∧ fits (length init)
  | new_copy k j | new_move k j => objs w !! k = None ∧ is_Some (objs w !! j)
  | end_of k => is_Some (objs w !! k)
  | on k c => ∃ v, objs w !! k = Some v ∧ call_pre c v
  | swap_with k j | assign k j | assign_moved k j =>
      is_Some (objs w !! k) ∧ is_Some (objs w !! j)
  end.

Inductive reachable : world (Obj:=SimpleVector) (Cell:=T) → Prop :=
| reach_start : reachable (World ∅ ∅)
| reach_exec st w w' : reachable w → pre st w → exec st w = Some w' → reachable w'.

End Model.
End Simple.

(** * Specifications

    ** Weakest preconditions

    [wp c s Q E]: run from [s], the program [c] does not violate a contract;
    when it returns, [Q] holds of the result and the final state; when it
    throws, [E] holds of the exception and the state it leaves. *)

Section WpDef.
Context {Obj Cell : Type}.

Definition wp {A} (c : M Obj Cell A) s
    (Q : A → state Obj Cell → Prop) (E : exn → state Obj Cell → Prop) : Prop :=
  match c s with
  | Ok a s' => Q a s'
  | Throw e s' => E e s'
  | Undefined => False
  end.

(** No exception at all. *)
Definition nothrow : exn → state Obj Cell → Prop := fun _ _ => False.

(** Writing a whole block, and releasing one; nothing changes at the null
    pointer. *)

Definition set_block (h : gmap addr (list Cell)) (b : option addr) (blk : list Cell) : gmap addr (list Cell) :=
  match b with
  | None => h
  | Some a => <[a := blk]> h
  end.

Definition free_block (h : gmap addr (list Cell)) (b : option addr) : gmap addr (list Cell) :=
  match b with
  | None => h
  | Some a => delete a h
  end.

End WpDef.

Global Arguments set_block : simpl never.
Global Arguments free_block : simpl never.
Global Arguments block_at : simpl never.

(** ** What a [Vector] represents

    [vrep s xs cap]: in state [s] the vector holds exactly the elements [xs]
    in a block of [cap] slots, the slots past the last element being raw; the
    byte count of the block is a [size_t]. *)

Section VecRep.
Context {T : Type} `{!Element T}.
Implicit Types (s : state Vec.Vector (option T)) (xs : list T).

Definition raw_block xs (cap : nat) : list (option T) :=
  (Some <$> xs) ++ replicate (cap - length xs) None.

Definition vrep s xs (cap : nat) : Prop :=
  Vec.size_ (this s) = length xs ∧
  Vec.capacity_ (Vec.data_ (this s)) = cap ∧
  length xs ≤ cap ∧
  allocatable cap ∧
  block_at (mem s) (Vec.buffer_ (Vec.data_ (this s))) = Some (raw_block xs cap).

Definition vec_valid s : Prop := ∃ xs cap, vrep s xs cap.

(** Every other allocated block is left as it was, and does not become the
    vector's own. *)
Definition vframe s s' : Prop :=
  ∀ c blk, Some c ≠ Vec.buffer_ (Vec.data_ (this s)) →
    mem s !! c = Some blk →
    mem s' !! c = Some blk ∧ Some c ≠ Vec.buffer_ (Vec.data_ (this s')).

End VecRep.

(** Whether copying every element of a range succeeds, and whether
    [UnitializedN] on it does. *)
Definition copies_ok {T} `{!Element T} (xs : list T) : bool :=
  forallb (fun x => negb (copy_throws x)) xs.
Definition relocation_ok {T} `{!Element T} (xs : list T) : bool :=
  relocate_by_move || copies_ok xs.

(** ** What a [SimpleVector] represents

    [srep s xs rest]: in state [s] the vector holds the elements [xs], at the
    front of an array whose other objects are [rest]; its capacity is the
    length of the array. *)

Section SimpleRep.
Context {T : Type} `{!Element T}.
Implicit Types (s : state Simple.SimpleVector T) (xs rest : list T).

Definition srep s xs rest : Prop :=
  Simple.size_ (this s) = length xs ∧
  Simple.capacity_ (this s) = length xs + length rest ∧
  fits (Simple.capacity_ (this s)) ∧
  block_at (mem s) (Simple.items_ (this s)) = Some (xs ++ rest).

Definition simple_valid s : Prop := ∃ xs rest, srep s xs rest.

Definition sframe s s' : Prop :=
  ∀ c blk, Some c ≠ Simple.items_ (this s) →
    mem s !! c = Some blk →
    mem s' !! c = Some blk ∧ Some c ≠ Simple.items_ (this s').

End SimpleRep.


(** ** What a program keeps

    Every object is valid over the heap, and no two own the same block. *)

Section WorldInv.
Context {Obj Cell : Type} (owned : Obj → option addr)
        (valid : Obj → gmap addr (list Cell) → Prop).

Definition separate (a b : Obj) : Prop := owned a = None ∨ owned a ≠ owned b.

Definition winv (w : world (Obj:=Obj) (Cell:=Cell)) : Prop :=
  (∀ k v, objs w !! k = Some v → valid v (heap w)) ∧
  (∀ k k' v v', k ≠ k' → objs w !! k = Some v → objs w !! k' = Some v' →
     separate v v').

End WorldInv.

(** The invariant for programs over each container. *)

Definition vec_owned (v : Vec.Vector) : option addr := Vec.buffer_ (Vec.data_ v).
Definition vec_winv {T} `{!Element T} : world (Obj:=Vec.Vector) (Cell:=option T) → Prop :=
  winv vec_owned (fun v h => vec_valid (State v h)).

Definition simple_owned (v : Simple.SimpleVector) : option addr := Simple.items_ v.
Definition simple_winv {T} `{!Element T} : world (Obj:=Simple.SimpleVector) (Cell:=T) → Prop :=
  winv simple_owned (fun v h => simple_valid (State v h)).

(** ** An element type for the examples

    A handle on a number, four bytes wide: [T()] is the handle on 0 and does
    not throw, copying the handle on 13 throws, and a move leaves its source
    holding 0.
    [nothrow_move] says whether the move constructor is declared noexcept,
    which is what [Vector::UnitializedN] looks at. *)

Definition handle (nothrow_move : bool) : Element nat :=
  {| sizeof_T := 4;
     default_value := 0;
     default_throws := false;
     copy_throws := fun x => bool_decide (x = 13);
     moved_from := fun _ => 0;
     relocate_by_move := nothrow_move;
     array_init := 0 |}.

Global Instance example_element : Element nat := handle true.

Global Instance example_comparable : Comparable nat :=
  {| elem_eqb := Nat.eqb; elem_ltb := Nat.ltb |}.

(** The states of the examples: a [Vector] and a [SimpleVector] holding 1, 2
    in a block of two, a [SimpleVector] holding 1, 2, 3 in an array of four
    and one holding 1, 2, 3, 4 in an array of four; and the programs'
    states after [Vector<T> v0; v0.PushBack(1)] and after
    [SimpleVector<T> v0{1, 2}]. *)

Definition vec_full_12 : state Vec.Vector (option nat) :=
  State {| Vec.data_ := {| Vec.buffer_ := Some 1%positive; Vec.capacity_ := 2 |};
           Vec.size_ := 2 |}
        {[ 1%positive := [Some 1; Some 2] ]}.

Definition simple_full_12 : state Simple.SimpleVector nat :=
  State {| Simple.items_ := Some 1%positive; Simple.size_ := 2; Simple.capacity_ := 2 |}
        {[ 1%positive := [1; 2] ]}.

Definition simple_roomy_123 : state Simple.SimpleVector nat :=
  State {| Simple.items_ := Some 1%positive; Simple.size_ := 3; Simple.capacity_ := 4 |}
        {[ 1%positive := [1; 2; 3; 0] ]}.

Definition simple_full_1234 : state Simple.SimpleVector nat :=
  State {| Simple.items_ := Some 1%positive; Simple.size_ := 4; Simple.capacity_ := 4 |}
        {[ 1%positive := [1; 2; 3; 4] ]}.

Definition vec_world_1 : world (Obj:=Vec.Vector) (Cell:=option nat) :=
  World {[ 0 := {| Vec.data_ := {| Vec.buffer_ := Some 1%positive; Vec.capacity_ := 1 |};
                   Vec.size_ := 1 |} ]}
        {[ 1%positive := [Some 1] ]}.

Definition simple_world_12 : world (Obj:=Simple.SimpleVector) (Cell:=nat) :=
  World {[ 0 := {| Simple.items_ := Some 1%positive; Simple.size_ := 2;
                   Simple.capacity_ := 2 |} ]}
        {[ 1%positive := [1; 2] ]}.

(** A [Vector] holding the handles on 13 and 2 in a block of two: with a
    move constructor that may throw, its elements cannot be relocated. *)
Definition vec_full_13_2 : state Vec.Vector (option nat) :=
  State {| Vec.data_ := {| Vec.buffer_ := Some 1%positive; Vec.capacity_ := 2 |};
           Vec.size_ := 2 |}
        {[ 1%positive := [Some 13; Some 2] ]}.

(** A [Vector] holding 1 in a block of three. *)
Definition vec_roomy_1 : state Vec.Vector (option nat) :=
  State {| Vec.data_ := {| Vec.buffer_ := Some 1%positive; Vec.capacity_ := 3 |};
           Vec.size_ := 1 |}
        {[ 1%positive := [Some 1; None; None] ]}.

(** Two vectors in one heap: the one holding 1, 2 in the full block 1 and a
    second one owning block 2, of three slots, which holds 7, 8, 9 in the
    first state and 7, 13, 9 in the second; the same for [SimpleVector]. *)
Definition vec_second : Vec.Vector :=
  {| Vec.data_ := {| Vec.buffer_ := Some 2%positive; Vec.capacity_ := 3 |};
     Vec.size_ := 3 |}.

Definition vec_12_and_789 : state Vec.Vector (option nat) :=
  State (this vec_full_12)
        {[ 1%positive := [Some 1; Some 2]; 2%positive := [Some 7; Some 8; Some 9] ]}.

Definition vec_12_and_7_13_9 : state Vec.Vector (option nat) :=
  State (this vec_full_12)
        {[ 1%positive := [Some 1; Some 2]; 2%positive := [Some 7; Some 13; Some 9] ]}.

Definition simple_second : Simple.SimpleVector :=
  {| Simple.items_ := Some 2%positive; Simple.size_ := 3; Simple.capacity_ := 3 |}.

Definition simple_12_and_789 : state Simple.SimpleVector nat :=
  State (this simple_full_12) {[ 1%positive := [1; 2]; 2%positive := [7; 8; 9] ]}.

Definition simple_12_and_7_13_9 : state Simple.SimpleVector nat :=
  State (this simple_full_12) {[ 1%positive := [1; 2]; 2%positive := [7; 13; 9] ]}.


(** An element type 2^62 bytes wide, such as a structure around one large
    array: the byte count of four of them wraps around to 0. *)
Definition huge : Element nat :=
  {| sizeof_T := 4611686018427387904;
     default_value := 0;
     default_throws := false;
     copy_throws := fun _ => false;
     moved_from := fun x => x;
     relocate_by_move := true;
     array_init := 0 |}.
(** * Reasoning about programs of the monad *)

(** ** Rules of the weakest precondition *)

Section Wp.
Context {Obj Cell : Type}.
Implicit Types (s : state Obj Cell) (h : gmap addr (list Cell)).

Lemma wp_mono {A} (c : M Obj Cell A) s (Q Q' : A → _ → Prop) (E E' : exn → _ → Prop) :
  wp c s Q E →
  (∀ a s', Q a s' → Q' a s') →
  (∀ e s', E e s' → E' e s') →
  wp c s Q' E'.
Proof. unfold wp. destruct (c s); eauto. Qed.

Lemma wp_returns {A} (c : M Obj Cell A) s Q :
  wp c s Q nothrow ↔ ∃ a s', c s = Ok a s' ∧ Q a s'.
Proof.
  unfold wp, nothrow. split.
  - destruct (c s); [eauto | done | done].
  - intros (a & s' & -> & HQ). done.
Qed.

Lemma wp_ret {A} (a : A) s Q E : Q a s → wp (ret a) s Q E.
Proof. done. Qed.

Lemma wp_throw {A} e s (Q : A → _ → Prop) E : E e s → wp (throw e) s Q E.
Proof. done. Qed.

Lemma wp_bind {A B} (c : M Obj Cell A) (k : A → M Obj Cell B) s Q E :
  wp c s (fun a s' => wp (k a) s' Q E) E → wp (bind c k) s Q E.
Proof. unfold wp, bind. destruct (c s); done. Qed.

Lemma wp_unwind {A} (c : M Obj Cell A) cleanup s Q E :
  wp c s Q (fun e s' => wp cleanup s' (fun _ s'' => E e s'') nothrow) →
  wp (unwind c cleanup) s Q E.
Proof.
  unfold wp, unwind, nothrow. destruct (c s) as [| e s' |]; [done | | done].
  destruct (cleanup s'); done.
Qed.

Lemma wp_get_this s (Q : Obj → _ → Prop) E : Q (this s) s → wp get_this s Q E.
Proof. done. Qed.

Lemma wp_put_this o s (Q : unit → _ → Prop) E :
  Q tt (State o (mem s)) → wp (put_this o) s Q E.
Proof. done. Qed.

(** *** Blocks *)

Lemma block_at_length_null h blk : block_at h None = Some blk → blk = [].
Proof. by intros [= <-]. Qed.

Lemma block_at_set_block h b blk :
  (b = None → blk = []) → block_at (set_block h b blk) b = Some blk.
Proof.
  unfold block_at, set_block. destruct b as [a|]; simpl.
  - intros _. apply lookup_insert_eq.
  - intros ->; done.
Qed.

Lemma block_at_set_block_ne h b b' blk :
  b ≠ b' → block_at (set_block h b blk) b' = block_at h b'.
Proof.
  unfold block_at, set_block. destruct b as [a|], b' as [a'|]; simpl; try done.
  intros Hne. apply lookup_insert_ne. congruence.
Qed.

Lemma block_at_free_block_ne h b b' :
  b ≠ b' → block_at (free_block h b) b' = block_at h b'.
Proof.
  unfold block_at, free_block. destruct b as [a|], b' as [a'|]; simpl; try done.
  intros Hne. apply lookup_delete_ne. congruence.
Qed.

Lemma block_at_fresh_ne h a b blk :
  h !! a = None → block_at h b = Some blk → Some a ≠ b.
Proof. intros Ha Hb <-. unfold block_at in Hb. congruence. Qed.

Lemma splice_length (blk : list Cell) o cs :
  o + length cs ≤ length blk → length (splice blk o cs) = length blk.
Proof.
  intros. unfold splice.
  rewrite !length_app, length_take, length_drop. lia.
Qed.

Lemma splice_null (o : nat) (cs : list Cell) :
  o + length cs ≤ 0 → splice [] o cs = [].
Proof.
  intros. destruct cs; simpl in *; [| lia].
  unfold splice. by rewrite take_nil, drop_nil.
Qed.

Lemma block_at_set_block_len h b blk0 blk :
  block_at h b = Some blk0 → length blk = length blk0 →
  block_at (set_block h b blk) b = Some blk.
Proof.
  intros Hb Hlen. apply block_at_set_block. intros ->.
  apply block_at_length_null in Hb as ->. by destruct blk.
Qed.

Lemma block_at_written h b blk o cs :
  block_at h b = Some blk → o + length cs ≤ length blk →
  block_at (set_block h b (splice blk o cs)) b = Some (splice blk o cs).
Proof.
  intros Hb Hle. apply block_at_set_block. intros ->.
  apply block_at_length_null in Hb as ->. by apply splice_null.
Qed.

(** *** The primitives *)

Lemma wp_operator_new blk s (Q : option addr → _ → Prop) E :
  (∀ a, mem s !! a = None → Q (Some a) (State (this s) (<[a := blk]> (mem s)))) →
  wp (operator_new blk) s Q E.
Proof.
  intros HQ. unfold wp, operator_new. apply HQ.
  apply not_elem_of_dom, is_fresh.
Qed.

Lemma wp_operator_delete b blk s (Q : unit → _ → Prop) E :
  block_at (mem s) b = Some blk →
  Q tt (State (this s) (free_block (mem s) b)) →
  wp (operator_delete b) s Q E.
Proof.
  unfold wp, operator_delete, block_at, free_block. destruct b as [a|]; simpl.
  - intros ->. done.
  - intros _. by destruct s.
Qed.

Lemma wp_read_cells p n blk s (Q : list Cell → _ → Prop) E :
  block_at (mem s) (base p) = Some blk →
  off p + n ≤ length blk →
  Q (take n (drop (off p) blk)) s →
  wp (read_cells p n) s Q E.
Proof.
  intros Hb Hle HQ. unfold wp, read_cells. rewrite Hb.
  by rewrite decide_True.
Qed.

Lemma wp_write_cells p cs blk s (Q : unit → _ → Prop) E :
  block_at (mem s) (base p) = Some blk →
  off p + length cs ≤ length blk →
  Q tt (State (this s) (set_block (mem s) (base p) (splice blk (off p) cs))) →
  wp (write_cells p cs) s Q E.
Proof.
  intros Hb Hle HQ. unfold wp, write_cells, block_at, set_block in *.
  destruct (base p) as [a|]; simpl in *.
  - rewrite Hb. by rewrite decide_True.
  - injection Hb as <-. rewrite decide_True by done. by destruct s.
Qed.

Lemma wp_range_length (first last : ptr) s (Q : nat → _ → Prop) E :
  base first = base last → off first ≤ off last →
  Q (off last - off first) s →
  wp (range_length first last) s Q E.
Proof.
  intros Hb Hle HQ. unfold wp, range_length. by rewrite decide_True.
Qed.

End Wp.

(** ** Lists of cells, compared index by index *)

Lemma lookup_replicate_decide {A} (x : A) n i :
  replicate n x !! i = if decide (i < n) then Some x else None.
Proof.
  case_decide.
  - by apply lookup_replicate_2.
  - apply lookup_replicate_None. lia.
Qed.

Lemma lookup_app_decide {A} (l1 l2 : list A) i :
  (l1 ++ l2) !! i =
    if decide (i < length l1) then l1 !! i else l2 !! (i - length l1).
Proof.
  case_decide.
  - by apply lookup_app_l.
  - apply lookup_app_r. lia.
Qed.

Lemma lookup_cons_decide {A} (x : A) (l : list A) i :
  (x :: l) !! i = if decide (i = 0) then Some x else l !! (i - 1).
Proof.
  destruct i; simpl; [done |]. by rewrite Nat.sub_0_r.
Qed.

Lemma lookup_splice {A} (blk : list A) o cs i :
  o + length cs ≤ length blk →
  splice blk o cs !! i =
    if decide (i < o) then blk !! i
    else if decide (i < o + length cs) then cs !! (i - o) else blk !! i.
Proof.
  intros Hle. unfold splice.
  rewrite !lookup_app_decide, lookup_take, lookup_drop, length_take.
  repeat case_decide; try lia; try done.
  all: try (f_equal; lia).
  all: rewrite !lookup_ge_None_2 by lia; done.
Qed.

Lemma raw_block_length {T} (xs : list T) cap :
  length xs ≤ cap → length (raw_block xs cap) = cap.
Proof.
  intros. unfold raw_block. rewrite length_app, length_fmap, length_replicate. lia.
Qed.

Lemma lookup_raw_block {T} (xs : list T) cap i :
  length xs ≤ cap →
  raw_block xs cap !! i =
    if decide (i < length xs) then Some <$> xs !! i
    else if decide (i < cap) then Some None else None.
Proof.
  intros Hle. unfold raw_block.
  rewrite lookup_app_decide, length_fmap, list_lookup_fmap, lookup_replicate_decide.
  repeat case_decide; try lia; done.
Qed.

(** Lengths of the lists a block is built from. *)
Ltac len_tac :=
  simpl;
  repeat first
    [ rewrite raw_block_length by len_tac
    | rewrite splice_length by len_tac
    | rewrite length_fmap | rewrite length_replicate | rewrite length_app
    | rewrite length_take | rewrite length_drop
    | rewrite length_cons | rewrite length_nil | rewrite length_insert ];
  simpl; try lia.

Ltac list_ext_rewrite :=
  repeat first
    [ rewrite lookup_splice by len_tac
    | rewrite lookup_raw_block by len_tac
    | rewrite lookup_app_decide | rewrite lookup_take | rewrite lookup_drop
    | rewrite lookup_replicate_decide | rewrite list_lookup_fmap
    | rewrite lookup_cons_decide | rewrite lookup_nil
    | rewrite raw_block_length by len_tac
    | rewrite splice_length by len_tac
    | rewrite length_app | rewrite length_take | rewrite length_drop
    | rewrite length_replicate | rewrite length_fmap | rewrite length_cons
    | rewrite length_nil | rewrite length_insert ].

Ltac list_ext_finish :=
  first
    [ done
    | exfalso; lia
    | rewrite !lookup_ge_None_2 by lia; done
    | lazymatch goal with
      | |- ?lhs = ?rhs =>
          lazymatch lhs with
          | context [?l !! ?a] =>
              lazymatch rhs with
              | context [l !! ?b] =>
                  first [ replace b with a by lia; done
                        | replace a with b by lia; done ]
              end
          end
      end ].

(** The hypotheses about states and programs play no part in a comparison
    of lists. *)
Ltac list_ext_clear :=
  repeat match goal with
  | H : context [wp] |- _ => clear H
  | H : context [@mem] |- _ => clear H
  | H : context [block_at] |- _ => clear H
  | H : context [vrep] |- _ => clear H
  | H : context [vframe] |- _ => clear H
  end.

(** Equality of two lists built from [++], [take], [drop], [replicate],
    [<$>], [::] and [splice], by comparing them at every index. *)
Ltac list_ext :=
  apply list_eq; intros ?i; list_ext_clear; simpl in *;
  list_ext_rewrite; repeat (case_decide; try (exfalso; lia));
  simpl in *; list_ext_finish.

(** * vector.h: the algorithms over raw storage *)

Section VecAlgorithms.
Context {T : Type} `{!Element T}.
Implicit Types (s : state Vec.Vector (option T)) (xs : list T).

Lemma mapM_id_Some xs : mapM id (Some <$> xs) = Some xs.
Proof.
  apply mapM_Some_2.
  induction xs as [|x xs IH]; simpl; by constructor.
Qed.

Lemma vec_wp_read_live p n blk xs s (Q : list T → _ → Prop) E :
  block_at (mem s) (base p) = Some blk →
  off p + n ≤ length blk →
  take n (drop (off p) blk) = Some <$> xs →
  Q xs s →
  wp (Vec.read_live p n) s Q E.
Proof.
  intros Hb Hle Hxs HQ. unfold Vec.read_live.
  apply wp_bind. eapply wp_read_cells; [done.. |].
  cbv beta. rewrite Hxs, mapM_id_Some. by apply wp_ret.
Qed.

Lemma vec_wp_construct_at p x blk s (Q : ptr → _ → Prop) E :
  block_at (mem s) (base p) = Some blk →
  off p + 1 ≤ length blk →
  Q p (State (this s) (set_block (mem s) (base p) (splice blk (off p) [Some x]))) →
  wp (Vec.construct_at p (Some x)) s Q E.
Proof.
  intros Hb Hle HQ. unfold Vec.construct_at.
  apply wp_bind. eapply wp_write_cells; [done.. |]. by apply wp_ret.
Qed.

Lemma vec_wp_destroy_n p n blk xs s (Q : unit → _ → Prop) E :
  block_at (mem s) (base p) = Some blk →
  off p + n ≤ length blk →
  take n (drop (off p) blk) = Some <$> xs →
  Q tt (State (this s) (set_block (mem s) (base p) (splice blk (off p) (replicate n None)))) →
  wp (Vec.destroy_n p n) s Q E.
Proof.
  intros Hb Hle Hxs HQ. unfold Vec.destroy_n.
  apply wp_bind. eapply vec_wp_read_live; [done.. |].
  eapply wp_write_cells; [done | by rewrite length_replicate | done].
Qed.

Lemma vec_wp_uninitialized_value_construct_n p n blk s (Q : unit → _ → Prop) E :
  block_at (mem s) (base p) = Some blk →
  off p + n ≤ length blk →
  (n ≠ 0 → default_throws = true → E element_failure s) →
  (n = 0 ∨ default_throws = false →
   Q tt (State (this s)
     (set_block (mem s) (base p) (splice blk (off p) (replicate n (Some default_value)))))) →
  wp (Vec.uninitialized_value_construct_n p n) s Q E.
Proof.
  intros Hb Hle HE HQ. unfold Vec.uninitialized_value_construct_n.
  case_decide as Hn.
  - subst n. apply wp_ret. specialize (HQ (or_introl eq_refl)).
    destruct s as [v h]. simpl in *.
    replace (set_block h (base p) (splice blk (off p) [])) with h in HQ; [done |].
    unfold set_block, block_at in *.
    destruct (base p) as [a|]; simpl in *; [| done].
    symmetry. apply insert_id. rewrite Hb. f_equal. unfold splice. simpl.
    rewrite Nat.add_0_r. by rewrite take_drop.
  - destruct default_throws eqn:Hd.
    + apply wp_throw. by apply HE.
    + eapply wp_write_cells; [done | by rewrite length_replicate | auto].
Qed.

Lemma vec_wp_uninitialized_move_n from n to blk1 blk2 xs s (Q : unit → _ → Prop) E :
  block_at (mem s) (base from) = Some blk1 →
  off from + n ≤ length blk1 →
  take n (drop (off from) blk1) = Some <$> xs →
  let h1 := set_block (mem s) (base from) (splice blk1 (off from) (Some ∘ moved_from <$> xs)) in
  block_at h1 (base to) = Some blk2 →
  off to + n ≤ length blk2 →
  Q tt (State (this s) (set_block h1 (base to) (splice blk2 (off to) (Some <$> xs)))) →
  wp (Vec.uninitialized_move_n from n to) s Q E.
Proof.
  intros Hb1 Hle1 Hxs h1 Hb2 Hle2 HQ. unfold Vec.uninitialized_move_n.
  assert (length xs = n) as Hlen.
  { apply (f_equal length) in Hxs.
    rewrite length_fmap, length_take, length_drop in Hxs. lia. }
  apply wp_bind. eapply vec_wp_read_live; [done.. |].
  apply wp_bind. eapply wp_write_cells; [done | rewrite length_fmap; lia |].
  eapply wp_write_cells; [done | rewrite length_fmap; simpl; lia | done].
Qed.

Lemma vec_wp_uninitialized_copy_n from n to blk1 blk2 xs s (Q : unit → _ → Prop) E :
  block_at (mem s) (base from) = Some blk1 →
  off from + n ≤ length blk1 →
  take n (drop (off from) blk1) = Some <$> xs →
  block_at (mem s) (base to) = Some blk2 →
  off to + n ≤ length blk2 →
  (forallb (fun x => negb (copy_throws x)) xs = false → E element_failure s) →
  (forallb (fun x => negb (copy_throws x)) xs = true →
   Q tt (State (this s) (set_block (mem s) (base to) (splice blk2 (off to) (Some <$> xs))))) →
  wp (Vec.uninitialized_copy_n from n to) s Q E.
Proof.
  intros Hb1 Hle1 Hxs Hb2 Hle2 HE HQ. unfold Vec.uninitialized_copy_n.
  assert (length xs = n) as Hlen.
  { apply (f_equal length) in Hxs.
    rewrite length_fmap, length_take, length_drop in Hxs. lia. }
  apply wp_bind. eapply vec_wp_read_live; [done.. |].
  destruct (forallb _ xs) eqn:Hall.
  - eapply wp_write_cells; [done | rewrite length_fmap; lia | auto].
  - apply wp_throw. auto.
Qed.

End VecAlgorithms.

(** The block at a base after a series of writes and releases. *)
Ltac solve_block_at :=
  simpl;
  lazymatch goal with
  | |- block_at (free_block _ _) _ = _ =>
      rewrite block_at_free_block_ne by congruence; solve_block_at
  | |- block_at (set_block _ (Some ?a) _) (Some ?a) = _ =>
      apply block_at_set_block; discriminate
  | |- block_at (set_block _ ?b _) ?b = _ =>
      eapply block_at_set_block_len; [solve_block_at | len_tac]
  | |- block_at (set_block _ _ _) _ = _ =>
      rewrite block_at_set_block_ne by congruence; solve_block_at
  | |- block_at _ _ = _ => eassumption
  end.

Ltac block_is := etrans; [solve_block_at | f_equal].

(** Rewriting the block last written into the form [B]. *)
Ltac norm_top B :=
  lazymatch goal with
  | |- wp _ (State _ (set_block _ _ ?X)) _ _ =>
      replace X with B by (symmetry; list_ext)
  end.

Lemma set_block_same {Cell} (h : gmap addr (list Cell)) b blk :
  block_at h b = Some blk → set_block h b blk = h.
Proof. destruct b as [a|]; [| done]. apply insert_id. Qed.

Lemma free_block_set_block {Cell} (h : gmap addr (list Cell)) b blk :
  free_block (set_block h b blk) b = free_block h b.
Proof. destruct b as [a|]; [| done]. apply delete_insert_eq. Qed.

Lemma free_block_absent {Cell} (h : gmap addr (list Cell)) a :
  h !! a = None → free_block h (Some a) = h.
Proof. apply delete_id. Qed.

Lemma lookup_set_block_ne {Cell} (h : gmap addr (list Cell)) b blk c :
  Some c ≠ b → set_block h b blk !! c = h !! c.
Proof.
  destruct b as [a|]; [| done]. intros. apply lookup_insert_ne. congruence.
Qed.

Lemma lookup_free_block_ne {Cell} (h : gmap addr (list Cell)) b c :
  Some c ≠ b → free_block h b !! c = h !! c.
Proof.
  destruct b as [a|]; [| done]. intros. apply lookup_delete_ne. congruence.
Qed.

(** A block that was allocated before is still there after writes to, and
    releases of, other blocks. *)
Ltac solve_kept :=
  simpl;
  repeat first
    [ rewrite lookup_free_block_ne by congruence
    | rewrite lookup_set_block_ne by congruence ];
  try done.

Lemma splice_same {Cell} (blk : list Cell) o n :
  o + n ≤ length blk → splice blk o (take n (drop o blk)) = blk.
Proof.
  intros. unfold splice. rewrite length_take, length_drop.
  replace (o + n `min` (length blk - o)) with (o + n) by lia.
  rewrite <-(take_drop o blk) at 4. f_equal.
  rewrite <-(take_drop n (drop o blk)) at 2. f_equal.
  by rewrite drop_drop.
Qed.

(** * vector.h: the methods *)

(** Sizes whose byte count is a [size_t]. *)

Section Allocatable.
Context {T : Type} `{!Element T}.

Lemma allocatable_fits n : allocatable n → fits n.
Proof. unfold allocatable, fits. nia. Qed.

Lemma allocatable_le n m : n ≤ m → allocatable m → allocatable n.
Proof. unfold allocatable. nia. Qed.

Lemma allocatable_0 : allocatable 0.
Proof. done. Qed.

Lemma allocatable_doubles n : allocatable (1 `max` (2 * n)) → doubles n.
Proof. unfold allocatable, doubles, SIZE_MOD, HALF_MOD. nia. Qed.

Lemma slots_in_bytes_of n : allocatable n → slots_in (bytes_of n) = n.
Proof.
  unfold allocatable, slots_in, bytes_of, size_t_of. intros Hn.
  rewrite Z.mod_small by lia. rewrite Z2Nat.id by lia.
  rewrite Z.div_mul by done. lia.
Qed.

End Allocatable.

(* size arithmetic also draws on the sizes known to be allocatable *)
Ltac size_lia ::=
  repeat match goal with
  | H : allocatable _ |- _ => apply allocatable_fits in H
  end;
  unfold size_add, size_sub, size_mul, size_t_of, fits, doubles, SIZE_MOD, HALF_MOD in *;
  zify; Z.to_euclidean_division_equations; lia.

(** The five parts of [vrep]: the last one, the contents of the block, is
    left to the caller. *)
Ltac vrep_tac :=
  unfold vrep; simpl; split_and!;
  [ first [done | len_tac; size_lia]
  | first [done | lia]
  | len_tac
  | first [done | by apply allocatable_0
          | eapply allocatable_le; [| eassumption]; len_tac]
  | ].

Ltac vlist := list_ext.

Section VecSpecs.
Context {T : Type} `{!Element T}.
Implicit Types (s : state Vec.Vector (option T)) (xs : list T).
Import Vec.

Lemma vframe_refl s : vframe s s.
Proof. by intros c blk Hc Hblk. Qed.

Lemma vframe_trans s1 s2 s3 : vframe s1 s2 → vframe s2 s3 → vframe s1 s3.
Proof.
  intros H12 H23 c blk Hc Hblk.
  destruct (H12 c blk Hc Hblk) as [Hblk2 Hc2]. by apply H23.
Qed.

Lemma vec_wp_RawMemory_new capacity s (Q : RawMemory → _ → Prop) E :
  allocatable capacity →
  (capacity = 0 → Q {| buffer_ := None; capacity_ := 0 |} s) →
  (∀ a, capacity ≠ 0 → mem s !! a = None →
     Q {| buffer_ := Some a; capacity_ := capacity |}
       (State (this s) (set_block (mem s) (Some a) (replicate capacity None)))) →
  wp (RawMemory_new capacity) s Q E.
Proof.
  intros Hn H0 H1. unfold RawMemory_new, Allocate. apply wp_bind.
  case_decide as Hc.
  - rewrite slots_in_bytes_of by done.
    apply wp_operator_new. intros a Ha. apply wp_ret. auto.
  - apply wp_ret, wp_ret. assert (capacity = 0) as -> by lia. auto.
Qed.

Lemma vec_wp_RawMemory_destroy r blk s (Q : unit → _ → Prop) E :
  block_at (mem s) (buffer_ r) = Some blk →
  Q tt (State (this s) (free_block (mem s) (buffer_ r))) →
  wp (RawMemory_destroy r) s Q E.
Proof. intros. by eapply wp_operator_delete. Qed.

Lemma vec_wp_RawMemory_plus r offset s (Q : ptr → _ → Prop) E :
  offset ≤ capacity_ r →
  Q (Ptr (buffer_ r) offset) s →
  wp (RawMemory_plus r offset) s Q E.
Proof.
  intros. unfold RawMemory_plus. rewrite decide_True by done. by apply wp_ret.
Qed.

Lemma vec_wp_UnitializedN from n to blk1 blk2 xs s (Q : unit → _ → Prop) E :
  block_at (mem s) (base from) = Some blk1 →
  off from + n ≤ length blk1 →
  take n (drop (off from) blk1) = Some <$> xs →
  base from ≠ base to →
  block_at (mem s) (base to) = Some blk2 →
  off to + n ≤ length blk2 →
  (relocation_ok xs = false → E element_failure s) →
  (relocation_ok xs = true → ∀ ys, length ys = n →
     (relocate_by_move = false → ys = xs) →
     Q tt (State (this s)
       (set_block (set_block (mem s) (base from) (splice blk1 (off from) (Some <$> ys)))
                  (base to) (splice blk2 (off to) (Some <$> xs))))) →
  wp (UnitializedN from n to) s Q E.
Proof.
  intros Hb1 Hle1 Hxs Hne Hb2 Hle2 HE HQ.
  unfold UnitializedN, relocation_ok, copies_ok in *.
  assert (length xs = n) as Hlen.
  { apply (f_equal length) in Hxs.
    rewrite length_fmap, length_take, length_drop in Hxs. lia. }
  destruct relocate_by_move; simpl in *.
  - eapply vec_wp_uninitialized_move_n; [done.. | | done |].
    + by rewrite block_at_set_block_ne.
    + specialize (HQ eq_refl (moved_from <$> xs)).
      rewrite <-list_fmap_compose in HQ. apply HQ; [by rewrite length_fmap | done].
  - eapply vec_wp_uninitialized_copy_n; [done.. |].
    intros Hok. specialize (HQ Hok xs Hlen (fun _ => eq_refl)).
    replace (set_block (mem s) (base from) (splice blk1 (off from) (Some <$> xs)))
      with (mem s) in HQ; [done |].
    symmetry. apply set_block_same. rewrite Hb1. f_equal.
    rewrite <-Hxs. by rewrite splice_same.
Qed.

Lemma grown_capacity_spec n :
  allocatable (1 `max` (2 * n)) →
  grown_capacity n = 1 `max` (2 * n) ∧ allocatable (grown_capacity n).
Proof.
  intros Hn. pose proof (allocatable_doubles _ Hn) as Hd.
  assert (grown_capacity n = 1 `max` (2 * n)) as ->; [| done].
  unfold grown_capacity. case_decide as H0.
  - by subst n.
  - size_lia.
Qed.

Lemma vec_wp_EmplaceBack mk s xs cap (Q : ptr → _ → Prop) E :
  vrep s xs cap →
  (length xs = cap → allocatable (1 `max` (2 * cap))) →
  (∀ x s', mk = Some x →
     (length xs = cap → relocation_ok xs = true) →
     vrep s' (xs ++ [x]) (if decide (cap = length xs) then grown_capacity cap else cap) →
     vframe s s' →
     Q (Ptr (buffer_ (data_ (this s'))) (length xs)) s') →
  (mk = None ∨ (length xs = cap ∧ relocation_ok xs = false) → E element_failure s) →
  wp (EmplaceBack mk) s Q E.
Proof.
  intros (Hsz & Hcap & Hle & Hfit & Hblk) Hdbl HQ HE.
  destruct s as [[[b c] n] h]. simpl in *. subst c n.
  pose proof (raw_block_length xs cap Hle) as Hlen.
  unfold EmplaceBack.
  apply wp_bind, wp_get_this. simpl.
  apply wp_bind. unfold Capacity, RawMemory_Capacity. simpl.
  case_decide as Hfull.
  - (* the block is full: relocate into a larger one *)
    specialize (Hdbl (eq_sym Hfull)). subst cap.
    destruct (grown_capacity_spec _ Hdbl) as [Hg Hgfit].
    apply wp_bind, vec_wp_RawMemory_new; [done | lia |]. intros a _ Ha. simpl in *.
    pose proof (block_at_fresh_ne _ _ _ _ Ha Hblk) as Hne.
    apply wp_bind, wp_unwind, wp_bind, vec_wp_RawMemory_plus; [simpl; lia |].
    destruct mk as [x|]; simpl.
    2:{ apply wp_throw. eapply vec_wp_RawMemory_destroy; [solve_block_at |].
        simpl. rewrite free_block_set_block, free_block_absent by done. auto. }
    eapply vec_wp_construct_at; [solve_block_at | len_tac |].
    simpl.
    apply wp_bind, wp_unwind. simpl.
    eapply (vec_wp_UnitializedN _ _ _ _ _ xs);
      [solve_block_at | len_tac | vlist | simpl; congruence
      | solve_block_at | len_tac | |].
    { intros Hbad. eapply vec_wp_RawMemory_destroy; [solve_block_at |].
      simpl. rewrite !free_block_set_block, free_block_absent by done. auto. }
    intros Hok ys Hys _. simpl.
    apply wp_bind. eapply (vec_wp_destroy_n _ _ _ ys); [solve_block_at | len_tac | vlist |].
    apply wp_bind, wp_put_this. simpl.
    apply wp_bind. eapply vec_wp_RawMemory_destroy; [solve_block_at |].
    apply wp_ret. simpl.
    apply wp_bind, wp_get_this, wp_bind, wp_put_this, wp_ret. simpl.
    lazymatch goal with |- Q _ ?s' => apply (HQ x s'); [done | done | |] end.
    + repeat split; simpl; [len_tac; size_lia | len_tac | done |].
      block_is. vlist.
    + intros c blk Hc Hblk'. simpl in *.
      assert (c ≠ a) by congruence.
      split; [solve_kept | congruence].
  - (* room left: construct in place *)
    apply wp_bind, vec_wp_RawMemory_plus; [simpl; lia |].
    destruct mk as [x|]; simpl; [| apply wp_throw; auto].
    eapply vec_wp_construct_at; [solve_block_at | len_tac |]. simpl.
    apply wp_bind, wp_get_this, wp_bind, wp_put_this, wp_ret. simpl.
    lazymatch goal with |- Q _ ?s' => apply (HQ x s'); [done | lia | |] end.
    + repeat split; simpl; [len_tac; size_lia | len_tac | done |].
      block_is. vlist.
    + intros c blk Hc Hblk'. simpl in *. split; [solve_kept | done].
Qed.

End VecSpecs.

Section VecSpecsMore.
Context {T : Type} `{!Element T}.
Implicit Types (s : state Vec.Vector (option T)) (xs : list T).
Import Vec.

Lemma live_length (cs : list (option T)) xs n :
  take n cs = Some <$> xs → n ≤ length cs → length xs = n.
Proof.
  intros Hxs Hn. apply (f_equal length) in Hxs.
  rewrite length_fmap, length_take in Hxs. lia.
Qed.

Lemma vec_wp_move_range first last d_first n blk1 blk2 blk3 xs zs s (Q : unit → _ → Prop) E :
  base first = base last → off first ≤ off last →
  n = off last - off first →
  block_at (mem s) (base first) = Some blk1 →
  off first + n ≤ length blk1 →
  take n (drop (off first) blk1) = Some <$> xs →
  block_at (mem s) (base d_first) = Some blk2 →
  off d_first + n ≤ length blk2 →
  take n (drop (off d_first) blk2) = Some <$> zs →
  block_at (set_block (mem s) (base first)
              (splice blk1 (off first) (Some ∘ moved_from <$> xs)))
           (base d_first) = Some blk3 →
  length blk3 = length blk2 →
  Q tt (State (this s)
    (set_block (set_block (mem s) (base first)
                  (splice blk1 (off first) (Some ∘ moved_from <$> xs)))
       (base d_first) (splice blk3 (off d_first) (Some <$> xs)))) →
  wp (move_range first last d_first) s Q E.
Proof.
  intros Hb Hle -> Hb1 Hle1 Hxs Hb2 Hle2 Hzs Hb3 Hlen3 HQ. unfold move_range.
  assert (length xs = off last - off first) as Hlen.
  { eapply live_length; [done |]. rewrite length_drop. lia. }
  apply wp_bind, wp_range_length; [done.. |].
  apply wp_bind. eapply vec_wp_read_live; [done.. |].
  apply wp_bind. eapply vec_wp_read_live; [done.. |].
  apply wp_bind. eapply wp_write_cells; [done | rewrite length_fmap; lia |].
  eapply wp_write_cells; [done | rewrite length_fmap; simpl; lia | done].
Qed.

Lemma vec_wp_move_backward first last d_last n blk1 blk2 blk3 xs zs s (Q : unit → _ → Prop) E :
  base first = base last → off first ≤ off last →
  n = off last - off first →
  n ≤ off d_last →
  block_at (mem s) (base first) = Some blk1 →
  off first + n ≤ length blk1 →
  take n (drop (off first) blk1) = Some <$> xs →
  block_at (mem s) (base d_last) = Some blk2 →
  off d_last ≤ length blk2 →
  take n (drop (off d_last - n) blk2) = Some <$> zs →
  block_at (set_block (mem s) (base first)
              (splice blk1 (off first) (Some ∘ moved_from <$> xs)))
           (base d_last) = Some blk3 →
  length blk3 = length blk2 →
  Q tt (State (this s)
    (set_block (set_block (mem s) (base first)
                  (splice blk1 (off first) (Some ∘ moved_from <$> xs)))
       (base d_last) (splice blk3 (off d_last - n) (Some <$> xs)))) →
  wp (move_backward first last d_last) s Q E.
Proof.
  intros Hb Hle -> Hn Hb1 Hle1 Hxs Hb2 Hle2 Hzs Hb3 Hlen3 HQ.
  unfold move_backward.
  assert (length xs = off last - off first) as Hlen.
  { eapply live_length; [done |]. rewrite length_drop. lia. }
  apply wp_bind, wp_range_length; [done.. |].
  rewrite decide_True by done.
  apply wp_bind. eapply vec_wp_read_live; [done.. |].
  apply wp_bind. eapply vec_wp_read_live; [done | simpl; lia | done |].
  apply wp_bind. eapply wp_write_cells; [done | rewrite length_fmap; lia |].
  eapply wp_write_cells; [done | rewrite length_fmap; simpl; lia | done].
Qed.

Lemma vec_wp_move_assign_at p x z blk s (Q : unit → _ → Prop) E :
  block_at (mem s) (base p) = Some blk →
  off p + 1 ≤ length blk →
  take 1 (drop (off p) blk) = Some <$> [z] →
  Q tt (State (this s) (set_block (mem s) (base p) (splice blk (off p) [Some x]))) →
  wp (move_assign_at p x) s Q E.
Proof.
  intros Hb Hle Hz HQ. unfold move_assign_at.
  apply wp_bind. eapply vec_wp_read_live; [done.. |].
  eapply wp_write_cells; [done.. |]. done.
Qed.

Lemma vec_wp_PopBack s xs x cap (Q : unit → _ → Prop) E :
  vrep s (xs ++ [x]) cap →
  (∀ s', vrep s' xs cap → vframe s s' →
     buffer_ (data_ (this s')) = buffer_ (data_ (this s)) → Q tt s') →
  wp PopBack s Q E.
Proof.
  intros (Hsz & Hcap & Hle & Hfit & Hblk) HQ.
  destruct s as [[[b c] n] h]. simpl in *. subst c n.
  rewrite length_app in *. simpl in *.
  unfold PopBack.
  apply wp_bind, wp_get_this, wp_bind, wp_put_this, wp_bind, wp_get_this. simpl.
  assert (size_sub (length xs + 1) 1 = length xs) as -> by size_lia.
  apply wp_bind, vec_wp_RawMemory_plus; [simpl; lia |].
  eapply (vec_wp_destroy_n _ _ _ [x]); [solve_block_at | len_tac | vlist |].
  simpl.
  lazymatch goal with |- Q _ ?s' => apply (HQ s'); [| | done] end.
  - repeat split; simpl; [lia | done |]. block_is. vlist.
  - intros c blk Hc Hblk'. simpl in *. split; [solve_kept | done].
Qed.

Lemma vec_wp_distance_from_begin pos s (Q : nat → _ → Prop) E :
  base pos = buffer_ (data_ (this s)) →
  Q (off pos) s →
  wp (distance_from_begin pos) s Q E.
Proof.
  intros Hb HQ. unfold distance_from_begin. apply wp_bind, wp_get_this.
  rewrite decide_True by done. by apply wp_ret.
Qed.

Lemma vec_wp_Erase s xs cap p (Q : ptr → _ → Prop) E :
  vrep s xs cap →
  p < length xs →
  (∀ s', vrep s' (take p xs ++ drop (S p) xs) cap → vframe s s' →
     buffer_ (data_ (this s')) = buffer_ (data_ (this s)) →
     Q (Ptr (buffer_ (data_ (this s'))) p) s') →
  wp (Erase (Ptr (buffer_ (data_ (this s))) p)) s Q E.
Proof.
  intros Hrep Hp HQ.
  destruct (decide (xs = [])) as [-> | Hnil]; [simpl in Hp; lia |].
  destruct (exists_last Hnil) as (xs0 & l & ->).
  destruct Hrep as (Hsz & Hcap & Hle & Hfit & Hblk).
  destruct s as [[[b c] n] h]. simpl in *. subst c n.
  rewrite length_app in *. simpl in *.
  unfold Erase. apply wp_bind, wp_get_this. simpl.
  unfold cend, GetAddress, ptr_add. simpl.
  rewrite decide_False by (intros [= ?]; lia).
  apply wp_bind, vec_wp_distance_from_begin; [done |]. simpl.
  set (m := if decide (p = length xs0) then l else moved_from l).
  apply wp_bind.
  eapply (vec_wp_move_range _ _ _ (length xs0 - p) _ _ _ (drop (S p) (xs0 ++ [l]))
            (take (length xs0 - p) (drop p (xs0 ++ [l]))));
    [done | simpl; lia | simpl; lia | solve_block_at | len_tac | vlist
    | solve_block_at | len_tac | vlist | solve_block_at | len_tac |].
  simpl.
  apply wp_bind.
  eapply (vec_wp_PopBack _ (take p (xs0 ++ [l]) ++ drop (S p) (xs0 ++ [l])) m cap).
  { repeat split; simpl; [len_tac | len_tac | done |]. block_is. subst m. vlist. }
  intros s' Hrep' Hfr' Hbuf'. simpl in *.
  apply wp_bind, wp_get_this, wp_ret.
  unfold begin_, GetAddress, ptr_add. simpl.
  apply HQ; [done | | done].
  eapply vframe_trans; [| done].
  intros c blk Hc Hblk'. simpl in *. split; [solve_kept | done].
Qed.

Lemma copies_ok_app xs ys : copies_ok (xs ++ ys) = copies_ok xs && copies_ok ys.
Proof. apply forallb_app. Qed.

Lemma relocation_ok_split xs p :
  relocation_ok xs = relocation_ok (take p xs) && relocation_ok (drop p xs).
Proof.
  unfold relocation_ok. rewrite <-(take_drop p xs) at 1. rewrite copies_ok_app.
  by destruct relocate_by_move, (copies_ok (take p xs)), (copies_ok (drop p xs)).
Qed.

Lemma relocation_failed xs : relocation_ok xs = false → relocate_by_move = false.
Proof. unfold relocation_ok. by destruct relocate_by_move. Qed.

Lemma vec_wp_Emplace mk s xs cap p (Q : ptr → _ → Prop) E :
  vrep s xs cap →
  p ≤ length xs →
  (length xs = cap → allocatable (1 `max` (2 * cap))) →
  (∀ x s', mk = Some x →
     (length xs = cap → relocation_ok xs = true) →
     vrep s' (take p xs ++ x :: drop p xs)
          (if decide (cap = length xs) then grown_capacity cap else cap) →
     vframe s s' →
     Q (Ptr (buffer_ (data_ (this s'))) p) s') →
  (mk = None → E element_failure s) →
  (∀ x s', mk = Some x → length xs = cap → relocation_ok xs = false →
     this s' = this s → vrep s' xs cap → vframe s s' → E element_failure s') →
  wp (Emplace (Ptr (buffer_ (data_ (this s))) p) mk) s Q E.
Proof.
  intros Hrep Hp Hdbl HQ HE1 HE2.
  unfold Emplace. apply wp_bind, wp_get_this.
  pose proof Hrep as (Hsz & Hcap & Hle & Hfit & Hblk).
  unfold cend, GetAddress, ptr_add. simpl. rewrite Hsz.
  destruct (decide (Ptr _ p = _)) as [Hend | Hend].
  { (* at the end: EmplaceBack *)
    injection Hend as ->.
    eapply vec_wp_EmplaceBack; [done | done | |].
    - intros x s' Hmk Hok Hrep' Hfr. rewrite take_ge, drop_ge in HQ by lia. eauto.
    - intros Hcase. destruct mk as [x|]; [| by apply HE1].
      destruct Hcase as [? | [Hfull Hbad]]; [done |].
      apply (HE2 x); [done | done | done | done | done | apply vframe_refl]. }
  assert (p < length xs) as Hp' by (destruct (decide (p = length xs)); [congruence | lia]).
  clear Hend.
  destruct s as [[[b c] n] h]. simpl in *. subst c n.
  pose proof (raw_block_length xs cap Hle) as Hlen.
  apply wp_bind, wp_bind, vec_wp_distance_from_begin; [done |]. simpl.
  apply wp_bind. unfold Capacity, RawMemory_Capacity. simpl.
  destruct (decide (cap = length xs)) as [Hfull | Hfull].
  - (* the block is full *)
    specialize (Hdbl (eq_sym Hfull)). subst cap.
    destruct (grown_capacity_spec _ Hdbl) as [Hg Hgfit].
    apply wp_bind, vec_wp_RawMemory_new; [done | lia |]. intros a _ Ha. simpl in *.
    pose proof (block_at_fresh_ne _ _ _ _ Ha Hblk) as Hne.
    apply wp_bind, wp_unwind, wp_bind, vec_wp_RawMemory_plus; [simpl; lia |].
    destruct mk as [x|]; simpl.
    2:{ apply wp_throw. eapply vec_wp_RawMemory_destroy; [solve_block_at |].
        simpl. rewrite free_block_set_block, free_block_absent by done. auto. }
    eapply vec_wp_construct_at; [solve_block_at | len_tac |].
    simpl.
    apply wp_bind, wp_unwind. simpl.
    eapply (vec_wp_UnitializedN _ _ _ _ _ (take p xs));
      [solve_block_at | len_tac | vlist | simpl; congruence
      | solve_block_at | len_tac | |].
    { intros Hbad. eapply vec_wp_RawMemory_destroy; [solve_block_at |].
      simpl. rewrite !free_block_set_block, free_block_absent by done.
      apply (HE2 x); [done | done | | done | done | apply vframe_refl].
      rewrite (relocation_ok_split xs p), Hbad. done. }
    intros Hok1 ys1 Hys1 Hcopy1. simpl.
    assert (size_sub (length xs) p = length xs - p) as -> by size_lia.
    apply wp_bind, wp_unwind. simpl.
    eapply (vec_wp_UnitializedN _ _ _ _ _ (drop p xs));
      [solve_block_at | len_tac | vlist | simpl; congruence
      | solve_block_at | len_tac | |].
    { intros Hbad. eapply vec_wp_RawMemory_destroy; [solve_block_at |].
      simpl. rewrite !free_block_set_block.
      rewrite (Hcopy1 (relocation_failed _ Hbad)).
      lazymatch goal with |- E _ ?s' => apply (HE2 x s') end; simpl;
        [done | done | | done | |].
      - rewrite (relocation_ok_split xs p), Hbad. by rewrite andb_false_r.
      - repeat split; simpl; [done | done |]. block_is. vlist.
      - intros c blk Hc Hblk'. simpl in *.
        assert (c ≠ a) by congruence.
        split; [solve_kept | done]. }
    intros Hok2 ys2 Hys2 _. simpl.
    apply wp_bind. eapply (vec_wp_destroy_n _ _ _ (ys1 ++ ys2)); [solve_block_at | len_tac | vlist |].
    apply wp_bind, wp_put_this. simpl.
    eapply vec_wp_RawMemory_destroy; [solve_block_at |]. simpl.
    apply wp_bind, wp_get_this, wp_bind, wp_put_this, wp_bind, wp_get_this, wp_ret. simpl.
    unfold begin_, GetAddress, ptr_add. simpl.
    lazymatch goal with |- Q _ ?s' => apply (HQ x s'); [done | | |] end.
    + intros _. rewrite (relocation_ok_split xs p), Hok1, Hok2. done.
    + repeat split; simpl; [len_tac; size_lia | len_tac | done |].
      block_is. vlist.
    + intros c blk Hc Hblk'. simpl in *.
      assert (c ≠ a) by congruence.
      split; [solve_kept | congruence].
  - (* room left: shift the tail by one slot *)
    destruct mk as [temp|]; [| apply wp_throw; auto].
    destruct (lookup_lt_is_Some_2 xs p Hp') as [y Hy].
    pose proof (take_drop_middle xs p y Hy) as Hmid.
    assert (length (take p xs) = p) as Hp1 by (rewrite length_take; lia).
    revert Hmid Hp1. generalize (take p xs) as xs1, (drop (S p) xs) as xs2.
    intros xs1 xs2 Hmid Hp1. clear Hy. subst xs p.
    rewrite !length_app in *. simpl in *.
    destruct (decide (xs2 = [])) as [-> | Hnil].
    + simpl in *.
      apply wp_bind.
      eapply (vec_wp_uninitialized_move_n _ _ _ _ _ [y]);
        [solve_block_at | len_tac | vlist | solve_block_at | len_tac |].
      simpl.
      apply wp_bind.
      eapply (vec_wp_move_backward _ _ _ 0 _ _ _ [] []);
        [done | simpl; lia | simpl; lia | simpl; lia | solve_block_at | len_tac | vlist
        | solve_block_at | len_tac | vlist | solve_block_at | len_tac |].
      simpl.
      eapply (vec_wp_move_assign_at _ _ (moved_from y));
        [solve_block_at | len_tac | vlist |].
      simpl.
      apply wp_bind, wp_get_this, wp_bind, wp_put_this, wp_bind, wp_get_this, wp_ret. simpl.
      unfold begin_, GetAddress, ptr_add. simpl.
      lazymatch goal with |- Q _ ?s' => apply (HQ temp s'); [done | lia | |] end.
      * repeat split; simpl; [len_tac; size_lia | len_tac | done |].
        block_is. rewrite take_app_length, drop_app_length. vlist.
      * intros c blk Hc Hblk'. simpl in *. split; [solve_kept | done].
    + destruct (exists_last Hnil) as (xs3 & l & ->). clear Hnil.
      rewrite !length_app in *. simpl in *.
      apply wp_bind.
      eapply (vec_wp_uninitialized_move_n _ _ _ _ _ [l]);
        [solve_block_at | len_tac | vlist | solve_block_at | len_tac |].
      simpl.
      norm_top (raw_block (xs1 ++ y :: xs3 ++ [moved_from l; l]) cap).
      apply wp_bind.
      eapply (vec_wp_move_backward _ _ _ (S (length xs3)) _ _ _ (y :: xs3)
                (xs3 ++ [moved_from l]));
        [done | simpl; lia | simpl; lia | simpl; lia | solve_block_at | len_tac | vlist
        | solve_block_at | len_tac | vlist | solve_block_at | len_tac |].
      simpl.
      norm_top (raw_block (xs1 ++ moved_from y :: y :: xs3 ++ [l]) cap).
      eapply (vec_wp_move_assign_at _ _ (moved_from y));
        [solve_block_at | len_tac | vlist |].
      simpl.
      norm_top (raw_block (xs1 ++ temp :: y :: xs3 ++ [l]) cap).
      apply wp_bind, wp_get_this, wp_bind, wp_put_this, wp_bind, wp_get_this, wp_ret. simpl.
      unfold begin_, GetAddress, ptr_add. simpl.
      lazymatch goal with |- Q _ ?s' => apply (HQ temp s'); [done | lia | |] end.
      * repeat split; simpl; [len_tac; size_lia | len_tac | done |].
        block_is. by rewrite take_app_length, drop_app_length.
      * intros c blk Hc Hblk'. simpl in *. split; [solve_kept | done].
Qed.

End VecSpecsMore.

Section VecSpecsRest.
Context {T : Type} `{!Element T}.
Implicit Types (s : state Vec.Vector (option T)) (xs : list T).
Import Vec.

Lemma vec_wp_Reserve n s xs cap (Q : unit → _ → Prop) E :
  vrep s xs cap →
  allocatable n →
  (n ≤ cap → Q tt s) →
  (∀ s', cap < n → relocation_ok xs = true → vrep s' xs n → vframe s s' → Q tt s') →
  (cap < n → relocation_ok xs = false → E element_failure s) →
  wp (Reserve n) s Q E.
Proof.
  intros (Hsz & Hcap & Hle & Hfit & Hblk) Hn HQ1 HQ2 HE.
  destruct s as [[[b c] sz] h]. simpl in *. subst c sz.
  unfold Reserve, RawMemory_Capacity. apply wp_bind, wp_get_this. simpl.
  case_decide as Hcmp; [by apply wp_ret, HQ1 |].
  apply wp_bind, vec_wp_RawMemory_new; [done | lia |]. intros a _ Ha. simpl in *.
  pose proof (block_at_fresh_ne _ _ _ _ Ha Hblk) as Hne.
  apply wp_bind, wp_unwind. simpl.
  eapply (vec_wp_UnitializedN _ _ _ _ _ xs);
    [solve_block_at | len_tac | vlist | simpl; congruence
    | solve_block_at | len_tac | |].
  { intros Hbad. eapply vec_wp_RawMemory_destroy; [solve_block_at |].
    simpl. rewrite !free_block_set_block, free_block_absent by done.
    apply HE; [lia | done]. }
  intros Hok ys Hys _. simpl.
  apply wp_bind. eapply (vec_wp_destroy_n _ _ _ ys); [solve_block_at | len_tac | vlist |].
  apply wp_bind, wp_put_this. simpl.
  eapply vec_wp_RawMemory_destroy; [solve_block_at |]. simpl.
  lazymatch goal with |- Q _ ?s' => apply (HQ2 s'); [lia | done | |] end.
  - vrep_tac. block_is. vlist.
  - intros c blk Hc Hblk'. simpl in *.
    assert (c ≠ a) by congruence.
    split; [solve_kept | congruence].
Qed.

Lemma vec_wp_Resize n s xs cap (Q : unit → _ → Prop) E :
  vrep s xs cap →
  allocatable n →
  (∀ s', n < length xs → vrep s' (take n xs) cap → vframe s s' → Q tt s') →
  (∀ s', length xs ≤ n →
     (cap < n → relocation_ok xs = true) →
     (n = length xs ∨ default_throws = false) →
     vrep s' (xs ++ replicate (n - length xs) default_value) (cap `max` n) →
     vframe s s' → Q tt s') →
  (∀ s', length xs ≤ n →
     (cap < n ∧ relocation_ok xs = false ∧ s' = s) ∨
     (n ≠ length xs ∧ default_throws = true ∧ vrep s' xs (cap `max` n)) →
     vframe s s' → E element_failure s') →
  wp (Resize n) s Q E.
Proof.
  intros Hrep Hn HQ1 HQ2 HE.
  unfold Resize. apply wp_bind, wp_get_this.
  pose proof Hrep as (Hsz & Hcap & Hle & Hfit & Hblk).
  rewrite Hsz. apply wp_bind.
  case_decide as Hcmp.
  - (* shrink *)
    destruct s as [[[b c] sz] h]. simpl in *. subst c sz.
    eapply (vec_wp_destroy_n _ _ _ (drop n xs)); [solve_block_at | len_tac | vlist |].
    simpl. apply wp_bind, wp_get_this, wp_put_this. simpl.
    lazymatch goal with |- Q _ ?s' => apply (HQ1 s'); [lia | |] end.
    + vrep_tac. block_is. vlist.
    + intros c blk Hc Hblk'. simpl in *. split; [solve_kept | done].
  - (* grow *)
    apply wp_bind. eapply vec_wp_Reserve; [done | done | | |].
    + intros Hfits. apply wp_bind, wp_get_this. rewrite Hsz.
      destruct s as [[[b c] sz] h]. simpl in *. subst c sz.
      eapply vec_wp_uninitialized_value_construct_n; [solve_block_at | len_tac | |].
      * intros Hn0 Hd. eapply HE; [lia | | apply vframe_refl].
        right. replace (cap `max` n) with cap by lia.
        split_and!; [lia | done | done].
      * intros Hd. simpl. apply wp_bind, wp_get_this, wp_put_this. simpl.
        lazymatch goal with
        | |- Q _ ?s' => apply (HQ2 s'); [lia | lia | destruct Hd; [left; lia | by right] | |]
        end.
        -- replace (cap `max` n) with cap by lia.
           vrep_tac. block_is. vlist.
        -- intros c blk Hc Hblk'. simpl in *. split; [solve_kept | done].
    + intros s1 Hlt Hok (Hsz1 & Hcap1 & Hle1 & Hfit1 & Hblk1) Hfr1.
      apply wp_bind, wp_get_this. rewrite Hsz1.
      destruct s1 as [[[b1 c1] sz1] h1]. simpl in *. subst c1 sz1.
      eapply vec_wp_uninitialized_value_construct_n; [solve_block_at | len_tac | |].
      * intros Hn0 Hd. eapply HE; [lia | | done].
        right. replace (cap `max` n) with n by lia.
        split_and!; [lia | done |]. vrep_tac. done.
      * intros Hd. simpl. apply wp_bind, wp_get_this, wp_put_this. simpl.
        lazymatch goal with
        | |- Q _ ?s' => apply (HQ2 s'); [lia | done | destruct Hd; [left; lia | by right] | |]
        end.
        -- replace (cap `max` n) with n by lia.
           vrep_tac. block_is. vlist.
        -- eapply vframe_trans; [done |].
           intros c blk Hc Hblk'. simpl in *. split; [solve_kept | done].
    + intros Hlt Hbad. apply HE; [lia | | apply vframe_refl]. left. done.
Qed.

Lemma vec_wp_index i s xs cap (Q : ptr → _ → Prop) E :
  vrep s xs cap →
  i < length xs →
  Q (Ptr (buffer_ (data_ (this s))) i) s →
  wp (index i) s Q E.
Proof.
  intros (Hsz & Hcap & Hle & Hfit & Hblk) Hi HQ.
  unfold index, RawMemory_index. apply wp_bind, wp_get_this.
  rewrite !decide_True by lia. by apply wp_ret.
Qed.

Lemma vec_wp_get i x s xs cap (Q : T → _ → Prop) E :
  vrep s xs cap →
  xs !! i = Some x →
  Q x s →
  wp (get i) s Q E.
Proof.
  intros Hrep Hi HQ.
  pose proof (lookup_lt_Some _ _ _ Hi) as Hlt.
  pose proof Hrep as (Hsz & Hcap & Hle & Hfit & Hblk).
  unfold get. apply wp_bind. eapply vec_wp_index; [done.. |].
  apply wp_bind. eapply (vec_wp_read_live _ _ _ [x]); [done | len_tac | |].
  - destruct (list_elem_of_split_length _ _ _ Hi) as (xs1 & xs2 & -> & ->).
    rewrite length_app in *. simpl in *. clear Hi. vlist.
  - by apply wp_ret.
Qed.

Lemma raw_block_insert xs cap i x :
  i < length xs → length xs ≤ cap →
  splice (raw_block xs cap) i [Some x] = raw_block (<[i := x]> xs) cap.
Proof.
  intros Hi Hle.
  destruct (lookup_lt_is_Some_2 xs i Hi) as [y Hy].
  destruct (list_elem_of_split_length _ _ _ Hy) as (xs1 & xs2 & -> & ->).
  rewrite length_app in *. simpl in *. clear Hy.
  rewrite insert_app_r_alt, Nat.sub_diag by lia. simpl. vlist.
Qed.

Lemma vec_wp_set i x s xs cap (Q : unit → _ → Prop) E :
  vrep s xs cap →
  i < length xs →
  (∀ s', vrep s' (<[i := x]> xs) cap → vframe s s' →
     buffer_ (data_ (this s')) = buffer_ (data_ (this s)) → Q tt s') →
  wp (set i x) s Q E.
Proof.
  intros Hrep Hi HQ.
  destruct (lookup_lt_is_Some_2 xs i Hi) as [y Hy].
  pose proof Hrep as (Hsz & Hcap & Hle & Hfit & Hblk).
  unfold set. apply wp_bind. eapply vec_wp_index; [done.. |].
  eapply (vec_wp_move_assign_at _ _ y); [done | len_tac | |].
  - destruct (list_elem_of_split_length _ _ _ Hy) as (xs1 & xs2 & -> & ->).
    rewrite length_app in *. simpl in *. clear Hy. vlist.
  - destruct s as [[[b c] sz] h]. simpl in *. subst c sz.
    lazymatch goal with |- Q _ ?s' => apply (HQ s'); [| | done] end.
    + vrep_tac.
      block_is. by apply raw_block_insert.
    + intros c blk Hc Hblk'. simpl in *. split; [solve_kept | done].
Qed.

Lemma fits_le n m : n ≤ m → fits m → fits n.
Proof. unfold fits. lia. Qed.

Lemma vec_wp_Vector_sized n s (Q : Vector → _ → Prop) E :
  allocatable n →
  (∀ v s', n = 0 ∨ default_throws = false →
     this s' = this s →
     vrep (State v (mem s')) (replicate n default_value) n →
     (∀ c blk, mem s !! c = Some blk → mem s' !! c = Some blk) →
     (∀ c, buffer_ (data_ v) = Some c → mem s !! c = None) →
     Q v s') →
  (n ≠ 0 → default_throws = true → E element_failure s) →
  wp (Vector_sized n) s Q E.
Proof.
  intros Hn HQ HE. destruct s as [v0 h].
  unfold Vector_sized. apply wp_bind, vec_wp_RawMemory_new; [done | |].
  - intros ->. simpl. apply wp_bind, wp_unwind.
    eapply vec_wp_uninitialized_value_construct_n; [done | simpl; lia | done |].
    intros _. apply wp_ret. simpl. unfold set_block. simpl.
    apply HQ; simpl; [by left | done | | done | done].
    vrep_tac. done.
  - intros a Hn0 Ha. simpl in *. apply wp_bind, wp_unwind.
    eapply vec_wp_uninitialized_value_construct_n; [solve_block_at | len_tac | |].
    + intros _ Hd. eapply vec_wp_RawMemory_destroy; [solve_block_at |].
      simpl. rewrite !free_block_set_block, free_block_absent by done. auto.
    + intros Hd. apply wp_ret. simpl.
      apply HQ; simpl; [done | done | | |].
      * vrep_tac. block_is. vlist.
      * intros c blk Hc. assert (c ≠ a) by congruence. solve_kept.
      * intros c [= <-]. done.
Qed.

Lemma vec_wp_Vector_copy other s ys capo (Q : Vector → _ → Prop) E :
  vrep (State other (mem s)) ys capo →
  (∀ v s', copies_ok ys = true →
     this s' = this s →
     vrep (State v (mem s')) ys (length ys) →
     (∀ c blk, mem s !! c = Some blk → mem s' !! c = Some blk) →
     (∀ c, buffer_ (data_ v) = Some c → mem s !! c = None) →
     Q v s') →
  (copies_ok ys = false → E element_failure s) →
  wp (Vector_copy other) s Q E.
Proof.
  intros (Hsz & Hcap & Hle & Hfit & Hblk) HQ HE.
  destruct s as [v0 h]. destruct other as [[bo co] szo]. simpl in *. subst co szo.
  pose proof (allocatable_le _ _ Hle Hfit) as Hfit'.
  unfold Vector_copy. simpl. apply wp_bind, vec_wp_RawMemory_new; [done | |].
  - intros Hnil. destruct ys; [| done]. simpl. apply wp_bind, wp_unwind.
    eapply (vec_wp_uninitialized_copy_n _ _ _ _ _ []);
      [solve_block_at | len_tac | vlist | done | simpl; lia | done |].
    intros _. apply wp_ret. simpl. unfold set_block. simpl.
    apply HQ; simpl; [done | done | | done | done].
    vrep_tac. done.
  - intros a Hn0 Ha. simpl in *.
    pose proof (block_at_fresh_ne _ _ _ _ Ha Hblk) as Hne.
    apply wp_bind, wp_unwind.
    eapply (vec_wp_uninitialized_copy_n _ _ _ _ _ ys);
      [solve_block_at | len_tac | vlist | solve_block_at | len_tac | |].
    + intros Hbad. eapply vec_wp_RawMemory_destroy; [solve_block_at |].
      simpl. rewrite !free_block_set_block, free_block_absent by done. auto.
    + intros Hok. apply wp_ret. simpl.
      apply HQ; simpl; [done | done | | |].
      * vrep_tac. block_is. vlist.
      * intros c blk Hc. assert (c ≠ a) by congruence. solve_kept.
      * intros c [= <-]. done.
Qed.

Lemma vec_wp_Vector_destroy v s xs cap (Q : unit → _ → Prop) E :
  vrep (State v (mem s)) xs cap →
  (∀ s', this s' = this s →
     (∀ c blk, Some c ≠ buffer_ (data_ v) → mem s !! c = Some blk →
        mem s' !! c = Some blk) →
     Q tt s') →
  wp (Vector_destroy v) s Q E.
Proof.
  intros (Hsz & Hcap & Hle & Hfit & Hblk) HQ.
  destruct s as [v0 h]. destruct v as [[b c] sz]. simpl in *. subst c sz.
  unfold Vector_destroy. simpl. apply wp_bind.
  eapply (vec_wp_destroy_n _ _ _ xs); [solve_block_at | len_tac | vlist |].
  eapply vec_wp_RawMemory_destroy; [solve_block_at |]. simpl.
  apply HQ; simpl; [done |].
  intros c blk Hc Hblk'. solve_kept.
Qed.

Lemma copied_prefix_length xs : length (copied_prefix xs) ≤ length xs.
Proof.
  induction xs as [|x xs IH]; simpl; [done |].
  destruct (copy_throws x); simpl; lia.
Qed.

Lemma copied_prefix_all xs : copies_ok xs = true → copied_prefix xs = xs.
Proof.
  unfold copies_ok. induction xs as [|x xs IH]; simpl; [done |].
  destruct (copy_throws x); simpl; [done |]. intros Hok. by rewrite IH.
Qed.

Lemma copied_prefix_short xs :
  copies_ok xs = false → length (copied_prefix xs) < length xs.
Proof.
  unfold copies_ok. induction xs as [|x xs IH]; simpl; [done |].
  destruct (copy_throws x); simpl; [lia |]. intros Hbad. specialize (IH Hbad). lia.
Qed.

Lemma copied_prefix_full xs :
  length (copied_prefix xs) = length xs → copies_ok xs = true.
Proof.
  intros Hlen. destruct (copies_ok xs) eqn:Hok; [done |].
  apply copied_prefix_short in Hok. lia.
Qed.

Lemma vec_wp_copy_n from n to blk1 blk2 xs zs s (Q : unit → _ → Prop) E :
  block_at (mem s) (base from) = Some blk1 →
  off from + n ≤ length blk1 →
  take n (drop (off from) blk1) = Some <$> xs →
  block_at (mem s) (base to) = Some blk2 →
  off to + n ≤ length blk2 →
  take n (drop (off to) blk2) = Some <$> zs →
  (copies_ok xs = true →
   Q tt (State (this s) (set_block (mem s) (base to) (splice blk2 (off to) (Some <$> xs))))) →
  (copies_ok xs = false →
   E element_failure
     (State (this s)
        (set_block (mem s) (base to) (splice blk2 (off to) (Some <$> copied_prefix xs))))) →
  wp (copy_n from n to) s Q E.
Proof.
  intros Hb1 Hle1 Hxs Hb2 Hle2 Hzs HQ HE. unfold copy_n.
  assert (length xs = n) as Hlen.
  { eapply live_length; [done |]. rewrite length_drop. lia. }
  pose proof (copied_prefix_length xs) as Hpre.
  apply wp_bind. eapply vec_wp_read_live; [done.. |].
  apply wp_bind. eapply vec_wp_read_live; [done.. |].
  apply wp_bind. eapply wp_write_cells; [done | rewrite length_fmap; lia |].
  case_decide as Hfull.
  - apply wp_ret. rewrite <-Hlen in Hfull. apply copied_prefix_full in Hfull.
    rewrite copied_prefix_all by done. auto.
  - apply wp_throw. apply HE. destruct (copies_ok xs) eqn:Hok; [| done].
    rewrite copied_prefix_all in Hfull by done. done.
Qed.

Lemma vrep_other_kept o (h h' : gmap addr (list (option T))) ys capo :
  vrep (State o h) ys capo →
  (∀ c blk, buffer_ (data_ o) = Some c → h !! c = Some blk → h' !! c = Some blk) →
  vrep (State o h') ys capo.
Proof.
  intros (Hsz & Hcap & Hle & Hfit & Hblk) Hkept. simpl in *. vrep_tac.
  destruct (buffer_ (data_ o)) as [c|]; [| done].
  unfold block_at in *. eauto.
Qed.

Lemma vec_wp_assign_copy rhs s xs cap ys capr (Q : unit → _ → Prop) E :
  vrep s xs cap →
  vrep (State rhs (mem s)) ys capr →
  (buffer_ (data_ rhs) = None ∨ buffer_ (data_ rhs) ≠ buffer_ (data_ (this s))) →
  (∀ s', vrep s' ys (if decide (cap < length ys) then length ys else cap) →
     vrep (State rhs (mem s')) ys capr → vframe s s' →
     (length ys ≤ cap → data_ (this s') = data_ (this s)) →
     (cap < length ys →
      ∃ c, buffer_ (data_ (this s')) = Some c ∧ mem s !! c = None) →
     Q tt s') →
  (∀ s' zs, vrep s' zs cap → vrep (State rhs (mem s')) ys capr → vframe s s' →
     data_ (this s') = data_ (this s) →
     E element_failure s') →
  wp (assign_copy (Other rhs)) s Q E.
Proof.
  intros Hrep Hrhs Hsep HQ HE.
  pose proof Hrep as (Hsz & Hcap & Hle & Hfit & Hblk).
  pose proof Hrhs as (Hszr & Hcapr & Hler & Hfitr & Hblkr).
  unfold assign_copy, RawMemory_Capacity. apply wp_bind, wp_get_this.
  rewrite Hcap. simpl in Hszr. rewrite Hszr.
  destruct (decide (cap < length ys)) as [Hgrow | Hroom].
  - (* copy and swap *)
    apply wp_bind. eapply vec_wp_Vector_copy; [done | |].
    2:{ intros Hbad. apply (HE s xs); [done | done | apply vframe_refl | done]. }
    intros v s1 Hok Hthis Hrep1 Hkept Hfresh.
    apply wp_bind, wp_put_this.
    eapply (vec_wp_Vector_destroy _ _ xs cap).
    { simpl. eapply (vrep_other_kept _ (mem s)); [by destruct s |]. eauto. }
    simpl. intros s2 Hthis2 Hkept2.
    assert (∀ c, buffer_ (data_ v) = Some c → Some c ≠ buffer_ (data_ (this s))) as Hne.
    { intros c Hc Heq. specialize (Hfresh c Hc).
      rewrite <-Heq in Hblk. unfold block_at in Hblk. congruence. }
    apply HQ.
    + destruct s2 as [v2 h2]. simpl in *. subst v2.
      eapply vrep_other_kept; [done |]. intros c blk Hc Hblk'. simpl.
      apply Hkept2; [by apply Hne | done].
    + eapply vrep_other_kept; [done |]. intros c blk Hc Hblk'.
      apply Hkept2; [| by apply Hkept].
      destruct Hsep as [Hnull | Hneq]; congruence.
    + intros c blk Hc Hblk'. split; [apply Hkept2; [done | by apply Hkept] |].
      rewrite Hthis2. simpl. intros Heq. symmetry in Heq.
      specialize (Hfresh c Heq). congruence.
    + intros ?. lia.
    + intros _. rewrite Hthis2. simpl.
      destruct (buffer_ (data_ v)) as [c|] eqn:Hv; [by eauto |].
      destruct Hrep1 as (_ & _ & _ & _ & Hblk1). simpl in Hblk1. rewrite Hv in Hblk1.
      apply block_at_length_null in Hblk1.
      apply (f_equal length) in Hblk1. rewrite raw_block_length in Hblk1 by done.
      simpl in Hblk1. lia.
  - (* assign in place *)
    destruct s as [[[b c] sz] h]. destruct rhs as [[br cr] szr].
    simpl in *. subst c sz cr szr.
    assert (br ≠ b ∨ (br = None ∧ ys = [])) as Hsep'.
    { destruct Hsep as [-> | ?]; [| by left].
      destruct (decide (b = None)); [| left; congruence]. right. split; [done |].
      apply block_at_length_null in Hblkr.
      apply (f_equal length) in Hblkr. rewrite raw_block_length in Hblkr by done.
      simpl in Hblkr. destruct ys; [done | simpl in *; lia]. }
    assert (∀ h', (∀ c blk, Some c ≠ b → h !! c = Some blk → h' !! c = Some blk) →
              vrep (State {| data_ := {| buffer_ := br; capacity_ := capr |};
                             size_ := length ys |} h') ys capr) as Hrhs'.
    { intros h' Hkept. eapply vrep_other_kept; [done |]. simpl.
      intros c blk -> Hc. apply Hkept; [| done].
      destruct Hsep' as [? | [? _]]; congruence. }
    apply wp_bind.
    eapply (vec_wp_copy_n _ _ _ _ _ (take (length ys `min` length xs) ys)
              (take (length ys `min` length xs) xs));
      [solve_block_at | len_tac | vlist | solve_block_at | len_tac | vlist | |].
    2:{ (* a copy assignment threw *)
      intros Hbad. pose proof (copied_prefix_length (take (length ys `min` length xs) ys)) as Hk.
      rewrite length_take in Hk.
      revert Hk. generalize (copied_prefix (take (length ys `min` length xs) ys)) as cp.
      intros cp Hk. simpl.
      lazymatch goal with
      | |- E _ ?s' => apply (HE s' (cp ++ drop (length cp) xs))
      end.
      - vrep_tac. block_is. vlist.
      - apply Hrhs'. intros c blk Hc Hblk'. solve_kept.
      - intros c blk Hc Hblk'. simpl in *. split; [solve_kept | done].
      - done. }
    intros Hok. simpl. apply wp_bind.
    destruct (decide (length xs < length ys)) as [Hlt | Hge].
    + replace (length ys `min` length xs) with (length xs) by lia.
      assert (br ≠ b) as Hne.
      { destruct Hsep' as [? | [_ ->]]; [done | simpl in *; lia]. }
      eapply (vec_wp_uninitialized_copy_n _ _ _ _ _ (drop (length xs) ys));
        [solve_block_at | len_tac | vlist | solve_block_at | len_tac | |].
      * intros Hbad.
        lazymatch goal with
        | |- E _ ?s' => apply (HE s' (take (length xs) ys))
        end.
        -- vrep_tac. block_is. vlist.
        -- apply Hrhs'. intros c blk Hc Hblk'. solve_kept.
        -- intros c blk Hc Hblk'. simpl in *. split; [solve_kept | done].
        -- done.
      * intros Hok2. simpl. apply wp_put_this. simpl.
        lazymatch goal with |- Q _ ?s' => apply (HQ s') end.
        -- vrep_tac. block_is. vlist.
        -- apply Hrhs'. intros c blk Hc Hblk'. solve_kept.
        -- intros c blk Hc Hblk'. simpl in *. split; [solve_kept | done].
        -- done.
        -- intros ?. lia.
    + replace (length ys `min` length xs) with (length ys) by lia.
      eapply (vec_wp_destroy_n _ _ _ (drop (length ys) xs));
        [solve_block_at | len_tac | vlist |].
      simpl. apply wp_put_this. simpl.
      lazymatch goal with |- Q _ ?s' => apply (HQ s') end.
      * vrep_tac. block_is. vlist.
      * apply Hrhs'. intros c blk Hc Hblk'. solve_kept.
      * intros c blk Hc Hblk'. simpl in *. split; [solve_kept | done].
      * done.
      * intros ?. lia.
Qed.

Lemma vec_wp_assign_copy_self s (Q : unit → _ → Prop) E :
  Q tt s → wp (assign_copy Self) s Q E.
Proof. done. Qed.

Lemma vec_wp_assign_move rhs s (Q : option Vector → _ → Prop) E :
  Q (Some Vector_default) (State rhs (mem s)) →
  wp (assign_move (Other rhs)) s Q E.
Proof.
  intros HQ. unfold assign_move. apply wp_bind, wp_put_this, wp_ret.
  by destruct rhs as [[? ?] ?].
Qed.

Lemma vec_wp_Swap o s (Q : option Vector → _ → Prop) E :
  Q (Some (this s)) (State o (mem s)) →
  wp (Swap (Other o)) s Q E.
Proof.
  intros HQ. unfold Swap. by apply wp_bind, wp_get_this, wp_bind, wp_put_this, wp_ret.
Qed.


End VecSpecsRest.

(** * simple_vector.h: the algorithms over arrays *)

Section SimpleAlgorithms.
Context {T : Type} `{!Element T}.
Implicit Types (s : state Simple.SimpleVector T) (xs : list T).
Import Simple.

Lemma copies_ok_reverse xs : copies_ok (reverse xs) = copies_ok xs.
Proof.
  unfold copies_ok. induction xs as [|x xs IH]; [done |].
  rewrite reverse_cons, forallb_app, IH. simpl.
  by destruct (copy_throws x), (forallb _ xs).
Qed.

Lemma copied_suffix_length xs : length (copied_suffix xs) ≤ length xs.
Proof.
  unfold copied_suffix. rewrite length_reverse.
  etrans; [apply copied_prefix_length |]. by rewrite length_reverse.
Qed.

Lemma copied_suffix_all xs : copies_ok xs = true → copied_suffix xs = xs.
Proof.
  intros Hok. unfold copied_suffix.
  rewrite copied_prefix_all by by rewrite copies_ok_reverse.
  apply reverse_involutive.
Qed.

Lemma copied_suffix_full xs :
  length (copied_suffix xs) = length xs → copies_ok xs = true.
Proof.
  unfold copied_suffix. rewrite length_reverse, <-(length_reverse xs).
  intros Hlen. apply copied_prefix_full in Hlen. by rewrite copies_ok_reverse in Hlen.
Qed.

Lemma copied_prefix_take xs : copied_prefix xs = take (length (copied_prefix xs)) xs.
Proof.
  induction xs as [|x xs IH]; simpl; [done |].
  destruct (copy_throws x); simpl; [done |]. by rewrite <-IH.
Qed.

Lemma sv_wp_ArrayPtr_new size s (Q : option addr → _ → Prop) E :
  (size = 0 → Q None s) →
  (∀ a, size ≠ 0 → mem s !! a = None →
     Q (Some a) (State (this s) (set_block (mem s) (Some a) (replicate size array_init)))) →
  wp (ArrayPtr_new size) s Q E.
Proof.
  intros H0 H1. unfold ArrayPtr_new. case_decide as Hc.
  - apply wp_ret. auto.
  - apply wp_operator_new. auto.
Qed.

Lemma sv_wp_ArrayPtr_destroy p blk s (Q : unit → _ → Prop) E :
  block_at (mem s) p = Some blk →
  Q tt (State (this s) (free_block (mem s) p)) →
  wp (ArrayPtr_destroy p) s Q E.
Proof. intros. by eapply wp_operator_delete. Qed.

Lemma sv_wp_value_initialized s (Q : T → _ → Prop) E :
  (default_throws = false → Q default_value s) →
  (default_throws = true → E element_failure s) →
  wp value_initialized s Q E.
Proof.
  intros HQ HE. unfold value_initialized.
  destruct default_throws; [apply wp_throw | apply wp_ret]; auto.
Qed.

Lemma sv_wp_assign_copy_at p x blk s (Q : unit → _ → Prop) E :
  block_at (mem s) (base p) = Some blk →
  off p + 1 ≤ length blk →
  (copy_throws x = false →
   Q tt (State (this s) (set_block (mem s) (base p) (splice blk (off p) [x])))) →
  (copy_throws x = true → E element_failure s) →
  wp (assign_copy_at p (outside x)) s Q E.
Proof.
  intros Hb Hle HQ HE. unfold assign_copy_at.
  apply wp_bind. eapply wp_read_cells; [done.. |].
  apply wp_bind, wp_ret.
  destruct (copy_throws x); [apply wp_throw; auto |].
  eapply wp_write_cells; [done.. |]. auto.
Qed.

Lemma sv_wp_assign_move_at p x blk s (Q : unit → _ → Prop) E :
  block_at (mem s) (base p) = Some blk →
  off p + 1 ≤ length blk →
  Q tt (State (this s) (set_block (mem s) (base p) (splice blk (off p) [x]))) →
  wp (assign_move_at p (outside x)) s Q E.
Proof.
  intros Hb Hle HQ. unfold assign_move_at.
  apply wp_bind. eapply wp_read_cells; [done.. |].
  apply wp_bind, wp_ret, wp_bind, wp_ret.
  eapply wp_write_cells; [done.. |]. auto.
Qed.

Lemma set_block_splice_nil (h : gmap addr (list T)) b blk o :
  block_at h b = Some blk → o ≤ length blk →
  set_block h b (splice blk o []) = h.
Proof.
  intros Hb Ho. apply set_block_same. rewrite Hb. f_equal.
  unfold splice. simpl. rewrite Nat.add_0_r. by rewrite take_drop.
Qed.

Lemma sv_wp_fill first last value n blk s (Q : unit → _ → Prop) E :
  base first = base last → off first ≤ off last →
  n = off last - off first →
  block_at (mem s) (base first) = Some blk →
  off first + n ≤ length blk →
  (n = 0 ∨ copy_throws value = false →
   Q tt (State (this s)
     (set_block (mem s) (base first) (splice blk (off first) (replicate n value))))) →
  (n ≠ 0 → copy_throws value = true → E element_failure s) →
  wp (fill first last value) s Q E.
Proof.
  intros Hb Hle -> Hblk Hbound HQ HE. unfold fill.
  apply wp_bind, wp_range_length; [done.. |].
  apply wp_bind. eapply wp_read_cells; [done.. |].
  case_decide as Hn.
  - apply wp_ret. specialize (HQ (or_introl Hn)). rewrite Hn in HQ. simpl in HQ.
    rewrite set_block_splice_nil in HQ by (done || lia). by destruct s.
  - destruct (copy_throws value); [apply wp_throw; auto |].
    eapply wp_write_cells; [done | by rewrite length_replicate | auto].
Qed.

Lemma sv_wp_copy_list xs d_first blk s (Q : unit → _ → Prop) E :
  block_at (mem s) (base d_first) = Some blk →
  off d_first + length xs ≤ length blk →
  (copies_ok xs = true →
   Q tt (State (this s) (set_block (mem s) (base d_first) (splice blk (off d_first) xs)))) →
  (copies_ok xs = false →
   E element_failure
     (State (this s)
        (set_block (mem s) (base d_first) (splice blk (off d_first) (copied_prefix xs))))) →
  wp (copy_list xs d_first) s Q E.
Proof.
  intros Hb Hle HQ HE. unfold copy_list.
  pose proof (copied_prefix_length xs) as Hpre.
  apply wp_bind. eapply wp_read_cells; [done.. |].
  apply wp_bind. eapply wp_write_cells; [done | lia |].
  case_decide as Hfull.
  - apply wp_ret. apply copied_prefix_full in Hfull.
    rewrite copied_prefix_all by done. auto.
  - apply wp_throw. apply HE. destruct (copies_ok xs) eqn:Hok; [| done].
    rewrite copied_prefix_all in Hfull by done. done.
Qed.

Lemma sv_wp_copy_range first last d_first n blk1 blk2 xs s (Q : unit → _ → Prop) E :
  base first = base last → off first ≤ off last →
  n = off last - off first →
  block_at (mem s) (base first) = Some blk1 →
  off first + n ≤ length blk1 →
  take n (drop (off first) blk1) = xs →
  block_at (mem s) (base d_first) = Some blk2 →
  off d_first + n ≤ length blk2 →
  (copies_ok xs = true →
   Q tt (State (this s) (set_block (mem s) (base d_first) (splice blk2 (off d_first) xs)))) →
  (copies_ok xs = false →
   E element_failure
     (State (this s)
        (set_block (mem s) (base d_first) (splice blk2 (off d_first) (copied_prefix xs))))) →
  wp (copy_range first last d_first) s Q E.
Proof.
  intros Hb Hle -> Hb1 Hle1 Hxs Hb2 Hle2 HQ HE. unfold copy_range.
  apply wp_bind, wp_range_length; [done.. |].
  apply wp_bind. eapply wp_read_cells; [done.. |]. rewrite Hxs.
  eapply sv_wp_copy_list; [done | | done..].
  subst xs. rewrite length_take, length_drop. lia.
Qed.

Lemma sv_wp_copy_backward first last d_last n blk1 xs s (Q : unit → _ → Prop) E :
  base first = base last → off first ≤ off last →
  n = off last - off first →
  n ≤ off d_last →
  block_at (mem s) (base first) = Some blk1 →
  off first + n ≤ length blk1 →
  take n (drop (off first) blk1) = xs →
  base d_last = base first →
  off d_last ≤ length blk1 →
  (copies_ok xs = true →
   Q tt (State (this s) (set_block (mem s) (base first) (splice blk1 (off d_last - n) xs)))) →
  (copies_ok xs = false →
   E element_failure
     (State (this s)
        (set_block (mem s) (base first)
           (splice blk1 (off d_last - length (copied_suffix xs)) (copied_suffix xs))))) →
  wp (copy_backward first last d_last) s Q E.
Proof.
  intros Hb Hle -> Hn Hb1 Hle1 Hxs Hbd Hled HQ HE. unfold copy_backward.
  assert (length xs = off last - off first) as Hlen.
  { subst xs. rewrite length_take, length_drop. lia. }
  pose proof (copied_suffix_length xs) as Hsuf.
  apply wp_bind, wp_range_length; [done.. |].
  rewrite decide_True by done.
  apply wp_bind. eapply wp_read_cells; [done.. |]. rewrite Hxs.
  apply wp_bind. eapply wp_read_cells; [simpl; by rewrite Hbd | simpl; lia |].
  apply wp_bind. eapply wp_write_cells; [simpl; by rewrite Hbd | simpl; lia |].
  simpl. rewrite Hbd.
  case_decide as Hfull.
  - apply wp_ret. rewrite <-Hlen in Hfull. apply copied_suffix_full in Hfull.
    specialize (HQ Hfull). rewrite copied_suffix_all by done. by rewrite Hlen.
  - apply wp_throw. apply HE. destruct (copies_ok xs) eqn:Hok; [| done].
    rewrite copied_suffix_all in Hfull by done. done.
Qed.

Lemma sv_wp_move_range first last d_first n blk1 blk2 blk3 xs s (Q : unit → _ → Prop) E :
  base first = base last → off first ≤ off last →
  n = off last - off first →
  block_at (mem s) (base first) = Some blk1 →
  off first + n ≤ length blk1 →
  take n (drop (off first) blk1) = xs →
  block_at (mem s) (base d_first) = Some blk2 →
  off d_first + n ≤ length blk2 →
  block_at (set_block (mem s) (base first) (splice blk1 (off first) (moved_from <$> xs)))
           (base d_first) = Some blk3 →
  length blk3 = length blk2 →
  Q tt (State (this s)
    (set_block (set_block (mem s) (base first)
                  (splice blk1 (off first) (moved_from <$> xs)))
       (base d_first) (splice blk3 (off d_first) xs))) →
  wp (move_range first last d_first) s Q E.
Proof.
  intros Hb Hle -> Hb1 Hle1 Hxs Hb2 Hle2 Hb3 Hlen3 HQ. unfold move_range.
  assert (length xs = off last - off first) as Hlen.
  { subst xs. rewrite length_take, length_drop. lia. }
  apply wp_bind, wp_range_length; [done.. |].
  apply wp_bind. eapply wp_read_cells; [done.. |]. rewrite Hxs.
  apply wp_bind. eapply wp_read_cells; [done.. |].
  apply wp_bind. eapply wp_write_cells; [done | rewrite length_fmap; lia |].
  eapply wp_write_cells; [done | simpl; lia | done].
Qed.

Lemma sv_wp_move_backward first last d_last n blk1 blk2 blk3 xs s (Q : unit → _ → Prop) E :
  base first = base last → off first ≤ off last →
  n = off last - off first →
  n ≤ off d_last →
  block_at (mem s) (base first) = Some blk1 →
  off first + n ≤ length blk1 →
  take n (drop (off first) blk1) = xs →
  block_at (mem s) (base d_last) = Some blk2 →
  off d_last ≤ length blk2 →
  block_at (set_block (mem s) (base first) (splice blk1 (off first) (moved_from <$> xs)))
           (base d_last) = Some blk3 →
  length blk3 = length blk2 →
  Q tt (State (this s)
    (set_block (set_block (mem s) (base first)
                  (splice blk1 (off first) (moved_from <$> xs)))
       (base d_last) (splice blk3 (off d_last - n) xs))) →
  wp (move_backward first last d_last) s Q E.
Proof.
  intros Hb Hle -> Hn Hb1 Hle1 Hxs Hb2 Hle2 Hb3 Hlen3 HQ. unfold move_backward.
  assert (length xs = off last - off first) as Hlen.
  { subst xs. rewrite length_take, length_drop. lia. }
  apply wp_bind, wp_range_length; [done.. |].
  rewrite decide_True by done.
  apply wp_bind. eapply wp_read_cells; [done.. |]. rewrite Hxs.
  apply wp_bind. eapply wp_read_cells; [done | simpl; lia |].
  apply wp_bind. eapply wp_write_cells; [done | rewrite length_fmap; lia |].
  eapply wp_write_cells; [done | simpl; lia | done].
Qed.

End SimpleAlgorithms.

(** * simple_vector.h: the methods *)

(** The four parts of [srep]; the last one, the contents of the array, is
    left to the caller. *)
Ltac srep_tac :=
  unfold srep; simpl; split_and!;
  [ first [done | len_tac; size_lia]
  | first [done | len_tac; size_lia]
  | first [done | unfold fits, SIZE_MOD in *; size_lia]
  | ].

Ltac cap_tac := simpl; repeat case_decide; first [done | lia].

Section SimpleSpecs.
Context {T : Type} `{!Element T}.
Implicit Types (s : state Simple.SimpleVector T) (xs rest : list T).
Import Simple.

Lemma sframe_refl s : sframe s s.
Proof. by intros c blk Hc Hblk. Qed.

Lemma sframe_trans s1 s2 s3 : sframe s1 s2 → sframe s2 s3 → sframe s1 s3.
Proof.
  intros H12 H23 c blk Hc Hblk.
  destruct (H12 c blk Hc Hblk) as [Hblk2 Hc2]. by apply H23.
Qed.

Lemma sv_wp_ReallocateCopy n s xs rest (Q : option addr → _ → Prop) E :
  srep s xs rest →
  n ≠ 0 → length xs ≤ n →
  (∀ a, mem s !! a = None → Some a ≠ items_ (this s) →
     Q (Some a)
       (State (this s)
          (set_block
             (set_block (set_block (mem s) (Some a) (replicate n array_init))
                (items_ (this s)) ((moved_from <$> xs) ++ rest))
             (Some a) (xs ++ replicate (n - length xs) array_init)))) →
  wp (ReallocateCopy n) s Q E.
Proof.
  intros (Hsz & Hcap & Hfit & Hblk) Hn0 Hle HQ.
  destruct s as [[b sz c] h]. simpl in *. subst sz c.
  unfold ReallocateCopy. apply wp_bind, wp_get_this. simpl.
  apply wp_bind, sv_wp_ArrayPtr_new; [done |]. intros a _ Ha. simpl.
  pose proof (block_at_fresh_ne _ _ _ _ Ha Hblk) as Hne.
  apply wp_bind. unfold begin_, ptr_add. simpl.
  replace (n `min` length xs) with (length xs) by lia.
  eapply (sv_wp_move_range _ _ _ (length xs) _ _ _ xs);
    [done | simpl; lia | simpl; lia | solve_block_at | len_tac | list_ext
    | solve_block_at | len_tac | solve_block_at | len_tac |].
  simpl. apply wp_ret.
  specialize (HQ a Ha Hne).
  replace (splice (xs ++ rest) 0 (moved_from <$> xs)) with ((moved_from <$> xs) ++ rest)
    by list_ext.
  replace (splice (replicate n array_init) 0 xs)
    with (xs ++ replicate (n - length xs) array_init) by list_ext.
  done.
Qed.

Lemma sv_wp_append (assign : ptr → T → M SimpleVector T unit)
    (assign_new : option addr → ptr → T → M SimpleVector T unit) throws x s xs rest
    (Q : unit → _ → Prop) E :
  (∀ p blk s0 (Q0 : unit → _ → Prop) E0,
     block_at (mem s0) (base p) = Some blk →
     off p + 1 ≤ length blk →
     (throws = false →
      Q0 tt (State (this s0) (set_block (mem s0) (base p) (splice blk (off p) [x])))) →
     (throws = true → E0 element_failure s0) →
     wp (assign p x) s0 Q0 E0) →
  (∀ new_items p blk s0 (Q0 : unit → _ → Prop) E0,
     block_at (mem s0) (base p) = Some blk →
     off p + 1 ≤ length blk →
     (throws = false →
      Q0 tt (State (this s0) (set_block (mem s0) (base p) (splice blk (off p) [x])))) →
     (throws = true →
      wp (ArrayPtr_destroy new_items) s0 (fun _ s'' => E0 element_failure s'') nothrow) →
     wp (assign_new new_items p x) s0 Q0 E0) →
  srep s xs rest →
  (rest = [] → doubles (length xs)) →
  (∀ s' rest', throws = false →
     srep s' (xs ++ [x]) rest' →
     capacity_ (this s') =
       (if decide (rest = []) then 1 `max` (2 * length xs) else capacity_ (this s)) →
     sframe s s' → Q tt s') →
  (throws = true → rest ≠ [] → E element_failure s) →
  (∀ s', throws = true → rest = [] → this s' = this s →
     srep s' (moved_from <$> xs) [] → sframe s s' → E element_failure s') →
  wp (v <- get_this;;
      let new_size := size_add (size_ v) 1 in
      (if decide (capacity_ v < new_size) then
         let new_capacity := new_size `max` size_mul (capacity_ v) 2 in
         new_items <- ReallocateCopy new_capacity;;
         assign_new new_items (Ptr new_items (size_ v)) x;;;
         put_this (set_items v new_items new_capacity);;;
         ArrayPtr_destroy (items_ v)
       else
         assign (Ptr (items_ v) (size_ v)) x);;;
      v' <- get_this;;
      put_this (set_size v' (size_add (size_ v') 1))) s Q E.
Proof.
  intros Hassign Hassign_new Hrep Hdbl HQ HE1 HE2.
  pose proof Hrep as (Hsz & Hcap & Hfit & Hblk).
  destruct s as [[b sz c] h]. simpl in *. subst sz c.
  apply wp_bind, wp_get_this. simpl.
  apply wp_bind.
  destruct rest as [|r rest].
  - (* the array is full *)
    specialize (Hdbl eq_refl). simpl in *. rewrite Nat.add_0_r in *.
    assert (size_add (length xs) 1 = length xs + 1) as Hs1 by size_lia.
    assert ((length xs + 1) `max` size_mul (length xs) 2 = 1 `max` (2 * length xs))
      as Hnew by size_lia.
    rewrite Hs1, Hnew. rewrite decide_True by lia.
    apply wp_bind. eapply sv_wp_ReallocateCopy; [done | lia | lia |].
    simpl. intros a Ha Hne. rewrite app_nil_r.
    apply wp_bind.
    apply Hassign_new
      with (blk := xs ++ replicate (1 `max` (2 * length xs) - length xs) array_init);
      simpl; [solve_block_at | len_tac | |].
    + intros Hok.
      apply wp_bind, wp_put_this. simpl.
      eapply sv_wp_ArrayPtr_destroy; [solve_block_at |]. simpl.
      apply wp_bind, wp_get_this, wp_put_this. simpl.
      lazymatch goal with
      | |- Q _ ?s' =>
          apply (HQ s' (replicate (1 `max` (2 * length xs) - length xs - 1) array_init));
          [done | | cap_tac |]
      end.
      * srep_tac. block_is. list_ext.
      * intros c blk Hc Hblk'. simpl in *.
        assert (c ≠ a) by congruence.
        split; [solve_kept | congruence].
    + intros Hbad.
      eapply sv_wp_ArrayPtr_destroy; [solve_block_at |]. simpl.
      lazymatch goal with |- E _ ?s' => apply (HE2 s'); [done | done | done | |] end.
      * srep_tac. rewrite !free_block_set_block. rewrite app_nil_r. block_is.
      * intros c blk Hc Hblk'. simpl in *.
        assert (c ≠ a) by congruence.
        split; [solve_kept | done].
  - (* room left *)
    simpl in *.
    assert (size_add (length xs) 1 = length xs + 1) as Hs1 by size_lia.
    rewrite Hs1. rewrite decide_False by lia.
    apply Hassign with (blk := xs ++ r :: rest); simpl; [solve_block_at | len_tac | |].
    + intros Hok. apply wp_bind, wp_get_this, wp_put_this. simpl.
      lazymatch goal with
      | |- Q _ ?s' => apply (HQ s' rest); [done | | cap_tac |]
      end.
      * srep_tac. block_is. list_ext.
      * intros c blk Hc Hblk'. simpl in *. split; [solve_kept | done].
    + intros Hbad. by apply HE1.
Qed.

Lemma sv_wp_PushBack x s xs rest (Q : unit → _ → Prop) E :
  srep s xs rest →
  (rest = [] → doubles (length xs)) →
  (∀ s' rest', copy_throws x = false →
     srep s' (xs ++ [x]) rest' →
     capacity_ (this s') =
       (if decide (rest = []) then 1 `max` (2 * length xs) else capacity_ (this s)) →
     sframe s s' → Q tt s') →
  (copy_throws x = true → rest ≠ [] → E element_failure s) →
  (∀ s', copy_throws x = true → rest = [] → this s' = this s →
     srep s' (moved_from <$> xs) [] → sframe s s' → E element_failure s') →
  wp (PushBack (outside x)) s Q E.
Proof.
  intros.
  eapply (sv_wp_append (fun p y => assign_copy_at p (outside y))
            (fun n p y => unwind (assign_copy_at p (outside y)) (ArrayPtr_destroy n))
            (copy_throws x)); [| | done..].
  - intros p blk s0 Q0 E0 Hb Hle HQ0 HE0.
    eapply sv_wp_assign_copy_at; done.
  - intros n p blk s0 Q0 E0 Hb Hle HQ0 HE0.
    apply wp_unwind. eapply sv_wp_assign_copy_at; done.
Qed.

Lemma sv_wp_PushBack_move x s xs rest (Q : unit → _ → Prop) E :
  srep s xs rest →
  (rest = [] → doubles (length xs)) →
  (∀ s' rest',
     srep s' (xs ++ [x]) rest' →
     capacity_ (this s') =
       (if decide (rest = []) then 1 `max` (2 * length xs) else capacity_ (this s)) →
     sframe s s' → Q tt s') →
  wp (PushBack_move (outside x)) s Q E.
Proof.
  intros Hrep Hdbl HQ.
  eapply (sv_wp_append (fun p y => assign_move_at p (outside y))
            (fun _ p y => assign_move_at p (outside y)) false);
    [| | done | done | intros s' rest' _; apply HQ | done | done].
  - intros p blk s0 Q0 E0 Hb Hle HQ0 HE0.
    eapply sv_wp_assign_move_at; [done | done | auto].
  - intros n p blk s0 Q0 E0 Hb Hle HQ0 HE0.
    eapply sv_wp_assign_move_at; [done | done | auto].
Qed.

Lemma srep_any s blk :
  block_at (mem s) (items_ (this s)) = Some blk →
  capacity_ (this s) = length blk →
  size_ (this s) ≤ length blk →
  fits (capacity_ (this s)) →
  srep s (take (size_ (this s)) blk) (drop (size_ (this s)) blk).
Proof.
  intros Hblk Hcap Hsz Hfit. unfold srep.
  rewrite length_take, length_drop, take_drop. split_and!; [lia | lia | done | done].
Qed.

Lemma sv_wp_distance_from_begin pos s (Q : nat → _ → Prop) E :
  base pos = items_ (this s) →
  Q (off pos) s →
  wp (distance_from_begin pos) s Q E.
Proof.
  intros Hb HQ. unfold distance_from_begin. apply wp_bind, wp_get_this.
  rewrite decide_True by done. by apply wp_ret.
Qed.

Lemma sv_wp_assert_position offset s (Q : unit → _ → Prop) E :
  offset ≤ size_ (this s) →
  Q tt s →
  wp (assert_position offset) s Q E.
Proof.
  intros Hb HQ. unfold assert_position. apply wp_bind, wp_get_this.
  rewrite decide_True by done. by apply wp_ret.
Qed.

Lemma copies_ok_take_drop xs p :
  copies_ok xs = copies_ok (take p xs) && copies_ok (drop p xs).
Proof. rewrite <-(take_drop p xs) at 1. apply copies_ok_app. Qed.

Lemma sv_wp_Insert x s xs rest p (Q : ptr → _ → Prop) E :
  srep s xs rest →
  p ≤ length xs →
  (rest = [] → doubles (length xs)) →
  (∀ s' rest',
     srep s' (take p xs ++ x :: drop p xs) rest' →
     capacity_ (this s') =
       (if decide (rest = []) then 1 `max` (2 * length xs) else capacity_ (this s)) →
     sframe s s' → Q (Ptr (items_ (this s')) p) s') →
  (∀ s' xs' rest',
     copies_ok xs = false ∨ copy_throws x = true →
     this s' = this s → srep s' xs' rest' → sframe s s' →
     E element_failure s') →
  wp (Insert (Ptr (items_ (this s)) p) (outside x)) s Q E.
Proof.
  intros Hrep Hp Hdbl HQ HE.
  pose proof Hrep as (Hsz & Hcap & Hfit & Hblk).
  rewrite (copies_ok_take_drop xs p) in HE.
  destruct s as [[b sz c] h]. simpl in *. subst sz c.
  unfold Insert.
  apply wp_bind, wp_get_this. simpl.
  apply wp_bind, sv_wp_distance_from_begin; [done |]. simpl.
  apply wp_bind, sv_wp_assert_position; [done |]. simpl.
  apply wp_bind. unfold begin_, end_, ptr_add. simpl.
  destruct rest as [|r rest].
  - (* the array is full *)
    specialize (Hdbl eq_refl). simpl in *. rewrite Nat.add_0_r, app_nil_r in *.
    assert (size_add (length xs) 1 = length xs + 1) as Hs1 by size_lia.
    assert ((length xs + 1) `max` size_mul (length xs) 2 = 1 `max` (2 * length xs))
      as Hnew by size_lia.
    rewrite Hs1, Hnew. rewrite decide_False by lia.
    apply wp_bind, sv_wp_ArrayPtr_new; [lia |]. intros a _ Ha. simpl.
    pose proof (block_at_fresh_ne _ _ _ _ Ha Hblk) as Hne.
    assert (∀ (h' : gmap addr (list T)),
      free_block h' (Some a) = h →
      E element_failure (State {| items_ := b; size_ := length xs;
                                 capacity_ := length xs |} h') →
      True) as _ by done.
    apply wp_bind, wp_unwind.
    apply wp_bind.
    eapply (sv_wp_copy_range _ _ _ p _ _ (take p xs));
      [done | simpl; lia | simpl; lia | solve_block_at | len_tac | list_ext
      | solve_block_at | len_tac | |].
    2:{ intros Hbad. eapply sv_wp_ArrayPtr_destroy; [solve_block_at |]. simpl.
        rewrite !free_block_set_block, free_block_absent by done.
        eapply (HE _ xs []); [rewrite Hbad; by left | done | | apply sframe_refl].
        srep_tac. by rewrite app_nil_r. }
    intros Hok1. simpl.
    norm_top (take p xs ++ replicate (1 `max` (2 * length xs) - p) array_init).
    apply wp_bind.
    eapply (sv_wp_copy_range _ _ _ (length xs - p) _ _ (drop p xs));
      [done | simpl; lia | simpl; lia | solve_block_at | len_tac | list_ext
      | solve_block_at | len_tac | |].
    2:{ intros Hbad. eapply sv_wp_ArrayPtr_destroy; [solve_block_at |]. simpl.
        rewrite !free_block_set_block, free_block_absent by done.
        eapply (HE _ xs []); [rewrite Hbad, andb_false_r; by left | done | | apply sframe_refl].
        srep_tac. by rewrite app_nil_r. }
    intros Hok2. simpl.
    norm_top (take p xs ++ array_init :: drop p xs ++
              replicate (1 `max` (2 * length xs) - length xs - 1) array_init).
    eapply sv_wp_assign_copy_at; [solve_block_at | len_tac | |].
    2:{ intros Hbad. eapply sv_wp_ArrayPtr_destroy; [solve_block_at |]. simpl.
        rewrite !free_block_set_block, free_block_absent by done.
        eapply (HE _ xs []); [by right | done | | apply sframe_refl].
        srep_tac. by rewrite app_nil_r. }
    intros Hok3. simpl.
    norm_top (take p xs ++ x :: drop p xs ++
              replicate (1 `max` (2 * length xs) - length xs - 1) array_init).
    apply wp_bind, wp_put_this. simpl.
    apply wp_bind. eapply sv_wp_ArrayPtr_destroy; [solve_block_at |]. simpl.
    apply wp_ret, wp_bind, wp_get_this, wp_bind, wp_put_this, wp_ret. simpl.
    lazymatch goal with
    | |- Q _ ?s' =>
        apply (HQ s' (replicate (1 `max` (2 * length xs) - length xs - 1) array_init));
        [| cap_tac |]
    end.
    + srep_tac. block_is. by rewrite <-!app_assoc.
    + intros c blk Hc Hblk'. simpl in *.
      assert (c ≠ a) by congruence.
      split; [solve_kept | congruence].
  - (* room left *)
    simpl in *.
    assert (size_add (length xs) 1 = length xs + 1) as Hs1 by size_lia.
    rewrite Hs1. rewrite decide_True by lia.
    apply wp_bind.
    eapply (sv_wp_copy_backward _ _ _ (length xs - p) _ (drop p xs));
      [done | simpl; lia | simpl; lia | simpl; lia | solve_block_at | len_tac | list_ext
      | done | len_tac | |].
    2:{ intros Hbad. simpl.
        pose proof (copied_suffix_length (drop p xs)) as Hk.
        rewrite length_drop in Hk.
        lazymatch goal with
        | |- E _ (State ?v (set_block ?hh ?bb ?blk)) =>
            pose proof (srep_any (State v (set_block hh bb blk)) blk) as Hs'
        end.
        simpl in Hs'.
        eapply HE; [rewrite Hbad, andb_false_r; by left | done | apply Hs' |].
        - solve_block_at.
        - len_tac.
        - len_tac.
        - done.
        - intros c blk Hc Hblk'. simpl in *. split; [solve_kept | done]. }
    intros Hok. simpl.
    norm_top (take (p + 1) (xs ++ [r]) ++ drop p xs ++ rest).
    apply wp_bind.
    eapply sv_wp_assign_copy_at; [solve_block_at | len_tac | |].
    2:{ intros Hbad. simpl.
        lazymatch goal with
        | |- E _ (State ?v (set_block ?hh ?bb ?blk)) =>
            pose proof (srep_any (State v (set_block hh bb blk)) blk) as Hs'
        end.
        simpl in Hs'.
        eapply HE; [by right | done | apply Hs' |].
        - solve_block_at.
        - len_tac.
        - len_tac.
        - done.
        - intros c blk Hc Hblk'. simpl in *. split; [solve_kept | done]. }
    intros Hok3. simpl.
    norm_top (take p xs ++ x :: drop p xs ++ rest).
    apply wp_ret, wp_bind, wp_get_this, wp_bind, wp_put_this, wp_ret. simpl.
    lazymatch goal with
    | |- Q _ ?s' => apply (HQ s' rest); [| cap_tac |]
    end.
    + srep_tac. block_is. by rewrite <-!app_assoc.
    + intros c blk Hc Hblk'. simpl in *. split; [solve_kept | done].
Qed.

Lemma sv_wp_Insert_move x s xs rest p (Q : ptr → _ → Prop) E :
  srep s xs rest →
  p ≤ length xs →
  (rest = [] → doubles (length xs)) →
  (∀ s' rest',
     srep s' (take p xs ++ x :: drop p xs) rest' →
     capacity_ (this s') =
       (if decide (rest = []) then 1 `max` (2 * length xs) else capacity_ (this s)) →
     sframe s s' → Q (Ptr (items_ (this s')) p) s') →
  wp (Insert_move (Ptr (items_ (this s)) p) (outside x)) s Q E.
Proof.
  intros Hrep Hp Hdbl HQ.
  pose proof Hrep as (Hsz & Hcap & Hfit & Hblk).
  destruct s as [[b sz c] h]. simpl in *. subst sz c.
  unfold Insert_move.
  apply wp_bind, wp_get_this. simpl.
  apply wp_bind, sv_wp_distance_from_begin; [done |]. simpl.
  apply wp_bind, sv_wp_assert_position; [done |]. simpl.
  apply wp_bind. unfold begin_, end_, ptr_add. simpl.
  destruct rest as [|r rest].
  - (* the array is full *)
    specialize (Hdbl eq_refl). simpl in *. rewrite Nat.add_0_r, app_nil_r in *.
    assert (size_add (length xs) 1 = length xs + 1) as Hs1 by size_lia.
    assert ((length xs + 1) `max` size_mul (length xs) 2 = 1 `max` (2 * length xs))
      as Hnew by size_lia.
    rewrite Hs1, Hnew. rewrite decide_False by lia.
    apply wp_bind, sv_wp_ArrayPtr_new; [lia |]. intros a _ Ha. simpl.
    pose proof (block_at_fresh_ne _ _ _ _ Ha Hblk) as Hne.
    apply wp_bind.
    eapply (sv_wp_move_range _ _ _ p _ _ _ (take p xs));
      [done | simpl; lia | simpl; lia | solve_block_at | len_tac | list_ext
      | solve_block_at | len_tac | solve_block_at | len_tac |].
    simpl.
    norm_top (take p xs ++ replicate (1 `max` (2 * length xs) - p) array_init).
    apply wp_bind.
    eapply (sv_wp_move_range _ _ _ (length xs - p) _ _ _ (drop p xs));
      [done | simpl; lia | simpl; lia | solve_block_at | len_tac | list_ext
      | solve_block_at | len_tac | solve_block_at | len_tac |].
    simpl.
    norm_top (take p xs ++ array_init :: drop p xs ++
              replicate (1 `max` (2 * length xs) - length xs - 1) array_init).
    apply wp_bind.
    eapply sv_wp_assign_move_at; [solve_block_at | len_tac |].
    simpl.
    norm_top (take p xs ++ x :: drop p xs ++
              replicate (1 `max` (2 * length xs) - length xs - 1) array_init).
    apply wp_bind, wp_put_this. simpl.
    apply wp_bind. eapply sv_wp_ArrayPtr_destroy; [solve_block_at |]. simpl.
    apply wp_ret, wp_bind, wp_get_this, wp_bind, wp_put_this, wp_ret. simpl.
    lazymatch goal with
    | |- Q _ ?s' =>
        apply (HQ s' (replicate (1 `max` (2 * length xs) - length xs - 1) array_init));
        [| cap_tac |]
    end.
    + srep_tac. block_is. by rewrite <-!app_assoc.
    + intros c blk Hc Hblk'. simpl in *.
      assert (c ≠ a) by congruence.
      split; [solve_kept | congruence].
  - (* room left *)
    simpl in *.
    assert (size_add (length xs) 1 = length xs + 1) as Hs1 by size_lia.
    rewrite Hs1. rewrite decide_True by lia.
    apply wp_bind.
    eapply (sv_wp_move_backward _ _ _ (length xs - p) _ _ _ (drop p xs));
      [done | simpl; lia | simpl; lia | simpl; lia | solve_block_at | len_tac | list_ext
      | solve_block_at | len_tac | solve_block_at | len_tac |].
    simpl.
    apply wp_bind.
    eapply sv_wp_assign_move_at; [solve_block_at | len_tac |].
    simpl.
    norm_top (take p xs ++ x :: drop p xs ++ rest).
    apply wp_ret, wp_bind, wp_get_this, wp_bind, wp_put_this, wp_ret. simpl.
    lazymatch goal with
    | |- Q _ ?s' => apply (HQ s' rest); [| cap_tac |]
    end.
    + srep_tac. block_is. by rewrite <-!app_assoc.
    + intros c blk Hc Hblk'. simpl in *. split; [solve_kept | done].
Qed.

End SimpleSpecs.

Section SimpleSpecsRest.
Context {T : Type} `{!Element T}.
Implicit Types (s : state Simple.SimpleVector T) (xs rest : list T).
Import Simple.

Lemma sv_wp_Erase s xs rest p (Q : ptr → _ → Prop) E :
  srep s xs rest →
  p < length xs →
  (∀ s' rest',
     srep s' (take p xs ++ drop (S p) xs) rest' →
     this s' = set_size (this s) (length xs - 1) →
     sframe s s' → Q (Ptr (items_ (this s')) p) s') →
  wp (Erase (Ptr (items_ (this s)) p)) s Q E.
Proof.
  intros Hrep Hp HQ.
  pose proof Hrep as (Hsz & Hcap & Hfit & Hblk).
  destruct s as [[b sz c] h]. simpl in *. subst sz c.
  unfold Erase.
  apply wp_bind, wp_get_this. simpl.
  apply wp_bind, sv_wp_distance_from_begin; [done |]. simpl.
  apply wp_bind. unfold begin_, end_, ptr_add. simpl.
  eapply (sv_wp_move_range _ _ _ (length xs - (p + 1)) _ _ _ (drop (S p) xs));
    [done | simpl; lia | simpl; lia | solve_block_at | len_tac | list_ext
    | solve_block_at | len_tac | solve_block_at | len_tac |].
  simpl.
  apply wp_bind, wp_put_this, wp_ret. simpl.
  assert (size_sub (length xs) 1 = length xs - 1) as -> by size_lia.
  lazymatch goal with
  | |- Q _ (State ?v (set_block ?hh ?bb ?blk)) =>
      pose proof (srep_any (State v (set_block hh bb blk)) blk) as Hs'
  end.
  simpl in Hs'.
  lazymatch type of Hs' with
  | _ → _ → _ → _ → srep ?s' ?xs' ?rest' =>
      replace xs' with (take p xs ++ drop (S p) xs) in Hs' by list_ext;
      apply (HQ s' rest'); [apply Hs' | done |]
  end.
  - solve_block_at.
  - len_tac.
  - len_tac.
  - done.
  - intros c blk Hc Hblk'. simpl in *. split; [solve_kept | done].
Qed.

Lemma sv_wp_get i x s xs rest (Q : T → _ → Prop) E :
  srep s xs rest →
  xs !! i = Some x →
  Q x s →
  wp (get i) s Q E.
Proof.
  intros (Hsz & Hcap & Hfit & Hblk) Hi HQ.
  pose proof (lookup_lt_Some _ _ _ Hi) as Hlt.
  unfold get. apply wp_bind, wp_get_this.
  apply wp_bind. eapply wp_read_cells; [done | len_tac |]. simpl.
  destruct (list_elem_of_split_length _ _ _ Hi) as (xs1 & xs2 & -> & ->).
  replace (take 1 (drop (length xs1) ((xs1 ++ x :: xs2) ++ rest))) with [x]
    by (clear Hi; list_ext).
  by apply wp_ret.
Qed.

Lemma sv_wp_At_in_range i x s xs rest (Q : T → _ → Prop) E :
  srep s xs rest →
  xs !! i = Some x →
  Q x s →
  wp (At i) s Q E.
Proof.
  intros Hrep Hi HQ.
  pose proof (lookup_lt_Some _ _ _ Hi) as Hlt.
  pose proof Hrep as (Hsz & Hcap & Hfit & Hblk).
  unfold At. apply wp_bind, wp_get_this.
  rewrite decide_False by lia. by eapply sv_wp_get.
Qed.

Lemma sv_wp_At_out_of_range i s (Q : T → _ → Prop) E :
  size_ (this s) ≤ i →
  E (out_of_range "index >= size") s →
  wp (At i) s Q E.
Proof.
  intros Hi HE. unfold At. apply wp_bind, wp_get_this.
  rewrite decide_True by done. by apply wp_throw.
Qed.

Lemma sv_wp_set i x s xs rest (Q : unit → _ → Prop) E :
  srep s xs rest →
  i < length xs →
  (∀ s', srep s' (<[i := x]> xs) rest → this s' = this s → sframe s s' → Q tt s') →
  wp (set i x) s Q E.
Proof.
  intros (Hsz & Hcap & Hfit & Hblk) Hi HQ.
  destruct s as [[b sz c] h]. simpl in *. subst sz c.
  unfold set. apply wp_bind, wp_get_this. simpl.
  eapply sv_wp_assign_move_at; [done | len_tac |]. simpl.
  apply HQ; [| done |].
  - srep_tac. block_is.
    destruct (lookup_lt_is_Some_2 xs i Hi) as [y Hy].
    destruct (list_elem_of_split_length _ _ _ Hy) as (xs1 & xs2 & -> & ->).
    rewrite insert_app_r_alt, Nat.sub_diag by lia. simpl. clear Hy.
    rewrite length_app in *. simpl in *. list_ext.
  - intros c blk Hc Hblk'. simpl in *. split; [solve_kept | done].
Qed.

Lemma sv_wp_Clear s xs rest (Q : unit → _ → Prop) E :
  srep s xs rest →
  (∀ s', srep s' [] (xs ++ rest) → this s' = set_size (this s) 0 →
     mem s' = mem s → Q tt s') →
  wp Clear s Q E.
Proof.
  intros (Hsz & Hcap & Hfit & Hblk) HQ.
  unfold Clear. apply wp_bind, wp_get_this, wp_put_this.
  apply HQ; [| done | done]. srep_tac. done.
Qed.

Lemma sv_wp_PopBack_empty s (Q : unit → _ → Prop) E :
  size_ (this s) = 0 →
  Q tt s →
  wp PopBack s Q E.
Proof.
  intros Hsz HQ. unfold PopBack, IsEmpty, GetSize. apply wp_bind, wp_get_this.
  rewrite bool_decide_eq_true_2 by done. by apply wp_ret.
Qed.

Lemma sv_wp_PopBack s xs x rest (Q : unit → _ → Prop) E :
  srep s (xs ++ [x]) rest →
  (∀ s', srep s' xs (x :: rest) → this s' = set_size (this s) (length xs) →
     mem s' = mem s → Q tt s') →
  wp PopBack s Q E.
Proof.
  intros (Hsz & Hcap & Hfit & Hblk) HQ.
  rewrite length_app in *. simpl in *.
  unfold PopBack, IsEmpty, GetSize. apply wp_bind, wp_get_this.
  rewrite bool_decide_eq_false_2 by lia. apply wp_put_this.
  rewrite Hsz.
  assert (size_sub (length xs + 1) 1 = length xs) as -> by size_lia.
  apply HQ; [| done | done].
  srep_tac. by rewrite <-app_assoc in Hblk.
Qed.

Lemma sv_wp_Reserve n s xs rest (Q : unit → _ → Prop) E :
  srep s xs rest →
  fits n →
  (n ≤ length xs + length rest → Q tt s) →
  (∀ s', length xs + length rest < n →
     srep s' xs (replicate (n - length xs) array_init) → sframe s s' → Q tt s') →
  wp (Reserve n) s Q E.
Proof.
  intros Hrep Hn HQ1 HQ2.
  pose proof Hrep as (Hsz & Hcap & Hfit & Hblk).
  unfold Reserve. apply wp_bind, wp_get_this. rewrite Hcap.
  case_decide as Hcmp; [| apply wp_ret, HQ1; lia].
  apply wp_bind. eapply sv_wp_ReallocateCopy; [done | lia | lia |].
  intros a Ha Hne.
  destruct s as [[b sz c] h]. simpl in *. subst sz c.
  apply wp_bind, wp_put_this. simpl.
  eapply sv_wp_ArrayPtr_destroy; [solve_block_at |]. simpl.
  lazymatch goal with |- Q _ ?s' => apply (HQ2 s'); [lia | |] end.
  - srep_tac. block_is.
  - intros c blk Hc Hblk'. simpl in *.
    assert (c ≠ a) by congruence.
    split; [solve_kept | congruence].
Qed.

Lemma sv_wp_Resize n s xs rest (Q : unit → _ → Prop) E :
  srep s xs rest →
  fits n →
  (∀ s', n ≤ length xs →
     srep s' (take n xs) (drop n xs ++ rest) →
     this s' = set_size (this s) n → mem s' = mem s → Q tt s') →
  (∀ s', length xs < n → n ≤ length xs + length rest →
     default_throws = false → copy_throws default_value = false →
     srep s' (xs ++ replicate (n - length xs) default_value) (drop (n - length xs) rest) →
     this s' = set_size (this s) n → sframe s s' → Q tt s') →
  (∀ s' rest', length xs + length rest < n →
     default_throws = false → copy_throws default_value = false →
     srep s' (xs ++ replicate (n - length xs) default_value) rest' →
     capacity_ (this s') = n `max` size_mul (capacity_ (this s)) 2 →
     sframe s s' → Q tt s') →
  (length xs < n → n ≤ length xs + length rest →
     default_throws = true ∨ copy_throws default_value = true → E element_failure s) →
  (∀ s', length xs + length rest < n →
     default_throws = true ∨ copy_throws default_value = true →
     this s' = this s → srep s' (moved_from <$> xs) rest → sframe s s' →
     E element_failure s') →
  wp (Resize n) s Q E.
Proof.
  intros Hrep Hn HQ1 HQ2 HQ3 HE2 HE3.
  pose proof Hrep as (Hsz & Hcap & Hfit & Hblk).
  destruct s as [[b sz c] h]. simpl in *. subst sz c.
  unfold Resize. apply wp_bind, wp_get_this. simpl.
  apply wp_bind.
  destruct (decide (length xs + length rest < n)) as [Hgrow | Hroom].
  - (* a larger array is needed *)
    set (new_capacity := n `max` size_mul (length xs + length rest) 2).
    assert (n ≤ new_capacity) by (subst new_capacity; lia).
    assert (fits new_capacity) by (subst new_capacity; unfold fits in *; size_lia).
    apply wp_bind. eapply sv_wp_ReallocateCopy; [done | lia | lia |].
    simpl. intros a Ha Hne.
    assert (∀ s0 : state SimpleVector T,
      s0 = State {| items_ := b; size_ := length xs;
                    capacity_ := length xs + length rest |}
             (set_block
                (set_block (set_block h (Some a) (replicate new_capacity array_init))
                   b ((moved_from <$> xs) ++ rest))
                (Some a) (xs ++ replicate (new_capacity - length xs) array_init)) →
      default_throws = true ∨ copy_throws default_value = true →
      wp (ArrayPtr_destroy (Some a)) s0 (λ _ s'', E element_failure s'') nothrow) as Hfail.
    { intros s0 -> Hbad.
      eapply sv_wp_ArrayPtr_destroy; [solve_block_at |]. simpl.
      lazymatch goal with |- E _ ?s' => apply (HE3 s'); [done | done | done | |] end.
      - srep_tac. rewrite !free_block_set_block. block_is.
      - intros c blk Hc Hblk'. simpl in *.
        assert (c ≠ a) by congruence.
        split; [solve_kept | done]. }
    apply wp_bind, wp_unwind.
    apply wp_bind, sv_wp_value_initialized.
    + intros Hdef.
      eapply (sv_wp_fill _ _ _ (n - length xs));
        [done | simpl; lia | simpl; lia | solve_block_at | len_tac | |].
      * intros [? | Hcopy]; [lia |]. simpl.
        apply wp_bind, wp_put_this. simpl.
        eapply sv_wp_ArrayPtr_destroy; [solve_block_at |]. simpl.
        apply wp_bind, wp_get_this, wp_put_this. simpl.
        lazymatch goal with
        | |- Q _ ?s' =>
            apply (HQ3 s' (replicate (new_capacity - n) array_init));
            [done | done | done | | done |]
        end.
        -- srep_tac. block_is. list_ext.
        -- intros c blk Hc Hblk'. simpl in *.
           assert (c ≠ a) by congruence.
           split; [solve_kept | congruence].
      * intros _ Hcopy. apply Hfail; [done | by right].
    + intros Hdef. apply Hfail; [done | by left].
  - destruct (decide (length xs < n)) as [Hmore | Hless].
    + (* new elements in the spare room *)
      apply wp_bind, sv_wp_value_initialized; [| intros; apply HE2; [lia | lia | by left]].
      intros Hdef. unfold begin_, ptr_add. simpl.
      eapply (sv_wp_fill _ _ _ (n - length xs));
        [done | simpl; lia | simpl; lia | solve_block_at | len_tac | |].
      * intros [? | Hcopy]; [lia |]. simpl.
        apply wp_bind, wp_get_this, wp_put_this. simpl.
        lazymatch goal with
        | |- Q _ ?s' => apply (HQ2 s'); [lia | lia | done | done | | done |]
        end.
        -- srep_tac. block_is. list_ext.
        -- intros c blk Hc Hblk'. simpl in *. split; [solve_kept | done].
      * intros _ Hcopy. apply HE2; [lia | lia | by right].
    + apply wp_ret. apply wp_bind, wp_get_this, wp_put_this. simpl.
      apply HQ1; [lia | | done | done].
      srep_tac. rewrite Hblk. f_equal. rewrite app_assoc, take_drop. done.
Qed.

Lemma sv_wp_SimpleVector_sized n s (Q : SimpleVector → _ → Prop) E :
  fits n →
  (∀ v s', n = 0 ∨ (default_throws = false ∧ copy_throws default_value = false) →
     this s' = this s →
     srep (State v (mem s')) (replicate n default_value) [] →
     (∀ c blk, mem s !! c = Some blk → mem s' !! c = Some blk) →
     (∀ c, items_ v = Some c → mem s !! c = None) →
     Q v s') →
  (default_throws = true ∨ (n ≠ 0 ∧ copy_throws default_value = true) →
     E element_failure s) →
  wp (SimpleVector_sized n) s Q E.
Proof.
  intros Hn HQ HE. destruct s as [v0 h].
  unfold SimpleVector_sized. apply wp_bind, sv_wp_ArrayPtr_new.
  - intros ->. simpl. apply wp_bind, wp_unwind.
    apply wp_bind, sv_wp_value_initialized.
    + intros Hdef. unfold begin_, end_. simpl.
      eapply (sv_wp_fill _ _ _ 0); [done | done | done | done | simpl; lia | | done].
      intros _. simpl. apply wp_ret.
      unfold set_block. simpl.
      apply HQ; simpl; [by left | done | | done | done].
      srep_tac. done.
    + intros Hdef. eapply sv_wp_ArrayPtr_destroy; [done |].
      unfold free_block. simpl. apply HE. by left.
  - intros a Hn0 Ha. simpl in *. apply wp_bind, wp_unwind.
    assert (wp (ArrayPtr_destroy (Some a))
              (State v0 (set_block h (Some a) (replicate n array_init)))
              (λ _ s'', E element_failure s'') nothrow ↔ E element_failure (State v0 h))
      as Hfail.
    { unfold ArrayPtr_destroy, operator_delete, wp, set_block, block_at. simpl.
      rewrite lookup_insert_eq. simpl. by rewrite delete_insert_eq, delete_id. }
    apply wp_bind, sv_wp_value_initialized.
    + intros Hdef. unfold begin_, end_. simpl.
      eapply (sv_wp_fill _ _ _ n);
        [done | simpl; lia | simpl; lia | solve_block_at | len_tac | |].
      * intros [? | Hcopy]; [lia |]. simpl. apply wp_ret.
        apply HQ; simpl; [by right | done | | |].
        -- srep_tac. block_is. list_ext.
        -- intros c blk Hc. assert (c ≠ a) by congruence. solve_kept.
        -- intros c [= <-]. done.
      * intros _ Hcopy. apply Hfail, HE. by right.
    + intros Hdef. apply Hfail, HE. by left.
Qed.

Lemma set_block_twice (h : gmap addr (list T)) b blk blk' :
  set_block (set_block h b blk) b blk' = set_block h b blk'.
Proof. destruct b as [a|]; [| done]. apply insert_insert_eq. Qed.

Lemma sv_wp_ArrayPtr_discard a blk v (h : gmap addr (list T)) (Q : unit → _ → Prop) E :
  h !! a = None →
  Q tt (State v h) →
  wp (ArrayPtr_destroy (Some a)) (State v (set_block h (Some a) blk)) Q E.
Proof.
  intros Ha HQ.
  unfold ArrayPtr_destroy, operator_delete, wp, set_block, block_at. simpl.
  rewrite lookup_insert_eq. simpl. by rewrite delete_insert_eq, delete_id.
Qed.

Lemma sv_wp_SimpleVector_filled n x s (Q : SimpleVector → _ → Prop) E :
  fits n →
  (∀ v s', n = 0 ∨ copy_throws x = false →
     this s' = this s →
     srep (State v (mem s')) (replicate n x) [] →
     (∀ c blk, mem s !! c = Some blk → mem s' !! c = Some blk) →
     (∀ c, items_ v = Some c → mem s !! c = None) →
     Q v s') →
  (n ≠ 0 → copy_throws x = true → E element_failure s) →
  wp (SimpleVector_filled n x) s Q E.
Proof.
  intros Hn HQ HE. destruct s as [v0 h].
  unfold SimpleVector_filled. apply wp_bind, sv_wp_ArrayPtr_new.
  - intros ->. simpl. apply wp_bind, wp_unwind.
    unfold begin_, end_. simpl.
    eapply (sv_wp_fill _ _ _ 0); [done | done | done | done | simpl; lia | | done].
    intros _. simpl. apply wp_ret.
    unfold set_block. simpl.
    apply HQ; simpl; [by left | done | | done | done].
    srep_tac. done.
  - intros a Hn0 Ha. simpl in *. apply wp_bind, wp_unwind.
    unfold begin_, end_. simpl.
    eapply (sv_wp_fill _ _ _ n);
      [done | simpl; lia | simpl; lia | solve_block_at | len_tac | |].
    + intros [? | Hcopy]; [lia |]. simpl. apply wp_ret.
      apply HQ; simpl; [by right | done | | |].
      * srep_tac. block_is. list_ext.
      * intros c blk Hc. assert (c ≠ a) by congruence. solve_kept.
      * intros c [= <-]. done.
    + intros _ Hcopy. apply sv_wp_ArrayPtr_discard; auto.
Qed.

Lemma sv_wp_SimpleVector_of_list init s (Q : SimpleVector → _ → Prop) E :
  fits (length init) →
  (∀ v s', copies_ok init = true →
     this s' = this s →
     srep (State v (mem s')) init [] →
     (∀ c blk, mem s !! c = Some blk → mem s' !! c = Some blk) →
     (∀ c, items_ v = Some c → mem s !! c = None) →
     Q v s') →
  (copies_ok init = false → E element_failure s) →
  wp (SimpleVector_of_list init) s Q E.
Proof.
  intros Hn HQ HE. destruct s as [v0 h].
  unfold SimpleVector_of_list. apply wp_bind, sv_wp_ArrayPtr_new.
  - intros Hnil. destruct init; [| done]. simpl. apply wp_bind, wp_unwind.
    eapply sv_wp_copy_list; [done | simpl; lia | | done].
    intros _. simpl. apply wp_ret.
    unfold set_block. simpl.
    apply HQ; simpl; [done | done | | done | done].
    srep_tac. done.
  - intros a Hn0 Ha. simpl in *. apply wp_bind, wp_unwind.
    eapply sv_wp_copy_list; [solve_block_at | len_tac | |].
    + intros Hok. simpl. apply wp_ret.
      apply HQ; simpl; [done | done | | |].
      * srep_tac. block_is. list_ext.
      * intros c blk Hc. assert (c ≠ a) by congruence. solve_kept.
      * intros c [= <-]. done.
    + intros Hbad. simpl. rewrite set_block_twice.
      apply sv_wp_ArrayPtr_discard; auto.
Qed.

Lemma sv_wp_SimpleVector_reserved n s (Q : SimpleVector → _ → Prop) E :
  fits n →
  (∀ v s', this s' = this s →
     srep (State v (mem s')) [] (replicate n array_init) →
     (∀ c blk, mem s !! c = Some blk → mem s' !! c = Some blk) →
     (∀ c, items_ v = Some c → mem s !! c = None) →
     Q v s') →
  wp (SimpleVector_reserved n) s Q E.
Proof.
  intros Hn HQ. destruct s as [v0 h].
  unfold SimpleVector_reserved. apply wp_bind, sv_wp_ArrayPtr_new.
  - intros ->. simpl. apply wp_ret.
    apply HQ; simpl; [done | | done | done].
    srep_tac. done.
  - intros a Hn0 Ha. simpl in *. apply wp_ret.
    apply HQ; simpl; [done | | |].
    + srep_tac. block_is.
    + intros c blk Hc. assert (c ≠ a) by congruence. solve_kept.
    + intros c [= <-]. done.
Qed.

Lemma sv_wp_SimpleVector_copy other s ys resto (Q : SimpleVector → _ → Prop) E :
  srep (State other (mem s)) ys resto →
  (∀ v s', copies_ok ys = true →
     this s' = this s →
     srep (State v (mem s')) ys (replicate (length resto) array_init) →
     (∀ c blk, mem s !! c = Some blk → mem s' !! c = Some blk) →
     (∀ c, items_ v = Some c → mem s !! c = None) →
     Q v s') →
  (copies_ok ys = false → E element_failure s) →
  wp (SimpleVector_copy other) s Q E.
Proof.
  intros (Hsz & Hcap & Hfit & Hblk) HQ HE.
  destruct s as [v0 h]. destruct other as [bo szo co]. simpl in *. subst szo co.
  unfold SimpleVector_copy, GetCapacity, GetSize, begin_, end_. simpl.
  apply wp_bind, sv_wp_ArrayPtr_new.
  - intros Hnil. destruct ys; [| simpl in *; lia]. destruct resto; [| simpl in *; lia].
    simpl. apply wp_bind, wp_unwind.
    eapply (sv_wp_copy_range _ _ _ 0 _ _ []);
      [done | done | done | solve_block_at | simpl; lia | done | done | simpl; lia
      | | done].
    intros _. simpl. apply wp_ret.
    unfold set_block. simpl.
    apply HQ; simpl; [done | done | | done | done].
    srep_tac. done.
  - intros a Hn0 Ha. simpl in *.
    pose proof (block_at_fresh_ne _ _ _ _ Ha Hblk) as Hne.
    apply wp_bind, wp_unwind.
    eapply (sv_wp_copy_range _ _ _ (length ys) _ _ ys);
      [done | simpl; lia | simpl; lia | solve_block_at | len_tac | list_ext
      | solve_block_at | len_tac | |].
    + intros Hok. simpl. apply wp_ret.
      apply HQ; simpl; [done | done | | |].
      * srep_tac. block_is. list_ext.
      * intros c blk Hc. assert (c ≠ a) by congruence. solve_kept.
      * intros c [= <-]. done.
    + intros Hbad. simpl. rewrite set_block_twice.
      apply sv_wp_ArrayPtr_discard; auto.
Qed.

Lemma sv_wp_SimpleVector_destroy v s xs rest (Q : unit → _ → Prop) E :
  srep (State v (mem s)) xs rest →
  (∀ s', this s' = this s →
     (∀ c blk, Some c ≠ items_ v → mem s !! c = Some blk → mem s' !! c = Some blk) →
     Q tt s') →
  wp (SimpleVector_destroy v) s Q E.
Proof.
  intros (Hsz & Hcap & Hfit & Hblk) HQ.
  destruct s as [v0 h]. simpl in *.
  unfold SimpleVector_destroy.
  eapply sv_wp_ArrayPtr_destroy; [done |]. simpl.
  apply HQ; simpl; [done |].
  intros c blk Hc Hblk'. solve_kept.
Qed.

Lemma srep_other_kept o (h h' : gmap addr (list T)) ys rest :
  srep (State o h) ys rest →
  (∀ c blk, items_ o = Some c → h !! c = Some blk → h' !! c = Some blk) →
  srep (State o h') ys rest.
Proof.
  intros (Hsz & Hcap & Hfit & Hblk) Hkept. simpl in *. srep_tac.
  destruct (items_ o) as [c|]; [| done].
  unfold block_at in *. eauto.
Qed.

Lemma sv_wp_assign_copy rhs s xs rest ys restr (Q : unit → _ → Prop) E :
  srep s xs rest →
  srep (State rhs (mem s)) ys restr →
  (items_ rhs = None ∨ items_ rhs ≠ items_ (this s)) →
  (∀ s', copies_ok ys = true →
     srep s' ys (replicate (length restr) array_init) →
     srep (State rhs (mem s')) ys restr → sframe s s' → Q tt s') →
  (copies_ok ys = false → E element_failure s) →
  wp (assign_copy (Other rhs)) s Q E.
Proof.
  intros Hrep Hrhs Hsep HQ HE.
  pose proof Hrep as (Hsz & Hcap & Hfit & Hblk).
  unfold assign_copy. apply wp_bind, wp_get_this.
  apply wp_bind. eapply sv_wp_SimpleVector_copy; [done | | done].
  intros v s1 Hok Hthis Hrep1 Hkept Hfresh.
  apply wp_bind, wp_put_this.
  eapply (sv_wp_SimpleVector_destroy _ _ xs rest).
  { simpl. eapply (srep_other_kept _ (mem s)); [by destruct s |]. eauto. }
  simpl. intros s2 Hthis2 Hkept2.
  assert (∀ c, items_ v = Some c → Some c ≠ items_ (this s)) as Hne.
  { intros c Hc Heq. specialize (Hfresh c Hc).
    rewrite <-Heq in Hblk. unfold block_at in Hblk. congruence. }
  apply HQ; [done | | |].
  - destruct s2 as [v2 h2]. simpl in *. subst v2.
    eapply srep_other_kept; [done |]. intros c blk Hc Hblk'. simpl.
    apply Hkept2; [by apply Hne | done].
  - eapply srep_other_kept; [done |]. intros c blk Hc Hblk'.
    apply Hkept2; [| by apply Hkept].
    destruct Hsep as [Hnull | Hneq]; congruence.
  - intros c blk Hc Hblk'. split; [apply Hkept2; [done | by apply Hkept] |].
    rewrite Hthis2. simpl. intros Heq. symmetry in Heq.
    specialize (Hfresh c Heq). congruence.
Qed.

Lemma sv_wp_assign_copy_self s (Q : unit → _ → Prop) E :
  Q tt s → wp (assign_copy Self) s Q E.
Proof. done. Qed.

Lemma sv_wp_assign_move rhs s xs rest (Q : option SimpleVector → _ → Prop) E :
  srep s xs rest →
  (∀ s', this s' = rhs →
     (∀ c blk, Some c ≠ items_ (this s) → mem s !! c = Some blk →
        mem s' !! c = Some blk) →
     Q (Some SimpleVector_default) s') →
  wp (assign_move (Other rhs)) s Q E.
Proof.
  intros Hrep HQ.
  unfold assign_move, SimpleVector_move. apply wp_bind, wp_get_this.
  apply wp_bind, wp_put_this. apply wp_bind.
  eapply (sv_wp_SimpleVector_destroy _ _ xs rest); [by destruct s |].
  simpl. intros s' Hthis Hkept. apply wp_ret. by apply HQ.
Qed.

Lemma sv_wp_swap o s (Q : option SimpleVector → _ → Prop) E :
  Q (Some (this s)) (State o (mem s)) →
  wp (swap (Other o)) s Q E.
Proof.
  intros HQ. unfold swap. by apply wp_bind, wp_get_this, wp_bind, wp_put_this, wp_ret.
Qed.

End SimpleSpecsRest.

Section Clients.
Context {T : Type} `{!Element T}.

Lemma vec_get_ok i x (s : state Vec.Vector (option T)) xs cap :
  vrep s xs cap → xs !! i = Some x → Vec.get i s = Ok x s.
Proof.
  intros Hrep Hi.
  assert (wp (Vec.get i) s (λ r s', r = x ∧ s' = s) nothrow) as Hwp
    by (by eapply vec_wp_get).
  apply wp_returns in Hwp as (a & s' & -> & -> & ->). done.
Qed.

Lemma sv_get_ok i x (s : state Simple.SimpleVector T) xs rest :
  srep s xs rest → xs !! i = Some x → Simple.get i s = Ok x s.
Proof.
  intros Hrep Hi.
  assert (wp (Simple.get i) s (λ r s', r = x ∧ s' = s) nothrow) as Hwp
    by (by eapply sv_wp_get).
  apply wp_returns in Hwp as (a & s' & -> & -> & ->). done.
Qed.



Lemma vec_wp_do_append a (s : state Vec.Vector (option T)) xs cap (Q : unit → _ → Prop) E :
  vrep s xs cap →
  (length xs = cap → allocatable (1 `max` (2 * cap))) →
  (∀ s', Vec.append_ok a = true →
     (length xs = cap → relocation_ok xs = true) →
     vrep s' (xs ++ [Vec.appended a])
       (if decide (cap = length xs) then 1 `max` (2 * cap) else cap) →
     vframe s s' → Q tt s') →
  (Vec.append_ok a = false ∨ (length xs = cap ∧ relocation_ok xs = false) →
     E element_failure s) →
  wp (Vec.do_append a) s Q E.
Proof.
  intros Hrep Hdbl HQ HE.
  assert (∀ mk, mk = (if Vec.append_ok a then Some (Vec.appended a) else None) →
            wp (Vec.EmplaceBack mk;;; ret tt) s Q E) as Hgen.
  { intros mk Hmk. apply wp_bind. eapply vec_wp_EmplaceBack; [done | done | |].
    - intros x s' -> Hrel Hrep' Hfr. apply wp_ret.
      destruct (Vec.append_ok a) eqn:Hok; [| done].
      injection Hmk as ->.
      apply HQ; [done | done | | done].
      case_decide as Hfull; [| done].
      subst cap. by destruct (grown_capacity_spec _ (Hdbl eq_refl)) as [<- _].
    - intros [-> | Hrel]; apply HE; [| by right].
      left. by destruct (Vec.append_ok a). }
  destruct a as [x | x | x]; simpl in *.
  - apply Hgen. unfold Vec.copy_construct. by destruct (copy_throws x).
  - by apply Hgen.
  - by apply Hgen.
Qed.


Lemma sv_wp_do_append a (s : state Simple.SimpleVector T) xs rest (Q : unit → _ → Prop) E :
  srep s xs rest →
  (rest = [] → doubles (length xs)) →
  (∀ s' rest', Simple.append_ok a = true →
     srep s' (xs ++ [Simple.appended a]) rest' →
     Simple.capacity_ (this s') =
       (if decide (rest = []) then 1 `max` (2 * length xs) else Simple.capacity_ (this s)) →
     sframe s s' → Q tt s') →
  (Simple.append_ok a = false → rest ≠ [] → E element_failure s) →
  (∀ s', Simple.append_ok a = false → rest = [] → this s' = this s →
     srep s' (moved_from <$> xs) [] → sframe s s' → E element_failure s') →
  wp (Simple.do_append a) s Q E.
Proof.
  intros Hrep Hdbl HQ HE1 HE2.
  destruct a as [x | x]; simpl in *.
  - eapply sv_wp_PushBack; [done | done | | |].
    + intros s' rest' Hok. apply HQ. by rewrite Hok.
    + intros Hbad. apply HE1. by rewrite Hbad.
    + intros s' Hbad. apply HE2. by rewrite Hbad.
  - eapply sv_wp_PushBack_move; [done | done |]. intros s' rest'. by apply HQ.
Qed.


Lemma vrep_default (h : gmap addr (list (option T))) :
  vrep (State Vec.Vector_default h) [] 0.
Proof. unfold vrep. simpl. by split_and!. Qed.

Lemma srep_default (h : gmap addr (list T)) :
  srep (State Simple.SimpleVector_default h) [] [].
Proof. unfold srep. simpl. by split_and!. Qed.

End Clients.

Section Outcomes.
Context {Obj Cell : Type}.

Lemma wp_throws {A} (c : M Obj Cell A) s (E : exn → state Obj Cell → Prop) :
  wp c s (fun _ _ => False) E ↔ ∃ e s', c s = Throw e s' ∧ E e s'.
Proof.
  unfold wp. split.
  - destruct (c s); [done | eauto | done].
  - intros (e & s' & -> & HE). done.
Qed.

Lemma wp_throws_same {A} (c : M Obj Cell A) s e :
  wp c s (fun _ _ => False) (fun e' s' => e' = e ∧ s' = s) ↔ c s = Throw e s.
Proof.
  rewrite wp_throws. split.
  - by intros (e' & s' & -> & -> & ->).
  - eauto.
Qed.

Lemma wp_returns_same {A} (c : M Obj Cell A) s a :
  wp c s (fun a' s' => a' = a ∧ s' = s) nothrow ↔ c s = Ok a s.
Proof.
  rewrite wp_returns. split.
  - by intros (a' & s' & -> & -> & ->).
  - eauto.
Qed.

End Outcomes.

Section Derefs.
Context {T : Type} `{!Element T}.

Lemma vec_deref_ok i x (s : state Vec.Vector (option T)) xs cap :
  vrep s xs cap → xs !! i = Some x →
  Vec.deref (ptr_add (Vec.begin_ (this s)) i) s = Ok x s.
Proof.
  intros (Hsz & Hcap & Hle & Hfit & Hblk) Hi.
  pose proof (lookup_lt_Some _ _ _ Hi) as Hlt.
  apply wp_returns_same. unfold Vec.deref.
  apply wp_bind.
  eapply (vec_wp_read_live _ _ _ [x]); [done | simpl; len_tac | |].
  - simpl. destruct (list_elem_of_split_length _ _ _ Hi) as (xs1 & xs2 & -> & ->).
    rewrite length_app in *. simpl in *. clear Hi. vlist.
  - by apply wp_ret.
Qed.

Lemma sv_deref_ok i x (s : state Simple.SimpleVector T) xs rest :
  srep s xs rest → xs !! i = Some x →
  Simple.deref (ptr_add (Simple.begin_ (this s)) i) s = Ok x s.
Proof.
  intros (Hsz & Hcap & Hfit & Hblk) Hi.
  pose proof (lookup_lt_Some _ _ _ Hi) as Hlt.
  apply wp_returns_same. unfold Simple.deref.
  apply wp_bind. eapply wp_read_cells; [done | simpl; len_tac |]. simpl.
  destruct (list_elem_of_split_length _ _ _ Hi) as (xs1 & xs2 & -> & ->).
  replace (take 1 (drop (length xs1) ((xs1 ++ x :: xs2) ++ rest))) with [x]
    by (clear Hi; list_ext).
  by apply wp_ret.
Qed.

End Derefs.

Section Calls.
Context {T : Type} `{!Element T}.

Lemma vec_wp_run_call c (s : state Vec.Vector (option T)) xs cap :
  vrep s xs cap →
  Vec.call_pre c (this s) →
  wp (Vec.run_call c) s
     (λ _ s', vec_valid s' ∧ vframe s s')
     (λ e s', e = element_failure ∧ vec_valid s' ∧ vframe s s').
Proof.
  intros Hrep Hpre.
  pose proof Hrep as (Hsz & Hcap & Hle & Hfit & Hblk).
  assert (vec_valid s ∧ vframe s s) as Hsame
    by (split; [by exists xs, cap | apply vframe_refl]).
  assert (Vec.can_grow (this s) → length xs = cap → allocatable (1 `max` (2 * cap))) as Hgrow.
  { unfold Vec.can_grow, Vec.Capacity, Vec.RawMemory_Capacity.
    rewrite Hsz, Hcap. auto. }
  assert (∀ p mk, p ≤ length xs → Vec.can_grow (this s) →
            wp (v <- get_this;; Vec.Emplace (ptr_add (Vec.cbegin v) p) mk;;; ret tt) s
              (λ _ s', vec_valid s' ∧ vframe s s')
              (λ e s', e = element_failure ∧ vec_valid s' ∧ vframe s s')) as Hemplace.
  { intros p mk Hp Hg. apply wp_bind, wp_get_this, wp_bind.
    unfold Vec.cbegin, Vec.GetAddress, ptr_add. simpl.
    eapply vec_wp_Emplace; [done | done | by auto | | done |].
    - intros x s' _ _ Hrep' Hfr. apply wp_ret. split; [by eexists _, _ | done].
    - intros x s' _ _ _ _ Hrep' Hfr. split_and!; [done | by eexists _, _ | done]. }
  assert (∀ mk, Vec.can_grow (this s) →
            wp (Vec.EmplaceBack mk;;; ret tt) s
              (λ _ s', vec_valid s' ∧ vframe s s')
              (λ e s', e = element_failure ∧ vec_valid s' ∧ vframe s s')) as Hback.
  { intros mk Hg. apply wp_bind.
    eapply vec_wp_EmplaceBack; [done | by auto | | done].
    intros x s' _ _ Hrep' Hfr. apply wp_ret. split; [by eexists _, _ | done]. }
  destruct c as [n | n | a | | | p x | p x | p mk | p | i x]; simpl in *.
  - eapply vec_wp_Reserve; [done | done | done | | done].
    intros s' _ _ Hrep' Hfr. split; [by eexists _, _ | done].
  - eapply vec_wp_Resize; [done | done | | |].
    + intros s' _ Hrep' Hfr. split; [by eexists _, _ | done].
    + intros s' _ _ _ Hrep' Hfr. split; [by eexists _, _ | done].
    + intros s' _ [(_ & _ & ->) | (_ & _ & Hrep')] Hfr; [done |].
      split_and!; [done | by eexists _, _ | done].
  - destruct a as [x | x | x]; simpl; by apply Hback.
  - by apply Hback.
  - rewrite Hsz in Hpre.
    destruct (exists_last (l := xs)) as (xs0 & l & ->); [by intros -> |].
    eapply vec_wp_PopBack; [done |].
    intros s' Hrep' Hfr _. split; [by eexists _, _ | done].
  - destruct Hpre as [Hp Hg]. rewrite Hsz in Hp. by apply Hemplace.
  - destruct Hpre as [Hp Hg]. rewrite Hsz in Hp. by apply Hemplace.
  - destruct Hpre as [Hp Hg]. rewrite Hsz in Hp. by apply Hemplace.
  - rewrite Hsz in Hpre. apply wp_bind, wp_get_this, wp_bind.
    unfold Vec.cbegin, Vec.GetAddress, ptr_add. simpl.
    eapply vec_wp_Erase; [done | done |].
    intros s' Hrep' Hfr _. apply wp_ret. split; [by eexists _, _ | done].
  - rewrite Hsz in Hpre.
    eapply vec_wp_set; [done | done |].
    intros s' Hrep' Hfr _. split; [by eexists _, _ | done].
Qed.

Lemma sframe_same_items (s s' : state Simple.SimpleVector T) :
  Simple.items_ (this s') = Simple.items_ (this s) → mem s' = mem s → sframe s s'.
Proof. intros Hi Hm c blk Hc Hblk. rewrite Hi, Hm. done. Qed.

Lemma sv_wp_run_call c (s : state Simple.SimpleVector T) xs rest :
  srep s xs rest →
  Simple.call_pre c (this s) →
  wp (Simple.run_call c) s
     (λ _ s', simple_valid s' ∧ sframe s s')
     (λ e s', e = element_failure ∧ simple_valid s' ∧ sframe s s').
Proof.
  intros Hrep Hpre.
  pose proof Hrep as (Hsz & Hcap & Hfit & Hblk).
  assert (simple_valid s ∧ sframe s s) as Hsame
    by (split; [by exists xs, rest | apply sframe_refl]).
  assert (Simple.can_grow (this s) → rest = [] → doubles (length xs)) as Hgrow.
  { unfold Simple.can_grow. rewrite Hsz, Hcap. intros Hg ->. simpl in *.
    rewrite Nat.add_0_r in Hg. auto. }
  destruct c as [n | n | | a | | p x | p x | p | i x]; simpl in *.
  - eapply sv_wp_Reserve; [done | done | done |].
    intros s' _ Hrep' Hfr. split; [by eexists _, _ | done].
  - eapply sv_wp_Resize; [done | done | | | | done |].
    + intros s' _ Hrep' Hthis Hmem. split; [by eexists _, _ |].
      apply sframe_same_items; [by rewrite Hthis | done].
    + intros s' _ _ _ _ Hrep' _ Hfr. split; [by eexists _, _ | done].
    + intros s' rest' _ _ _ Hrep' _ Hfr. split; [by eexists _, _ | done].
    + intros s' _ _ _ Hrep' Hfr. split_and!; [done | by eexists _, _ | done].
  - eapply sv_wp_Clear; [done |].
    intros s' Hrep' Hthis Hmem. split; [by eexists _, _ |].
    apply sframe_same_items; [by rewrite Hthis | done].
  - eapply sv_wp_do_append; [done | by auto | | done |].
    + intros s' rest' _ Hrep' _ Hfr. split; [by eexists _, _ | done].
    + intros s' _ _ _ Hrep' Hfr. split_and!; [done | by eexists _, _ | done].
  - destruct (decide (xs = [])) as [-> | Hne].
    + by apply sv_wp_PopBack_empty.
    + destruct (exists_last Hne) as (xs0 & l & ->).
      eapply sv_wp_PopBack; [done |].
      intros s' Hrep' Hthis Hmem. split; [by eexists _, _ |].
      apply sframe_same_items; [by rewrite Hthis | done].
  - destruct Hpre as [Hp Hg]. rewrite Hsz in Hp.
    apply wp_bind, wp_get_this, wp_bind.
    unfold Simple.cbegin, ptr_add. simpl.
    eapply sv_wp_Insert; [done | done | by auto | |].
    + intros s' rest' Hrep' _ Hfr. apply wp_ret. split; [by eexists _, _ | done].
    + intros s' xs' rest' _ _ Hrep' Hfr. split_and!; [done | by eexists _, _ | done].
  - destruct Hpre as [Hp Hg]. rewrite Hsz in Hp.
    apply wp_bind, wp_get_this, wp_bind.
    unfold Simple.cbegin, ptr_add. simpl.
    eapply sv_wp_Insert_move; [done | done | by auto |].
    intros s' rest' Hrep' _ Hfr. apply wp_ret. split; [by eexists _, _ | done].
  - rewrite Hsz in Hpre. apply wp_bind, wp_get_this, wp_bind.
    unfold Simple.cbegin, ptr_add. simpl.
    eapply sv_wp_Erase; [done | done |].
    intros s' rest' Hrep' _ Hfr. apply wp_ret. split; [by eexists _, _ | done].
  - rewrite Hsz in Hpre.
    eapply sv_wp_set; [done | done |].
    intros s' Hrep' _ Hfr. split; [by eexists _, _ | done].
Qed.

(** Another vector, with storage of its own, is not touched by what leaves
    the frame alone. *)
Lemma vrep_frame (s s' : state Vec.Vector (option T)) o ys capo :
  vframe s s' →
  vrep (State o (mem s)) ys capo →
  Vec.buffer_ (Vec.data_ o) = None ∨
    Vec.buffer_ (Vec.data_ o) ≠ Vec.buffer_ (Vec.data_ (this s)) →
  vrep (State o (mem s')) ys capo ∧
  (Vec.buffer_ (Vec.data_ o) = None ∨
     Vec.buffer_ (Vec.data_ o) ≠ Vec.buffer_ (Vec.data_ (this s'))).
Proof.
  intros Hfr Hrep Hsep.
  destruct (Vec.buffer_ (Vec.data_ o)) as [c|] eqn:Hb.
  2:{ split; [| by left]. eapply vrep_other_kept; [done |]. simpl. congruence. }
  assert (Some c ≠ Vec.buffer_ (Vec.data_ (this s))) as Hne
    by (destruct Hsep; congruence).
  pose proof Hrep as (_ & _ & _ & _ & Hblk). simpl in Hblk. rewrite Hb in Hblk.
  unfold block_at in Hblk.
  destruct (Hfr c _ Hne Hblk) as [Hkept Hne'].
  split; [| by right].
  eapply vrep_other_kept; [done |]. simpl. intros c' blk' Hc' Hblk'.
  rewrite Hb in Hc'. injection Hc' as <-. congruence.
Qed.

Lemma srep_frame (s s' : state Simple.SimpleVector T) o ys resto :
  sframe s s' →
  srep (State o (mem s)) ys resto →
  Simple.items_ o = None ∨ Simple.items_ o ≠ Simple.items_ (this s) →
  srep (State o (mem s')) ys resto ∧
  (Simple.items_ o = None ∨ Simple.items_ o ≠ Simple.items_ (this s')).
Proof.
  intros Hfr Hrep Hsep.
  destruct (Simple.items_ o) as [c|] eqn:Hb.
  2:{ split; [| by left]. eapply srep_other_kept; [done |]. simpl. congruence. }
  assert (Some c ≠ Simple.items_ (this s)) as Hne by (destruct Hsep; congruence).
  pose proof Hrep as (_ & _ & _ & Hblk). simpl in Hblk. rewrite Hb in Hblk.
  unfold block_at in Hblk.
  destruct (Hfr c _ Hne Hblk) as [Hkept Hne'].
  split; [| by right].
  eapply srep_other_kept; [done |]. simpl. intros c' blk' Hc' Hblk'.
  rewrite Hb in Hc'. injection Hc' as <-. congruence.
Qed.

End Calls.

Section Worlds.
Context {Obj Cell : Type} (owned : Obj → option addr)
        (valid : Obj → gmap addr (list Cell) → Prop).
Hypothesis valid_kept : ∀ o h h',
  valid o h →
  (∀ c blk, owned o = Some c → h !! c = Some blk → h' !! c = Some blk) →
  valid o h'.
Hypothesis valid_allocated : ∀ o h c,
  valid o h → owned o = Some c → is_Some (h !! c).

Local Abbreviation winv := (winv owned valid).
Local Abbreviation separate := (separate owned).

Lemma separate_sym a b : separate a b → separate b a.
Proof.
  unfold separate. intros [Ha | Hne].
  - destruct (owned b); [right; congruence | by left].
  - right. congruence.
Qed.

Lemma separate_null a b : owned a = None → separate a b ∧ separate b a.
Proof. intros Ha. split; [by left | apply separate_sym; by left]. Qed.

Lemma winv_start : winv (World ∅ ∅).
Proof. split; simpl; intros *; by rewrite ?lookup_empty. Qed.

(** An object changed by a call that framed the rest of the heap. *)
Lemma winv_update (w : world) k v v' h' :
  winv w →
  objs w !! k = Some v →
  valid v' h' →
  (∀ c blk, Some c ≠ owned v → heap w !! c = Some blk →
     h' !! c = Some blk ∧ Some c ≠ owned v') →
  winv (World (<[k := v']> (objs w)) h').
Proof using valid_kept valid_allocated.
  intros [Hval Hsep] Hk Hv' Hfr.
  assert (∀ k0 v0, k0 ≠ k → objs w !! k0 = Some v0 →
            valid v0 h' ∧ separate v0 v' ∧ separate v' v0) as Hold.
  { intros k0 v0 Hne H0.
    pose proof (Hval _ _ H0) as Hv0.
    pose proof (Hsep _ _ _ _ Hne H0 Hk) as Hs0.
    destruct (owned v0) as [c|] eqn:Hc.
    - destruct (valid_allocated _ _ _ Hv0 Hc) as [blk Hblk].
      assert (Some c ≠ owned v) as Hcv by (destruct Hs0; congruence).
      destruct (Hfr c blk Hcv Hblk) as [Hkept Hcv'].
      split_and!.
      + eapply valid_kept; [done |]. intros c' blk' Hc' Hblk'.
        assert (c' = c) as -> by congruence.
        by destruct (Hfr c blk' Hcv Hblk').
      + right. congruence.
      + apply separate_sym. right. congruence.
    - split_and!; [| by left | apply separate_sym; by left].
      eapply valid_kept; [done |]. congruence. }
  split; simpl.
  - intros k0 v0. destruct (decide (k0 = k)) as [-> | Hne].
    + rewrite lookup_insert_eq. by intros [= <-].
    + rewrite lookup_insert_ne by done. intros H0. by edestruct (Hold k0) as (? & ? & ?).
  - intros k1 k2 v1 v2 Hne.
    destruct (decide (k1 = k)) as [-> | Hne1]; destruct (decide (k2 = k)) as [-> | Hne2];
      rewrite ?lookup_insert_eq, ?lookup_insert_ne by done; try done.
    + intros [= <-] H2. by edestruct (Hold k2) as (? & ? & ?).
    + intros H1 [= <-]. by edestruct (Hold k1) as (? & ? & ?).
    + intros H1 H2. by eapply (Hsep k1 k2).
Qed.

(** A new object in a new block. *)
Lemma winv_new (w : world) k v' h' :
  winv w →
  objs w !! k = None →
  valid v' h' →
  (∀ c blk, heap w !! c = Some blk → h' !! c = Some blk) →
  (∀ c, owned v' = Some c → heap w !! c = None) →
  winv (World (<[k := v']> (objs w)) h').
Proof using valid_kept valid_allocated.
  intros [Hval Hsep] Hk Hv' Hkept Hfresh.
  assert (∀ k0 v0, objs w !! k0 = Some v0 →
            valid v0 h' ∧ separate v0 v' ∧ separate v' v0) as Hold.
  { intros k0 v0 H0.
    pose proof (Hval _ _ H0) as Hv0.
    split; [eapply valid_kept; [done |]; intros; by apply Hkept |].
    assert (separate v0 v') as Hs; [| split; [done | by apply separate_sym]].
    destruct (owned v0) as [c|] eqn:Hc; [| by left].
    right. rewrite Hc. intros Heq. symmetry in Heq.
    destruct (valid_allocated _ _ _ Hv0 Hc) as [blk Hblk].
    specialize (Hfresh c Heq). congruence. }
  split; simpl.
  - intros k0 v0. destruct (decide (k0 = k)) as [-> | Hne].
    + rewrite lookup_insert_eq. by intros [= <-].
    + rewrite lookup_insert_ne by done. intros H0. by edestruct (Hold k0) as (? & ? & ?).
  - intros k1 k2 v1 v2 Hne.
    destruct (decide (k1 = k)) as [-> | Hne1]; destruct (decide (k2 = k)) as [-> | Hne2];
      rewrite ?lookup_insert_eq, ?lookup_insert_ne by done; try done.
    + intros [= <-] H2. by edestruct (Hold k2) as (? & ? & ?).
    + intros H1 [= <-]. by edestruct (Hold k1) as (? & ? & ?).
    + intros H1 H2. by eapply (Hsep k1 k2).
Qed.

(** The end of an object, its block released or left behind. *)
Lemma winv_delete (w : world) k v h' :
  winv w →
  objs w !! k = Some v →
  (∀ c blk, Some c ≠ owned v → heap w !! c = Some blk → h' !! c = Some blk) →
  winv (World (delete k (objs w)) h').
Proof using valid_kept valid_allocated.
  intros [Hval Hsep] Hk Hkept. split; simpl.
  - intros k0 v0. destruct (decide (k0 = k)) as [-> | Hne].
    + by rewrite lookup_delete_eq.
    + rewrite lookup_delete_ne by done. intros H0.
      eapply valid_kept; [by eapply Hval |]. intros c blk Hc Hblk.
      apply Hkept; [| done].
      destruct (Hsep _ _ _ _ Hne H0 Hk); congruence.
  - intros k1 k2 v1 v2 Hne.
    destruct (decide (k1 = k)) as [-> | Hne1]; destruct (decide (k2 = k)) as [-> | Hne2];
      rewrite ?lookup_delete_eq, ?lookup_delete_ne by done; try done.
    intros H1 H2. by eapply (Hsep k1 k2).
Qed.

(** Two objects exchange what they hold. *)
Lemma winv_swap (w : world) k j v o :
  winv w →
  k ≠ j →
  objs w !! k = Some v →
  objs w !! j = Some o →
  winv (World (<[j := v]> (<[k := o]> (objs w))) (heap w)).
Proof.
  intros [Hval Hsep] Hkj Hk Hj.
  assert (∀ k0 v0, <[j := v]> (<[k := o]> (objs w)) !! k0 = Some v0 →
            ∃ k0', objs w !! k0' = Some v0 ∧
                   k0' = (if decide (k0 = j) then k
                          else if decide (k0 = k) then j else k0)) as Hperm.
  { intros k0 v0. destruct (decide (k0 = j)) as [-> | Hnej].
    - rewrite lookup_insert_eq. intros [= <-]. eauto.
    - rewrite lookup_insert_ne by done. destruct (decide (k0 = k)) as [-> | Hnek].
      + rewrite lookup_insert_eq. intros [= <-]. eauto.
      + rewrite lookup_insert_ne by done. eauto. }
  split; simpl.
  - intros k0 v0 H0. destruct (Hperm _ _ H0) as (k0' & H0' & _). by eapply Hval.
  - intros k1 k2 v1 v2 Hne H1 H2.
    destruct (Hperm _ _ H1) as (k1' & H1' & E1).
    destruct (Hperm _ _ H2) as (k2' & H2' & E2).
    eapply (Hsep k1' k2'); [| done | done].
    subst k1' k2'. repeat case_decide; congruence.
Qed.

(** An object takes over what another one holds, which is left blank; what
    it held before is released or left behind. *)
Lemma winv_take (w : world) k j o blank h' :
  winv w →
  k ≠ j →
  objs w !! j = Some o →
  owned blank = None →
  (∀ h, valid blank h) →
  (∀ c blk, (∀ v, objs w !! k = Some v → Some c ≠ owned v) →
     heap w !! c = Some blk → h' !! c = Some blk) →
  winv (World (<[j := blank]> (<[k := o]> (objs w))) h').
Proof using valid_kept valid_allocated.
  intros [Hval Hsep] Hkj Hj Hblank Hbv Hkept.
  assert (∀ k0 v0, k0 ≠ k → objs w !! k0 = Some v0 → valid v0 h') as Hold.
  { intros k0 v0 Hne H0. eapply valid_kept; [by eapply Hval |].
    intros c blk Hc Hblk. apply Hkept; [| done].
    intros v Hk. destruct (Hsep _ _ _ _ Hne H0 Hk); congruence. }
  assert (∀ k0 v0, <[j := blank]> (<[k := o]> (objs w)) !! k0 = Some v0 →
            v0 = blank ∨
            ∃ k0', objs w !! k0' = Some v0 ∧ k0' ≠ k ∧
                   k0' = (if decide (k0 = k) then j else k0) ∧ k0 ≠ j) as Hcases.
  { intros k0 v0. destruct (decide (k0 = j)) as [-> | Hnej].
    - rewrite lookup_insert_eq. intros [= <-]. by left.
    - rewrite lookup_insert_ne by done. destruct (decide (k0 = k)) as [-> | Hnek].
      + rewrite lookup_insert_eq. intros [= <-]. right. exists j. done.
      + rewrite lookup_insert_ne by done. intros H0. right. exists k0. done. }
  split; simpl.
  - intros k0 v0 H0. destruct (Hcases _ _ H0) as [-> | (k0' & H0' & Hne & _)]; [done |].
    by eapply Hold.
  - intros k1 k2 v1 v2 Hne H1 H2.
    destruct (Hcases _ _ H1) as [-> | (k1' & H1' & Hne1 & E1 & Hj1)];
      [by left |].
    destruct (Hcases _ _ H2) as [-> | (k2' & H2' & Hne2 & E2 & Hj2)];
      [apply separate_sym; by left |].
    eapply (Hsep k1' k2'); [| done | done].
    subst k1' k2'. repeat case_decide; congruence.
Qed.

End Worlds.

Section AfterWp.
Context {Obj Cell : Type}.

Lemma wp_after {A} (c : M Obj Cell A) s Q E (P : state Obj Cell → Prop) :
  wp c s Q E →
  (∀ a s', Q a s' → P s') →
  (∀ e s', E e s' → P s') →
  ∃ s', after (c s) = Some s' ∧ P s'.
Proof.
  unfold wp, after. destruct (c s) as [a s' | e s' |]; [eauto | eauto | done].
Qed.

Lemma wp_construct blank k (c : M Obj Cell Obj) (w : world) Q E (P : world → Prop) :
  wp c (State blank (heap w)) Q E →
  (∀ v s', Q v s' → P (World (<[k := v]> (objs w)) (mem s'))) →
  (∀ e s', E e s' → P (World (objs w) (mem s'))) →
  ∃ w', construct blank k c w = Some w' ∧ P w'.
Proof.
  unfold wp, construct.
  destruct (c (State blank (heap w))) as [a s' | e s' |]; [eauto | eauto | done].
Qed.

End AfterWp.

Section VecWorlds.
Context {T : Type} `{!Element T}.
Implicit Types (w : world (Obj:=Vec.Vector) (Cell:=option T)).

Lemma vec_valid_kept (o : Vec.Vector) (h h' : gmap addr (list (option T))) :
  vec_valid (State o h) →
  (∀ c blk, vec_owned o = Some c → h !! c = Some blk → h' !! c = Some blk) →
  vec_valid (State o h').
Proof.
  intros (xs & cap & Hrep) Hkept. exists xs, cap. by eapply vrep_other_kept.
Qed.

Lemma vec_valid_allocated (o : Vec.Vector) (h : gmap addr (list (option T))) c :
  vec_valid (State o h) → vec_owned o = Some c → is_Some (h !! c).
Proof.
  intros (xs & cap & (_ & _ & _ & _ & Hblk)) Hc. simpl in Hblk.
  unfold vec_owned in Hc. rewrite Hc in Hblk. unfold block_at in Hblk. eauto.
Qed.

Lemma vec_valid_default (h : gmap addr (list (option T))) :
  vec_valid (State Vec.Vector_default h).
Proof. exists [], 0. apply vrep_default. Qed.

Lemma vec_winv_same w k v :
  objs w !! k = Some v → World (<[k := v]> (objs w)) (heap w) = w.
Proof. intros Hk. destruct w as [o h]. simpl in *. by rewrite insert_id. Qed.

Local Arguments Vec.assign_copy : simpl never.

Lemma vec_exec_keeps st w :
  vec_winv w → Vec.pre st w → ∃ w', Vec.exec st w = Some w' ∧ vec_winv w'.
Proof.
  intros Hinv Hpre. pose proof Hinv as [Hval Hsep].
  destruct st as [k | k n | k j | k j | k | k c | k j | k j | k j]; simpl in *.
  - (* Vector<T> k; *)
    eexists. split; [done |].
    eapply (winv_new _ _ vec_valid_kept vec_valid_allocated); [done | done | | done | done].
    apply vec_valid_default.
  - (* Vector<T> k(n); *)
    destruct Hpre as [Hk Hn].
    eapply (wp_construct _ _ _ _
              (λ v s', vec_winv (World (<[k := v]> (objs w)) (mem s')))
              (λ _ s', vec_winv (World (objs w) (mem s')))); [| done | done].
    eapply vec_wp_Vector_sized; [done | |].
    + intros v s' _ _ Hrep Hkept Hfresh.
      eapply (winv_new _ _ vec_valid_kept vec_valid_allocated);
        [done | done | by eexists _, _ | done | done].
    + intros _ _. by destruct w.
  - (* Vector<T> k(j); *)
    destruct Hpre as [Hk [o Hj]]. rewrite Hj. simpl.
    destruct (Hval _ _ Hj) as (ys & capo & Hrepo).
    eapply (wp_construct _ _ _ _
              (λ v s', vec_winv (World (<[k := v]> (objs w)) (mem s')))
              (λ _ s', vec_winv (World (objs w) (mem s')))); [| done | done].
    eapply vec_wp_Vector_copy; [done | |].
    + intros v s' _ _ Hrep Hkept Hfresh.
      eapply (winv_new _ _ vec_valid_kept vec_valid_allocated);
        [done | done | by eexists _, _ | done | done].
    + intros _. by destruct w.
  - (* Vector<T> k(std::move(j)); *)
    destruct Hpre as [Hk [o Hj]]. rewrite Hj. simpl.
    eexists. split; [done |].
    assert (k ≠ j) as Hkj by congruence.
    rewrite insert_insert_ne by done.
    eapply (winv_take _ _ vec_valid_kept vec_valid_allocated); [done | done | done | done | | done].
    apply vec_valid_default.
  - (* the lifetime of k ends *)
    destruct Hpre as [v Hk]. rewrite Hk. simpl.
    destruct (Hval _ _ Hk) as (xs & cap & Hrep).
    assert (wp (Vec.Vector_destroy v) (State v (heap w))
              (λ _ s', vec_winv (World (delete k (objs w)) (mem s'))) nothrow) as Hwp.
    { eapply vec_wp_Vector_destroy; [done |]. intros s' _ Hkept.
      by eapply (winv_delete _ _ vec_valid_kept vec_valid_allocated). }
    apply wp_returns in Hwp as (a & s' & -> & Hinv'). eauto.
  - (* k.c *)
    destruct Hpre as (v & Hk & Hc). rewrite Hk. simpl.
    destruct (Hval _ _ Hk) as (xs & cap & Hrep).
    destruct (wp_after _ _ _ _ (λ s', vec_winv (put_object k s' w))
                (vec_wp_run_call c (State v (heap w)) xs cap Hrep Hc))
      as (s' & -> & Hinv').
    + intros _ s' [Hv' Hfr].
      by eapply (winv_update _ _ vec_valid_kept vec_valid_allocated).
    + intros e s' (_ & Hv' & Hfr).
      by eapply (winv_update _ _ vec_valid_kept vec_valid_allocated).
    + simpl. eauto.
  - (* k.Swap(j) *)
    destruct Hpre as [[v Hk] [o Hj]]. rewrite Hk. simpl.
    unfold Vec.other_ref. destruct (decide (k = j)) as [<- | Hkj]; simpl.
    + eexists. split; [done |]. unfold put_other, put_object. simpl.
      by rewrite vec_winv_same.
    + rewrite Hj. simpl. eexists. split; [done |].
      unfold put_other, put_object. simpl.
      by eapply winv_swap.
  - (* k = j *)
    destruct Hpre as [[v Hk] [o Hj]]. rewrite Hk. simpl.
    unfold Vec.other_ref. destruct (decide (k = j)) as [<- | Hkj]; simpl.
    + eexists. split; [done |]. unfold put_object. simpl.
      by rewrite vec_winv_same.
    + rewrite Hj. simpl.
      destruct (Hval _ _ Hk) as (xs & cap & Hrep).
      destruct (Hval _ _ Hj) as (ys & capo & Hrepo).
      assert (wp (Vec.assign_copy (Vec.Other o)) (State v (heap w))
                (λ _ s', vec_winv (put_object k s' w))
                (λ _ s', vec_winv (put_object k s' w))) as Hwp.
      { eapply vec_wp_assign_copy; [done | done | | |].
        - assert (j ≠ k) as Hjk by done. apply (Hsep _ _ _ _ Hjk Hj Hk).
        - intros s' Hrep' _ Hfr _ _.
          eapply (winv_update _ _ vec_valid_kept vec_valid_allocated);
            [done | done | by eexists _, _ | done].
        - intros s' zs Hrep' _ Hfr _.
          eapply (winv_update _ _ vec_valid_kept vec_valid_allocated);
            [done | done | by eexists _, _ | done]. }
      destruct (wp_after _ _ _ _ (λ s', vec_winv (put_object k s' w)) Hwp)
        as (s' & -> & Hinv'); [done | done |].
      simpl. eauto.
  - (* k = std::move(j) *)
    destruct Hpre as [[v Hk] [o Hj]]. rewrite Hk. simpl.
    unfold Vec.other_ref. destruct (decide (k = j)) as [<- | Hkj]; simpl.
    + eexists. split; [done |]. unfold put_other, put_object. simpl.
      by rewrite vec_winv_same.
    + rewrite Hj. simpl. eexists. split; [done |].
      unfold put_other, put_object. simpl.
      replace {| Vec.data_ := Vec.data_ o; Vec.size_ := Vec.size_ o |} with o
        by (by destruct o).
      eapply (winv_take _ _ vec_valid_kept vec_valid_allocated _ _ _ _ Vec.Vector_default);
        [done | done | done | done | | done].
      apply vec_valid_default.
Qed.

Lemma vec_reachable_winv w : Vec.reachable w → vec_winv w.
Proof.
  induction 1 as [| st w w' _ IH Hpre Hexec]; [apply winv_start |].
  destruct (vec_exec_keeps st w IH Hpre) as (w'' & Hexec' & Hinv).
  congruence.
Qed.


End VecWorlds.

Section SimpleWorlds.
Context {T : Type} `{!Element T}.
Implicit Types (w : world (Obj:=Simple.SimpleVector) (Cell:=T)).

Lemma simple_valid_kept (o : Simple.SimpleVector) (h h' : gmap addr (list T)) :
  simple_valid (State o h) →
  (∀ c blk, simple_owned o = Some c → h !! c = Some blk → h' !! c = Some blk) →
  simple_valid (State o h').
Proof.
  intros (xs & rest & Hrep) Hkept. exists xs, rest. by eapply srep_other_kept.
Qed.

Lemma simple_valid_allocated (o : Simple.SimpleVector) (h : gmap addr (list T)) c :
  simple_valid (State o h) → simple_owned o = Some c → is_Some (h !! c).
Proof.
  intros (xs & rest & (_ & _ & _ & Hblk)) Hc. simpl in Hblk.
  unfold simple_owned in Hc. rewrite Hc in Hblk. unfold block_at in Hblk. eauto.
Qed.

Lemma simple_valid_default (h : gmap addr (list T)) :
  simple_valid (State Simple.SimpleVector_default h).
Proof. exists [], []. apply srep_default. Qed.

Lemma simple_winv_same w k v :
  objs w !! k = Some v → World (<[k := v]> (objs w)) (heap w) = w.
Proof. intros Hk. destruct w as [o h]. simpl in *. by rewrite insert_id. Qed.

Local Arguments Simple.assign_copy : simpl never.
Local Arguments Simple.assign_move : simpl never.

Lemma simple_exec_keeps st w :
  simple_winv w → Simple.pre st w → ∃ w', Simple.exec st w = Some w' ∧ simple_winv w'.
Proof.
  intros Hinv Hpre. pose proof Hinv as [Hval Hsep].
  assert (∀ k (c : M Simple.SimpleVector T Simple.SimpleVector),
            objs w !! k = None →
            wp c (State Simple.SimpleVector_default (heap w))
              (λ v s', simple_valid (State v (mem s')) ∧
                       (∀ c blk, heap w !! c = Some blk → mem s' !! c = Some blk) ∧
                       (∀ c, Simple.items_ v = Some c → heap w !! c = None))
              (λ _ s', mem s' = heap w) →
            ∃ w', construct Simple.SimpleVector_default k c w = Some w' ∧ simple_winv w')
    as Hnew.
  { intros k c Hk Hwp.
    eapply (wp_construct _ _ _ _ _ _ simple_winv Hwp).
    - intros v s' (Hv & Hkept & Hfresh).
      by eapply (winv_new _ _ simple_valid_kept simple_valid_allocated).
    - intros _ s' ->. by destruct w. }
  destruct st as [k | k n | k n x | k init | k n | k j | k j | k | k c | k j | k j | k j];
    simpl in *.
  - (* SimpleVector<T> k; *)
    eexists. split; [done |].
    eapply (winv_new _ _ simple_valid_kept simple_valid_allocated);
      [done | done | | done | done].
    apply simple_valid_default.
  - (* SimpleVector<T> k(n); *)
    destruct Hpre as [Hk Hn]. apply Hnew; [done |].
    eapply sv_wp_SimpleVector_sized; [done | | done].
    intros v s' _ _ Hrep Hkept Hfresh. split_and!; [by eexists _, _ | done | done].
  - (* SimpleVector<T> k(n, x); *)
    destruct Hpre as [Hk Hn]. apply Hnew; [done |].
    eapply sv_wp_SimpleVector_filled; [done | | done].
    intros v s' _ _ Hrep Hkept Hfresh. split_and!; [by eexists _, _ | done | done].
  - (* SimpleVector<T> k{init...}; *)
    destruct Hpre as [Hk Hn]. apply Hnew; [done |].
    eapply sv_wp_SimpleVector_of_list; [done | | done].
    intros v s' _ _ Hrep Hkept Hfresh. split_and!; [by eexists _, _ | done | done].
  - (* SimpleVector<T> k(Reserve(n)); *)
    destruct Hpre as [Hk Hn]. apply Hnew; [done |].
    eapply sv_wp_SimpleVector_reserved; [done |].
    intros v s' _ Hrep Hkept Hfresh. split_and!; [by eexists _, _ | done | done].
  - (* SimpleVector<T> k(j); *)
    destruct Hpre as [Hk [o Hj]]. rewrite Hj. simpl.
    destruct (Hval _ _ Hj) as (ys & resto & Hrepo).
    apply Hnew; [done |].
    eapply sv_wp_SimpleVector_copy; [done | | done].
    intros v s' _ _ Hrep Hkept Hfresh. split_and!; [by eexists _, _ | done | done].
  - (* SimpleVector<T> k(std::move(j)); *)
    destruct Hpre as [Hk [o Hj]]. rewrite Hj. simpl.
    eexists. split; [done |].
    assert (k ≠ j) as Hkj by congruence.
    rewrite insert_insert_ne by done.
    eapply (winv_take _ _ simple_valid_kept simple_valid_allocated);
      [done | done | done | done | | done].
    apply simple_valid_default.
  - (* the lifetime of k ends *)
    destruct Hpre as [v Hk]. rewrite Hk. simpl.
    destruct (Hval _ _ Hk) as (xs & rest & Hrep).
    assert (wp (Simple.SimpleVector_destroy v) (State v (heap w))
              (λ _ s', simple_winv (World (delete k (objs w)) (mem s'))) nothrow) as Hwp.
    { eapply sv_wp_SimpleVector_destroy; [done |]. intros s' _ Hkept.
      by eapply (winv_delete _ _ simple_valid_kept simple_valid_allocated). }
    apply wp_returns in Hwp as (a & s' & -> & Hinv'). eauto.
  - (* k.c *)
    destruct Hpre as (v & Hk & Hc). rewrite Hk. simpl.
    destruct (Hval _ _ Hk) as (xs & rest & Hrep).
    destruct (wp_after _ _ _ _ (λ s', simple_winv (put_object k s' w))
                (sv_wp_run_call c (State v (heap w)) xs rest Hrep Hc))
      as (s' & -> & Hinv').
    + intros _ s' [Hv' Hfr].
      by eapply (winv_update _ _ simple_valid_kept simple_valid_allocated).
    + intros e s' (_ & Hv' & Hfr).
      by eapply (winv_update _ _ simple_valid_kept simple_valid_allocated).
    + simpl. eauto.
  - (* k.swap(j) *)
    destruct Hpre as [[v Hk] [o Hj]]. rewrite Hk. simpl.
    unfold Simple.other_ref. destruct (decide (k = j)) as [<- | Hkj]; simpl.
    + eexists. split; [done |]. unfold put_other, put_object. simpl.
      by rewrite simple_winv_same.
    + rewrite Hj. simpl. eexists. split; [done |].
      unfold put_other, put_object. simpl.
      by eapply winv_swap.
  - (* k = j *)
    destruct Hpre as [[v Hk] [o Hj]]. rewrite Hk. simpl.
    unfold Simple.other_ref. destruct (decide (k = j)) as [<- | Hkj]; simpl.
    + eexists. split; [done |]. unfold put_object. simpl.
      by rewrite simple_winv_same.
    + rewrite Hj. simpl.
      destruct (Hval _ _ Hk) as (xs & rest & Hrep).
      destruct (Hval _ _ Hj) as (ys & resto & Hrepo).
      assert (wp (Simple.assign_copy (Simple.Other o)) (State v (heap w))
                (λ _ s', simple_winv (put_object k s' w))
                (λ _ s', simple_winv (put_object k s' w))) as Hwp.
      { eapply sv_wp_assign_copy; [done | done | | |].
        - assert (j ≠ k) as Hjk by done. apply (Hsep _ _ _ _ Hjk Hj Hk).
        - intros s' _ Hrep' _ Hfr.
          eapply (winv_update _ _ simple_valid_kept simple_valid_allocated);
            [done | done | by eexists _, _ | done].
        - intros _. unfold put_object. simpl. by rewrite simple_winv_same. }
      destruct (wp_after _ _ _ _ (λ s', simple_winv (put_object k s' w)) Hwp)
        as (s' & -> & Hinv'); [done | done |].
      simpl. eauto.
  - (* k = std::move(j) *)
    destruct Hpre as [[v Hk] [o Hj]]. rewrite Hk. simpl.
    unfold Simple.other_ref. destruct (decide (k = j)) as [<- | Hkj]; simpl.
    + eexists. split; [done |]. unfold put_other, put_object. simpl.
      by rewrite simple_winv_same.
    + rewrite Hj. simpl.
      destruct (Hval _ _ Hk) as (xs & rest & Hrep).
      assert (wp (Simple.assign_move (Simple.Other o)) (State v (heap w))
                (λ r s', simple_winv (put_other j r (put_object k s' w))) nothrow)
        as Hwp.
      { eapply sv_wp_assign_move; [done |]. intros s' Hthis Hkept.
        unfold put_other, put_object. simpl. rewrite Hthis.
        eapply (winv_take _ _ simple_valid_kept simple_valid_allocated
                  _ _ _ _ Simple.SimpleVector_default);
          [done | done | done | done | apply simple_valid_default |].
        intros c blk Hc Hblk. apply Hkept; [| done]. by apply Hc. }
      apply wp_returns in Hwp as (r & s' & -> & Hinv'). eauto.
Qed.

Lemma simple_reachable_winv w : Simple.reachable w → simple_winv w.
Proof.
  induction 1 as [| st w w' _ IH Hpre Hexec]; [apply winv_start |].
  destruct (simple_exec_keeps st w IH Hpre) as (w'' & Hexec' & Hinv).
  congruence.
Qed.

End SimpleWorlds.

Section OutcomeCases.
Context {Obj Cell : Type}.

Lemma wp_outcome {A} (c : M Obj Cell A) s Q E :
  wp c s Q E →
  (∃ a s', c s = Ok a s' ∧ Q a s') ∨ (∃ e s', c s = Throw e s' ∧ E e s').
Proof. unfold wp. destruct (c s); [eauto | eauto | done]. Qed.

End OutcomeCases.

Section VecRoundTrips.
Context {T : Type} `{!Element T}.
Implicit Types (s : state Vec.Vector (option T)) (xs : list T).

Lemma vec_wp_sized_destroy n s (Q : unit → _ → Prop) E :
  allocatable n →
  (n = 0 ∨ default_throws = false → Q tt s) →
  (n ≠ 0 → default_throws = true → E element_failure s) →
  wp (v <- Vec.Vector_sized n;; Vec.Vector_destroy v) s Q E.
Proof.
  intros Hn HQ HE. destruct s as [v0 h].
  apply wp_bind. unfold Vec.Vector_sized. apply wp_bind, vec_wp_RawMemory_new; [done | |].
  - intros ->. simpl. apply wp_bind, wp_unwind.
    eapply vec_wp_uninitialized_value_construct_n; [done | simpl; lia | done |].
    intros _. unfold set_block. simpl. apply HQ. by left.
  - intros a Hn0 Ha. simpl in *. apply wp_bind, wp_unwind.
    eapply vec_wp_uninitialized_value_construct_n; [solve_block_at | len_tac | |].
    + intros _ Hd. eapply vec_wp_RawMemory_destroy; [solve_block_at |].
      simpl. rewrite !free_block_set_block, free_block_absent by done. auto.
    + intros Hd. apply wp_ret. simpl.
      unfold Vec.Vector_destroy. simpl. apply wp_bind.
      eapply (vec_wp_destroy_n _ _ _ (replicate n default_value));
        [solve_block_at | len_tac | vlist |]. simpl.
      eapply vec_wp_RawMemory_destroy; [solve_block_at |]. simpl.
      rewrite !free_block_set_block, free_block_absent by done. auto.
Qed.

Lemma vec_wp_copy_destroy other s ys capo (Q : unit → _ → Prop) E :
  vrep (State other (mem s)) ys capo →
  (copies_ok ys = true → Q tt s) →
  (copies_ok ys = false → E element_failure s) →
  wp (v <- Vec.Vector_copy other;; Vec.Vector_destroy v) s Q E.
Proof.
  intros (Hsz & Hcap & Hle & Hfit & Hblk) HQ HE.
  destruct s as [v0 h]. destruct other as [[bo co] szo]. simpl in *. subst co szo.
  apply wp_bind. unfold Vec.Vector_copy. simpl.
  apply wp_bind, vec_wp_RawMemory_new; [by eapply allocatable_le | |].
  - intros Hnil. destruct ys; [| done]. simpl. apply wp_bind, wp_unwind.
    eapply (vec_wp_uninitialized_copy_n _ _ _ _ _ []);
      [solve_block_at | len_tac | vlist | done | simpl; lia | done |].
    intros _. unfold set_block. simpl. by apply HQ.
  - intros a Hn0 Ha. simpl in *.
    pose proof (block_at_fresh_ne _ _ _ _ Ha Hblk) as Hne.
    apply wp_bind, wp_unwind.
    eapply (vec_wp_uninitialized_copy_n _ _ _ _ _ ys);
      [solve_block_at | len_tac | vlist | solve_block_at | len_tac | |].
    + intros Hbad. eapply vec_wp_RawMemory_destroy; [solve_block_at |].
      simpl. rewrite !free_block_set_block, free_block_absent by done. auto.
    + intros Hok. apply wp_ret. simpl.
      unfold Vec.Vector_destroy. simpl. apply wp_bind.
      eapply (vec_wp_destroy_n _ _ _ ys); [solve_block_at | len_tac | vlist |]. simpl.
      eapply vec_wp_RawMemory_destroy; [solve_block_at |]. simpl.
      rewrite !free_block_set_block, free_block_absent by done. auto.
Qed.

End VecRoundTrips.

Section AppendsWithRoom.
Context {T : Type} `{!Element T}.

Lemma vec_wp_EmplaceBack_room mk (s : state Vec.Vector (option T)) xs cap
    (Q : ptr → _ → Prop) E :
  vrep s xs cap →
  length xs < cap →
  (∀ x s', mk = Some x →
     vrep s' (xs ++ [x]) cap →
     Vec.data_ (this s') = Vec.data_ (this s) →
     vframe s s' →
     Q (Ptr (Vec.buffer_ (Vec.data_ (this s'))) (length xs)) s') →
  (mk = None → E element_failure s) →
  wp (Vec.EmplaceBack mk) s Q E.
Proof.
  intros Hrep Hroom HQ HE.
  pose proof Hrep as (Hsz & Hcap & Hle & Hfit & Hblk).
  destruct s as [[[b c] n] h]. simpl in *. subst c n.
  unfold Vec.EmplaceBack. apply wp_bind, wp_get_this. simpl.
  unfold Vec.Capacity, Vec.RawMemory_Capacity. simpl.
  rewrite decide_False by lia.
  apply wp_bind.
  apply wp_bind, vec_wp_RawMemory_plus; [simpl; lia |].
  destruct mk as [x|]; simpl; [| apply wp_throw; auto].
  eapply vec_wp_construct_at; [solve_block_at | len_tac |]. simpl.
  apply wp_bind, wp_get_this, wp_bind, wp_put_this, wp_ret. simpl.
  lazymatch goal with |- Q _ ?s' => apply (HQ x s'); [done | | done |] end.
  - repeat split; simpl; [len_tac; size_lia | len_tac | done |].
    block_is. vlist.
  - intros c blk Hc Hblk'. simpl in *. split; [solve_kept | done].
Qed.

Lemma vec_wp_do_append_room a (s : state Vec.Vector (option T)) xs cap
    (Q : unit → _ → Prop) E :
  vrep s xs cap →
  length xs < cap →
  (∀ s', Vec.append_ok a = true →
     vrep s' (xs ++ [Vec.appended a]) cap →
     Vec.data_ (this s') = Vec.data_ (this s) →
     vframe s s' → Q tt s') →
  (Vec.append_ok a = false → E element_failure s) →
  wp (Vec.do_append a) s Q E.
Proof.
  intros Hrep Hroom HQ HE.
  assert (∀ mk, mk = (if Vec.append_ok a then Some (Vec.appended a) else None) →
            wp (Vec.EmplaceBack mk;;; ret tt) s Q E) as Hgen.
  { intros mk Hmk. apply wp_bind. eapply vec_wp_EmplaceBack_room; [done | done | |].
    - intros x s' -> Hrep' Hdata Hfr. apply wp_ret.
      destruct (Vec.append_ok a) eqn:Hok; [| done].
      injection Hmk as ->. by apply HQ.
    - intros ->. apply HE. by destruct (Vec.append_ok a). }
  destruct a as [x | x | x]; simpl in *.
  - apply Hgen. unfold Vec.copy_construct. by destruct (copy_throws x).
  - by apply Hgen.
  - by apply Hgen.
Qed.

Lemma vec_wp_do_appends_room l : ∀ (s : state Vec.Vector (option T)) xs cap,
  vrep s xs cap →
  length xs + length l ≤ cap →
  forallb Vec.append_ok l = true →
  wp (Vec.do_appends l) s
     (λ _ s', vrep s' (xs ++ (Vec.appended <$> l)) cap ∧
              Vec.data_ (this s') = Vec.data_ (this s) ∧
              vframe s s') nothrow.
Proof.
  induction l as [| a l IH]; intros s xs cap Hrep Hroom Hok; simpl in *.
  - apply wp_ret. rewrite app_nil_r. split_and!; [done | done | apply vframe_refl].
  - apply andb_prop in Hok as [Ha Hl].
    apply wp_bind. eapply vec_wp_do_append_room; [done | lia | | congruence].
    intros s' _ Hrep' Hdata Hfr.
    eapply wp_mono;
      [eapply (IH s' (xs ++ [Vec.appended a]) cap);
         [done | rewrite length_app; simpl; lia | done]
      | | done].
    intros _ s'' (Hrep'' & Hdata' & Hfr'). rewrite <-app_assoc in Hrep''.
    split_and!; [done | congruence | by eapply vframe_trans].
Qed.

Lemma sv_wp_do_append_room a (s : state Simple.SimpleVector T) xs r rest
    (Q : unit → _ → Prop) E :
  srep s xs (r :: rest) →
  (∀ s', Simple.append_ok a = true →
     srep s' (xs ++ [Simple.appended a]) rest →
     Simple.items_ (this s') = Simple.items_ (this s) →
     Simple.capacity_ (this s') = Simple.capacity_ (this s) →
     sframe s s' → Q tt s') →
  (Simple.append_ok a = false → E element_failure s) →
  wp (Simple.do_append a) s Q E.
Proof.
  intros Hrep HQ HE.
  pose proof Hrep as (Hsz & Hcap & Hfit & Hblk).
  destruct s as [[b sz c] h]. simpl in *. subst sz c.
  assert (size_add (length xs) 1 = length xs + 1) as Hs1 by size_lia.
  assert (∀ s', s' = State {| Simple.items_ := b; Simple.size_ := length xs;
                              Simple.capacity_ := length xs + S (length rest) |}
                       (set_block h b (splice (xs ++ r :: rest) (length xs)
                                         [Simple.appended a])) →
            Simple.append_ok a = true →
            wp (v' <- get_this;;
                put_this (Simple.set_size v' (size_add (Simple.size_ v') 1))) s' Q E)
    as Hdone.
  { intros s' -> Hok. apply wp_bind, wp_get_this, wp_put_this. simpl.
    apply HQ; [done | | done | done |].
    - srep_tac. block_is. list_ext.
    - intros c blk Hc Hblk'. simpl in *. split; [solve_kept | done]. }
  destruct a as [x | x]; simpl in *.
  - unfold Simple.PushBack. apply wp_bind, wp_get_this. simpl.
    rewrite Hs1. rewrite decide_False by lia. apply wp_bind.
    eapply sv_wp_assign_copy_at; [solve_block_at | len_tac | |].
    + intros Hok. apply Hdone; [done |]. by rewrite Hok.
    + intros Hbad. apply HE. by rewrite Hbad.
  - unfold Simple.PushBack_move. apply wp_bind, wp_get_this. simpl.
    rewrite Hs1. rewrite decide_False by lia. apply wp_bind.
    eapply sv_wp_assign_move_at; [solve_block_at | len_tac |].
    by apply Hdone.
Qed.

Lemma sv_wp_do_appends_room l : ∀ (s : state Simple.SimpleVector T) xs rest,
  srep s xs rest →
  length l ≤ length rest →
  forallb Simple.append_ok l = true →
  wp (Simple.do_appends l) s
     (λ _ s', srep s' (xs ++ (Simple.appended <$> l)) (drop (length l) rest) ∧
              Simple.items_ (this s') = Simple.items_ (this s) ∧
              Simple.capacity_ (this s') = Simple.capacity_ (this s) ∧
              sframe s s') nothrow.
Proof.
  induction l as [| a l IH]; intros s xs rest Hrep Hroom Hok; simpl in *.
  - apply wp_ret. rewrite app_nil_r, drop_0.
    split_and!; [done | done | done | apply sframe_refl].
  - apply andb_prop in Hok as [Ha Hl].
    destruct rest as [| r rest]; [simpl in *; lia |]. simpl in *.
    apply wp_bind. eapply sv_wp_do_append_room; [done | | congruence].
    intros s' _ Hrep' Hitems Hcap Hfr.
    eapply wp_mono;
      [eapply (IH s' (xs ++ [Simple.appended a]) rest); [done | lia | done]
      | | done].
    intros _ s'' (Hrep'' & Hitems' & Hcap' & Hfr'). rewrite <-app_assoc in Hrep''.
    split_and!; [done | congruence | congruence | by eapply sframe_trans].
Qed.

End AppendsWithRoom.

Section ComparisonLemmas.
Context {T : Type} `{!Element T} `{!Comparable T}.
Implicit Types (xs ys : list T).

Lemma std_equal_refl xs :
  (∀ x, elem_eqb x x = true) → Simple.std_equal xs xs = true.
Proof. intros Hrefl. induction xs as [| x xs IH]; simpl; [done |]. by rewrite Hrefl. Qed.

Lemma std_equal_spec xs : ∀ ys,
  (∀ x y, elem_eqb x y = true ↔ x = y) →
  Simple.std_equal xs ys = true ↔ xs = ys.
Proof.
  induction xs as [| x xs IH]; intros [| y ys] Heq; simpl; try done.
  destruct (elem_eqb x y) eqn:Hxy.
  - apply Heq in Hxy as ->. rewrite IH by done. split; congruence.
  - split; [done |]. intros [= -> ->].
    assert (elem_eqb y y = true) by (by apply Heq). congruence.
Qed.

Lemma std_lexicographical_compare_irrefl xs :
  (∀ x, elem_ltb x x = false) → Simple.std_lexicographical_compare xs xs = false.
Proof. intros Hirr. induction xs as [| x xs IH]; simpl; [done |]. by rewrite Hirr. Qed.

Lemma std_lexicographical_compare_asym xs : ∀ ys,
  (∀ x y, elem_ltb x y = true → elem_ltb y x = false) →
  Simple.std_lexicographical_compare xs ys = true →
  Simple.std_lexicographical_compare ys xs = false.
Proof.
  induction xs as [| x xs IH]; intros [| y ys] Hasym; simpl; try done.
  destruct (elem_ltb x y) eqn:Hxy.
  - by rewrite (Hasym _ _ Hxy).
  - destruct (elem_ltb y x) eqn:Hyx; [done |]. by apply IH.
Qed.

Lemma std_lexicographical_compare_total xs : ∀ ys,
  (∀ x y, elem_ltb x y = false → elem_ltb y x = false → x = y) →
  Simple.std_lexicographical_compare xs ys = false →
  Simple.std_lexicographical_compare ys xs = false →
  xs = ys.
Proof.
  induction xs as [| x xs IH]; intros [| y ys] Htot; simpl; try done.
  destruct (elem_ltb x y) eqn:Hxy; [done |].
  destruct (elem_ltb y x) eqn:Hyx; [done |].
  intros H1 H2. rewrite (Htot _ _ Hxy Hyx). f_equal. by apply IH.
Qed.

Lemma sv_wp_read_range (v : Simple.SimpleVector) (s : state Simple.SimpleVector T)
    xs rest (Q : list T → _ → Prop) E :
  srep (State v (mem s)) xs rest →
  Q xs s →
  wp (Simple.read_range (Simple.cbegin v) (Simple.cend v)) s Q E.
Proof.
  intros (Hsz & Hcap & Hfit & Hblk) HQ. simpl in *.
  unfold Simple.read_range, Simple.cbegin, Simple.cend.
  apply wp_bind, wp_range_length; [done | simpl; lia |]. simpl.
  eapply wp_read_cells; [done | simpl; len_tac |]. simpl.
  rewrite Nat.sub_0_r, Hsz, drop_0, take_app_length. done.
Qed.

Lemma sv_op_lt_ok (lhs rhs : Simple.SimpleVector) (s : state Simple.SimpleVector T)
    xs restl ys restr :
  srep (State lhs (mem s)) xs restl →
  srep (State rhs (mem s)) ys restr →
  Simple.op_lt lhs rhs s = Ok (Simple.std_lexicographical_compare xs ys) s.
Proof.
  intros Hl Hr. apply wp_returns_same. unfold Simple.op_lt.
  apply wp_bind. eapply sv_wp_read_range; [done |].
  apply wp_bind. eapply sv_wp_read_range; [done |].
  by apply wp_ret.
Qed.

Lemma sv_op_eq_ok (lhs rhs : Simple.SimpleVector) (s : state Simple.SimpleVector T)
    xs restl ys restr :
  srep (State lhs (mem s)) xs restl →
  srep (State rhs (mem s)) ys restr →
  Simple.op_eq lhs rhs s =
    Ok (if decide (length xs ≠ length ys) then false else Simple.std_equal xs ys) s.
Proof.
  intros Hl Hr. apply wp_returns_same. unfold Simple.op_eq, Simple.GetSize.
  pose proof Hl as (Hszl & _). pose proof Hr as (Hszr & _). simpl in *.
  rewrite Hszl, Hszr.
  case_decide; [by apply wp_ret |].
  apply wp_bind. eapply sv_wp_read_range; [done |].
  apply wp_bind. eapply sv_wp_read_range; [done |].
  by apply wp_ret.
Qed.

Lemma std_equal_length xs : ∀ ys,
  Simple.std_equal xs ys = true → length xs = length ys.
Proof.
  induction xs as [| x xs IH]; intros [| y ys]; simpl; try done.
  destruct (elem_eqb x y); [| done]. intros. f_equal. by apply IH.
Qed.

End ComparisonLemmas.

Section SimpleRoundTrips.
Context {T : Type} `{!Element T}.
Implicit Types (s : state Simple.SimpleVector T) (xs ys rest : list T).

Lemma sv_wp_of_list_destroy init s (Q : unit → _ → Prop) E :
  fits (length init) →
  (copies_ok init = true → Q tt s) →
  (copies_ok init = false → E element_failure s) →
  wp (v <- Simple.SimpleVector_of_list init;; Simple.SimpleVector_destroy v) s Q E.
Proof.
  intros Hn HQ HE. destruct s as [v0 h].
  apply wp_bind. unfold Simple.SimpleVector_of_list. apply wp_bind, sv_wp_ArrayPtr_new.
  - intros Hnil. destruct init; [| done]. simpl. apply wp_bind, wp_unwind.
    eapply sv_wp_copy_list; [done | simpl; lia | | done].
    intros _. simpl. unfold set_block. simpl. by apply HQ.
  - intros a Hn0 Ha. simpl in *. apply wp_bind, wp_unwind.
    eapply sv_wp_copy_list; [solve_block_at | len_tac | |].
    + intros Hok. simpl. apply wp_ret. unfold Simple.SimpleVector_destroy. simpl.
      eapply sv_wp_ArrayPtr_destroy; [solve_block_at |]. simpl.
      rewrite !free_block_set_block, free_block_absent by done. auto.
    + intros Hbad. simpl. rewrite set_block_twice.
      apply sv_wp_ArrayPtr_discard; auto.
Qed.

Lemma sv_wp_filled_destroy n x s (Q : unit → _ → Prop) E :
  fits n →
  (n = 0 ∨ copy_throws x = false → Q tt s) →
  (n ≠ 0 → copy_throws x = true → E element_failure s) →
  wp (v <- Simple.SimpleVector_filled n x;; Simple.SimpleVector_destroy v) s Q E.
Proof.
  intros Hn HQ HE. destruct s as [v0 h].
  apply wp_bind. unfold Simple.SimpleVector_filled. apply wp_bind, sv_wp_ArrayPtr_new.
  - intros ->. simpl. apply wp_bind, wp_unwind.
    unfold Simple.begin_, Simple.end_. simpl.
    eapply (sv_wp_fill _ _ _ 0); [done | done | done | done | simpl; lia | | done].
    intros _. simpl. unfold set_block. simpl. apply HQ. by left.
  - intros a Hn0 Ha. simpl in *. apply wp_bind, wp_unwind.
    unfold Simple.begin_, Simple.end_. simpl.
    eapply (sv_wp_fill _ _ _ n);
      [done | simpl; lia | simpl; lia | solve_block_at | len_tac | |].
    + intros [? | Hcopy]; [lia |]. simpl. apply wp_ret.
      unfold Simple.SimpleVector_destroy. simpl.
      eapply sv_wp_ArrayPtr_destroy; [solve_block_at |]. simpl.
      rewrite !free_block_set_block, free_block_absent by done. auto.
    + intros _ Hcopy. apply sv_wp_ArrayPtr_discard; auto.
Qed.

Lemma sv_wp_copy_destroy other s ys resto (Q : unit → _ → Prop) E :
  srep (State other (mem s)) ys resto →
  (copies_ok ys = true → Q tt s) →
  (copies_ok ys = false → E element_failure s) →
  wp (v <- Simple.SimpleVector_copy other;; Simple.SimpleVector_destroy v) s Q E.
Proof.
  intros (Hsz & Hcap & Hfit & Hblk) HQ HE.
  destruct s as [v0 h]. destruct other as [bo szo co]. simpl in *. subst szo co.
  apply wp_bind.
  unfold Simple.SimpleVector_copy, Simple.GetCapacity, Simple.GetSize,
    Simple.begin_, Simple.end_. simpl.
  apply wp_bind, sv_wp_ArrayPtr_new.
  - intros Hnil. destruct ys; [| simpl in *; lia]. destruct resto; [| simpl in *; lia].
    simpl. apply wp_bind, wp_unwind.
    eapply (sv_wp_copy_range _ _ _ 0 _ _ []);
      [done | done | done | solve_block_at | simpl; lia | done | done | simpl; lia
      | | done].
    intros _. simpl. unfold set_block. simpl. by apply HQ.
  - intros a Hn0 Ha. simpl in *.
    pose proof (block_at_fresh_ne _ _ _ _ Ha Hblk) as Hne.
    apply wp_bind, wp_unwind.
    eapply (sv_wp_copy_range _ _ _ (length ys) _ _ ys);
      [done | simpl; lia | simpl; lia | solve_block_at | len_tac | list_ext
      | solve_block_at | len_tac | |].
    + intros Hok. simpl. apply wp_ret. unfold Simple.SimpleVector_destroy. simpl.
      eapply sv_wp_ArrayPtr_destroy; [solve_block_at |]. simpl.
      rewrite !free_block_set_block, free_block_absent by done. auto.
    + intros Hbad. simpl. rewrite set_block_twice.
      apply sv_wp_ArrayPtr_discard; auto.
Qed.

End SimpleRoundTrips.

Section SimpleInsertFailures.
Context {T : Type} `{!Element T}.
Implicit Types (s : state Simple.SimpleVector T) (xs ys rest : list T).
Import Simple.

Lemma sv_wp_Insert_full_fails x s xs p (Q : ptr → _ → Prop) E :
  srep s xs [] →
  p ≤ length xs →
  doubles (length xs) →
  copies_ok xs = false ∨ copy_throws x = true →
  E element_failure s →
  wp (Insert (Ptr (items_ (this s)) p) (outside x)) s Q E.
Proof.
  intros Hrep Hp Hdbl Hbad HE.
  pose proof Hrep as (Hsz & Hcap & Hfit & Hblk).
  rewrite (copies_ok_take_drop xs p) in Hbad.
  destruct s as [[b sz c] h]. simpl in *. subst sz c.
  unfold Insert.
  apply wp_bind, wp_get_this. simpl.
  apply wp_bind, sv_wp_distance_from_begin; [done |]. simpl.
  apply wp_bind, sv_wp_assert_position; [done |]. simpl.
  apply wp_bind. unfold begin_, end_, ptr_add. simpl.
  rewrite Nat.add_0_r, app_nil_r in *.
  assert (size_add (length xs) 1 = length xs + 1) as Hs1 by size_lia.
  assert ((length xs + 1) `max` size_mul (length xs) 2 = 1 `max` (2 * length xs))
    as Hnew by size_lia.
  rewrite Hs1, Hnew. rewrite decide_False by lia.
  apply wp_bind, sv_wp_ArrayPtr_new; [lia |]. intros a _ Ha. simpl.
  pose proof (block_at_fresh_ne _ _ _ _ Ha Hblk) as Hne.
  apply wp_bind, wp_unwind.
  apply wp_bind.
  eapply (sv_wp_copy_range _ _ _ p _ _ (take p xs));
    [done | simpl; lia | simpl; lia | solve_block_at | len_tac | list_ext
    | solve_block_at | len_tac | |].
  2:{ intros _. eapply sv_wp_ArrayPtr_destroy; [solve_block_at |]. simpl.
      by rewrite !free_block_set_block, free_block_absent by done. }
  intros Hok1. simpl.
  norm_top (take p xs ++ replicate (1 `max` (2 * length xs) - p) array_init).
  apply wp_bind.
  eapply (sv_wp_copy_range _ _ _ (length xs - p) _ _ (drop p xs));
    [done | simpl; lia | simpl; lia | solve_block_at | len_tac | list_ext
    | solve_block_at | len_tac | |].
  2:{ intros _. eapply sv_wp_ArrayPtr_destroy; [solve_block_at |]. simpl.
      by rewrite !free_block_set_block, free_block_absent by done. }
  intros Hok2. simpl.
  norm_top (take p xs ++ array_init :: drop p xs ++
            replicate (1 `max` (2 * length xs) - length xs - 1) array_init).
  eapply sv_wp_assign_copy_at; [solve_block_at | len_tac | |].
  2:{ intros _. eapply sv_wp_ArrayPtr_destroy; [solve_block_at |]. simpl.
      by rewrite !free_block_set_block, free_block_absent by done. }
  intros Hok3. exfalso.
  rewrite Hok1, Hok2, Hok3 in Hbad. by destruct Hbad.
Qed.

Lemma sv_wp_Insert_room_value_fails x y s xs r rest p (Q : ptr → _ → Prop) E :
  srep s xs (r :: rest) →
  xs !! p = Some y →
  copies_ok (drop p xs) = true →
  copy_throws x = true →
  E element_failure
    (State (this s)
       (set_block (mem s) (items_ (this s)) (take p xs ++ y :: drop p xs ++ rest))) →
  wp (Insert (Ptr (items_ (this s)) p) (outside x)) s Q E.
Proof.
  intros Hrep Hy Hok Hx HE.
  pose proof (lookup_lt_Some _ _ _ Hy) as Hp.
  pose proof Hrep as (Hsz & Hcap & Hfit & Hblk).
  destruct s as [[b sz c] h]. simpl in *. subst sz c.
  unfold Insert.
  apply wp_bind, wp_get_this. simpl.
  apply wp_bind, sv_wp_distance_from_begin; [done |]. simpl.
  apply wp_bind, sv_wp_assert_position; [simpl; lia |]. simpl.
  apply wp_bind. unfold begin_, end_, ptr_add. simpl.
  assert (size_add (length xs) 1 = length xs + 1) as Hs1 by size_lia.
  rewrite Hs1. rewrite decide_True by lia.
  apply wp_bind.
  eapply (sv_wp_copy_backward _ _ _ (length xs - p) _ (drop p xs));
    [done | simpl; lia | simpl; lia | simpl; lia | solve_block_at | len_tac | list_ext
    | done | len_tac | | congruence].
  intros _. simpl.
  norm_top (take (p + 1) (xs ++ [r]) ++ drop p xs ++ rest).
  apply wp_bind.
  eapply sv_wp_assign_copy_at; [solve_block_at | len_tac | congruence |].
  intros _. simpl.
  replace (take (p + 1) (xs ++ [r]) ++ drop p xs ++ rest)
    with (take p xs ++ y :: drop p xs ++ rest); [done |].
  destruct (list_elem_of_split_length _ _ _ Hy) as (xs1 & xs2 & -> & ->).
  clear Hy Hok. rewrite length_app in *. simpl in *. list_ext.
Qed.

End SimpleInsertFailures.

(** * simple_vector.h: arguments that are elements of the vector *)

Section SimpleOwnElements.
Context {T : Type} `{!Element T}.
Implicit Types (s : state Simple.SimpleVector T) (xs rest : list T).
Import Simple.

Lemma sv_wp_read_ref_inside q y blk s (Q : T → _ → Prop) E :
  block_at (mem s) (base q) = Some blk →
  blk !! off q = Some y →
  Q y s →
  wp (read_ref (inside q)) s Q E.
Proof.
  intros Hb Hy HQ. unfold read_ref.
  pose proof (lookup_lt_Some _ _ _ Hy) as Hlt.
  apply wp_bind. eapply wp_read_cells; [done | lia |].
  destruct (list_elem_of_split_length _ _ _ Hy) as (l1 & l2 & -> & Hoff).
  rewrite Hoff, drop_app_length. simpl. by apply wp_ret.
Qed.

Lemma sv_wp_assign_copy_at_inside p q y blk blkq s (Q : unit → _ → Prop) E :
  block_at (mem s) (base p) = Some blk →
  off p + 1 ≤ length blk →
  block_at (mem s) (base q) = Some blkq →
  blkq !! off q = Some y →
  (copy_throws y = false →
   Q tt (State (this s) (set_block (mem s) (base p) (splice blk (off p) [y])))) →
  (copy_throws y = true → E element_failure s) →
  wp (assign_copy_at p (inside q)) s Q E.
Proof.
  intros Hb Hle Hbq Hy HQ HE. unfold assign_copy_at.
  apply wp_bind. eapply wp_read_cells; [done.. |].
  apply wp_bind. eapply sv_wp_read_ref_inside; [done.. |].
  destruct (copy_throws y); [apply wp_throw; auto |].
  eapply wp_write_cells; [done.. |]. auto.
Qed.

(* PushBack(v[j]) with room: the element is read as it is *)
Lemma sv_wp_PushBack_element_room j y s xs r rest (Q : unit → _ → Prop) E :
  srep s xs (r :: rest) →
  xs !! j = Some y →
  (∀ s', copy_throws y = false →
     srep s' (xs ++ [y]) rest →
     this s' = set_size (this s) (length xs + 1) →
     sframe s s' → Q tt s') →
  (copy_throws y = true → E element_failure s) →
  wp (PushBack (element (this s) j)) s Q E.
Proof.
  intros Hrep Hy HQ HE.
  pose proof Hrep as (Hsz & Hcap & Hfit & Hblk).
  pose proof (lookup_lt_Some _ _ _ Hy) as Hj.
  destruct s as [[b sz c] h]. simpl in *. subst sz c.
  unfold PushBack, element. apply wp_bind, wp_get_this. simpl.
  assert (size_add (length xs) 1 = length xs + 1) as Hs1 by size_lia.
  rewrite Hs1. rewrite decide_False by lia.
  apply wp_bind.
  eapply (sv_wp_assign_copy_at_inside _ _ y); simpl;
    [solve_block_at | len_tac | solve_block_at | by rewrite lookup_app_l | | done].
  intros Hok. apply wp_bind, wp_get_this, wp_put_this. simpl.
  lazymatch goal with |- Q _ ?s' => apply (HQ s'); [done | | | ] end.
  - srep_tac. block_is. list_ext.
  - simpl. by rewrite Hs1.
  - intros c blk Hc Hblk'. simpl in *. split; [solve_kept | done].
Qed.

(* PushBack(v[j]) on a full vector: the element is read after ReallocateCopy
   has moved it away *)
Lemma sv_wp_PushBack_element_full j y s xs (Q : unit → _ → Prop) E :
  srep s xs [] →
  xs !! j = Some y →
  doubles (length xs) →
  (∀ s' rest', copy_throws (moved_from y) = false →
     srep s' (xs ++ [moved_from y]) rest' →
     capacity_ (this s') = 2 * length xs →
     sframe s s' → Q tt s') →
  (∀ s', copy_throws (moved_from y) = true → this s' = this s →
     srep s' (moved_from <$> xs) [] → sframe s s' → E element_failure s') →
  wp (PushBack (element (this s) j)) s Q E.
Proof.
  intros Hrep Hy Hdbl HQ HE.
  pose proof Hrep as (Hsz & Hcap & Hfit & Hblk).
  pose proof (lookup_lt_Some _ _ _ Hy) as Hj.
  destruct s as [[b sz c] h]. simpl in *. subst sz c.
  unfold PushBack, element. apply wp_bind, wp_get_this. simpl.
  apply wp_bind. rewrite Nat.add_0_r in *.
  assert (size_add (length xs) 1 = length xs + 1) as Hs1 by size_lia.
  assert ((length xs + 1) `max` size_mul (length xs) 2 = 2 * length xs)
    as Hnew by size_lia.
  rewrite Hs1, Hnew. rewrite decide_True by lia.
  apply wp_bind. eapply sv_wp_ReallocateCopy; [done | lia | lia |].
  simpl. intros a Ha Hne. rewrite app_nil_r.
  apply wp_bind, wp_unwind.
  eapply (sv_wp_assign_copy_at_inside _ _ (moved_from y)
            (xs ++ replicate (2 * length xs - length xs) array_init)
            (moved_from <$> xs)); simpl;
    [solve_block_at | len_tac | solve_block_at
    | by rewrite list_lookup_fmap, Hy | |].
  - intros Hok.
    apply wp_bind, wp_put_this. simpl.
    eapply sv_wp_ArrayPtr_destroy; [solve_block_at |]. simpl.
    apply wp_bind, wp_get_this, wp_put_this. simpl.
    lazymatch goal with
    | |- Q _ ?s' =>
        apply (HQ s' (replicate (2 * length xs - length xs - 1) array_init));
        [done | | cap_tac |]
    end.
    + srep_tac. block_is. list_ext.
    + intros c blk Hc Hblk'. simpl in *.
      assert (c ≠ a) by congruence.
      split; [solve_kept | congruence].
  - intros Hbad.
    eapply sv_wp_ArrayPtr_destroy; [solve_block_at |]. simpl.
    lazymatch goal with |- E _ ?s' => apply (HE s'); [done | done | |] end.
    + srep_tac. rewrite !free_block_set_block. rewrite app_nil_r. block_is.
    + intros c blk Hc Hblk'. simpl in *.
      assert (c ≠ a) by congruence.
      split; [solve_kept | done].
Qed.

End SimpleOwnElements.

Section SimpleOwnElementsInsert.
Context {T : Type} `{!Element T}.
Implicit Types (s : state Simple.SimpleVector T) (xs rest : list T).
Import Simple.

(* Insert(pos, v[j]) with room: the element is read after the shift, which
   has put the old element j - 1 at every place j behind the position *)
Lemma sv_wp_Insert_element_room j z s xs r rest p (Q : ptr → _ → Prop) E :
  srep s xs (r :: rest) →
  p ≤ length xs →
  j < length xs →
  xs !! (if decide (j ≤ p) then j else j - 1) = Some z →
  copies_ok (drop p xs) = true →
  copy_throws z = false →
  (∀ s', srep s' (take p xs ++ z :: drop p xs) rest →
     this s' = set_size (this s) (length xs + 1) →
     sframe s s' → Q (Ptr (items_ (this s)) p) s') →
  wp (Insert (Ptr (items_ (this s)) p) (element (this s) j)) s Q E.
Proof.
  intros Hrep Hp Hj Hz Hok Hcopy HQ.
  pose proof Hrep as (Hsz & Hcap & Hfit & Hblk).
  destruct s as [[b sz c] h]. simpl in *. subst sz c.
  unfold Insert, element.
  apply wp_bind, wp_get_this. simpl.
  apply wp_bind, sv_wp_distance_from_begin; [done |]. simpl.
  apply wp_bind, sv_wp_assert_position; [simpl; lia |]. simpl.
  apply wp_bind. unfold begin_, end_, ptr_add. simpl.
  assert (size_add (length xs) 1 = length xs + 1) as Hs1 by size_lia.
  rewrite Hs1. rewrite decide_True by lia.
  apply wp_bind.
  eapply (sv_wp_copy_backward _ _ _ (length xs - p) _ (drop p xs));
    [done | simpl; lia | simpl; lia | simpl; lia | solve_block_at | len_tac | list_ext
    | done | len_tac | | congruence].
  intros _. simpl.
  norm_top (take (p + 1) (xs ++ [r]) ++ drop p xs ++ rest).
  apply wp_bind.
  eapply (sv_wp_assign_copy_at_inside _ _ z); simpl;
    [solve_block_at | len_tac | solve_block_at | | | congruence].
  { case_decide as Hjp.
    - rewrite lookup_app_l by len_tac.
      rewrite lookup_take_lt by lia. by rewrite lookup_app_l by lia.
    - rewrite lookup_app_r by len_tac.
      rewrite lookup_app_l by len_tac.
      rewrite lookup_drop. rewrite <-Hz. f_equal. len_tac. }
  intros _. simpl. apply wp_ret.
  apply wp_bind, wp_get_this, wp_bind, wp_put_this, wp_ret. simpl.
  lazymatch goal with |- Q _ ?s' => apply (HQ s'); [| | ] end.
  - srep_tac. block_is. list_ext.
  - simpl. by rewrite Hs1.
  - intros c blk Hc Hblk'. simpl in *. split; [solve_kept | done].
Qed.

End SimpleOwnElementsInsert.

Section SimpleOwnElementsInsertFull.
Context {T : Type} `{!Element T}.
Implicit Types (s : state Simple.SimpleVector T) (xs rest : list T).
Import Simple.

(* Insert(pos, v[j]) on a full vector: the elements are copied into the new
   array, and the element is read from the old one, which is as it was *)
Lemma sv_wp_Insert_element_full j y s xs p (Q : ptr → _ → Prop) E :
  srep s xs [] →
  p ≤ length xs →
  xs !! j = Some y →
  doubles (length xs) →
  copies_ok xs = true →
  copy_throws y = false →
  (∀ s' rest',
     srep s' (take p xs ++ y :: drop p xs) rest' →
     capacity_ (this s') = 2 * length xs →
     sframe s s' → Q (Ptr (items_ (this s')) p) s') →
  wp (Insert (Ptr (items_ (this s)) p) (element (this s) j)) s Q E.
Proof.
  intros Hrep Hp Hy Hdbl Hok Hcopy HQ.
  pose proof Hrep as (Hsz & Hcap & Hfit & Hblk).
  pose proof (lookup_lt_Some _ _ _ Hy) as Hj.
  rewrite (copies_ok_take_drop xs p) in Hok.
  apply andb_prop in Hok as [Hok1 Hok2].
  destruct s as [[b sz c] h]. simpl in *. subst sz c.
  unfold Insert, element.
  apply wp_bind, wp_get_this. simpl.
  apply wp_bind, sv_wp_distance_from_begin; [done |]. simpl.
  apply wp_bind, sv_wp_assert_position; [done |]. simpl.
  apply wp_bind. unfold begin_, end_, ptr_add. simpl.
  rewrite Nat.add_0_r, app_nil_r in *.
  assert (size_add (length xs) 1 = length xs + 1) as Hs1 by size_lia.
  assert ((length xs + 1) `max` size_mul (length xs) 2 = 2 * length xs)
    as Hnew by size_lia.
  rewrite Hs1, Hnew. rewrite decide_False by lia.
  apply wp_bind, sv_wp_ArrayPtr_new; [lia |]. intros a _ Ha. simpl.
  pose proof (block_at_fresh_ne _ _ _ _ Ha Hblk) as Hne.
  apply wp_bind, wp_unwind.
  apply wp_bind.
  eapply (sv_wp_copy_range _ _ _ p _ _ (take p xs));
    [done | simpl; lia | simpl; lia | solve_block_at | len_tac | list_ext
    | solve_block_at | len_tac | | congruence].
  intros _. simpl.
  norm_top (take p xs ++ replicate (2 * length xs - p) array_init).
  apply wp_bind.
  eapply (sv_wp_copy_range _ _ _ (length xs - p) _ _ (drop p xs));
    [done | simpl; lia | simpl; lia | solve_block_at | len_tac | list_ext
    | solve_block_at | len_tac | | congruence].
  intros _. simpl.
  norm_top (take p xs ++ array_init :: drop p xs ++
            replicate (2 * length xs - length xs - 1) array_init).
  eapply (sv_wp_assign_copy_at_inside _ _ y); simpl;
    [solve_block_at | len_tac | solve_block_at | done | | congruence].
  intros _. simpl.
  norm_top (take p xs ++ y :: drop p xs ++
            replicate (2 * length xs - length xs - 1) array_init).
  apply wp_bind, wp_put_this. simpl.
  apply wp_bind. eapply sv_wp_ArrayPtr_destroy; [solve_block_at |]. simpl.
  apply wp_ret, wp_bind, wp_get_this, wp_bind, wp_put_this, wp_ret. simpl.
  lazymatch goal with
  | |- Q _ ?s' =>
      apply (HQ s' (replicate (2 * length xs - length xs - 1) array_init));
      [| cap_tac |]
  end.
  - srep_tac. block_is. by rewrite <-!app_assoc.
  - intros c blk Hc Hblk'. simpl in *.
    assert (c ≠ a) by congruence.
    split; [solve_kept | congruence].
Qed.

End SimpleOwnElementsInsertFull.

Section OwnElementLemmas.
Context {T : Type} `{!Element T}.

Lemma copies_ok_lookup (xs : list T) i x :
  copies_ok xs = true → xs !! i = Some x → copy_throws x = false.
Proof.
  unfold copies_ok. intros Hok Hi.
  destruct (list_elem_of_split_length _ _ _ Hi) as (l1 & l2 & -> & _).
  rewrite forallb_app in Hok. apply andb_prop in Hok as [_ Hok]. simpl in Hok.
  by destruct (copy_throws x).
Qed.

End OwnElementLemmas.
(** * The claims *)

Section Claims.
Context {T : Type} `{!Element T}.



(** C3 (amended): when an append or insert finds the vector full and the
    construction of the new element fails, [Vector] (EmplaceBack, PushBack,
    Emplace, Insert) throws and leaves the whole state as it was, nothing
    having been relocated; [SimpleVector::PushBack] throws and keeps its
    size, capacity and array, but the old elements have by then been moved
    out, so that the array holds their moved-from values. *)
Theorem C3_failed_construction_during_growth
    (s : state Vec.Vector (option T)) (p : nat) (x : T)
    (ss : state Simple.SimpleVector T) (sxs : list T) :
  vec_valid s →
  Vec.Size (this s) = Vec.Capacity (this s) →
  Vec.can_grow (this s) →
  p ≤ Vec.Size (this s) →
  copy_throws x = true →
  srep ss sxs [] →
  Simple.can_grow (this ss) →
  Vec.EmplaceBack None s = Throw element_failure s ∧
  Vec.PushBack x s = Throw element_failure s ∧
  Vec.Emplace (ptr_add (Vec.cbegin (this s)) p) None s = Throw element_failure s ∧
  Vec.Insert (ptr_add (Vec.cbegin (this s)) p) x s = Throw element_failure s ∧
  ∃ ss', Simple.PushBack (Simple.outside x) ss = Throw element_failure ss' ∧
         this ss' = this ss ∧
         srep ss' (moved_from <$> sxs) [].
Proof.
  intros (xs & cap & Hrep) Hfull Hgrow Hp Hx Hsrep Hsgrow.
  pose proof Hrep as (Hsz & Hcap & Hle & Hfit & Hblk).
  unfold Vec.can_grow, Vec.Size, Vec.Capacity, Vec.RawMemory_Capacity in *.
  rewrite Hsz, Hcap in *.
  assert (Vec.EmplaceBack None s = Throw element_failure s) as Hback.
  { apply wp_throws_same. eapply vec_wp_EmplaceBack; [done | done | done | done]. }
  assert (Vec.Emplace (ptr_add (Vec.cbegin (this s)) p) None s = Throw element_failure s)
    as Hemplace.
  { apply wp_throws_same. unfold Vec.cbegin, Vec.GetAddress, ptr_add. simpl.
    eapply vec_wp_Emplace; [done | done | done | done | done | done]. }
  split_and!; [done | | done | |].
  - unfold Vec.PushBack, Vec.copy_construct, bind. by rewrite Hx, Hback.
  - unfold Vec.Insert, Vec.copy_construct. by rewrite Hx.
  - pose proof Hsrep as (Hssz & Hscap & Hsfit & Hsblk).
    unfold Simple.can_grow in Hsgrow. rewrite Hssz, Hscap in Hsgrow. simpl in *.
    rewrite Nat.add_0_r in Hsgrow.
    assert (wp (Simple.PushBack (Simple.outside x)) ss (λ _ _, False)
              (λ e s', e = element_failure ∧ this s' = this ss ∧
                       srep s' (moved_from <$> sxs) [])) as Hwp.
    { eapply sv_wp_PushBack; [done | by auto | congruence | done |].
      intros s' _ _ Hthis Hrep' _. done. }
    apply wp_throws in Hwp as (e & s' & Hrun & -> & Hthis & Hrep').
    by exists s'.
Qed.


(** C5: erasing at position p, 0 <= p < size, by Vector::Erase and
    SimpleVector::Erase returns, without throwing, with the old elements
    before p followed by the old elements behind p, one element fewer in
    all and the capacity as it was; the returned iterator is begin() + p,
    the place of the element that followed the erased one, and is end()
    when the last element was erased. *)
Theorem C5_erase_at_position
    (s : state Vec.Vector (option T)) (xs : list T) (cap p : nat)
    (ss : state Simple.SimpleVector T) (sxs srest : list T) (sp : nat) :
  vrep s xs cap → p < length xs →
  srep ss sxs srest → sp < length sxs →
  wp (Vec.Erase (ptr_add (Vec.cbegin (this s)) p)) s
     (λ r s',
        vrep s' (take p xs ++ drop (S p) xs) cap ∧
        Vec.Size (this s') = length xs - 1 ∧
        r = ptr_add (Vec.begin_ (this s')) p ∧
        (∀ y, xs !! S p = Some y → Vec.deref r s' = Ok y s') ∧
        (S p = length xs → r = Vec.end_ (this s')))
     nothrow ∧
  wp (Simple.Erase (ptr_add (Simple.cbegin (this ss)) sp)) ss
     (λ r s',
        (∃ rest', srep s' (take sp sxs ++ drop (S sp) sxs) rest') ∧
        Simple.GetSize (this s') = length sxs - 1 ∧
        Simple.GetCapacity (this s') = Simple.GetCapacity (this ss) ∧
        r = ptr_add (Simple.begin_ (this s')) sp ∧
        (∀ y, sxs !! S sp = Some y → Simple.deref r s' = Ok y s') ∧
        (S sp = length sxs → r = Simple.end_ (this s')))
     nothrow.
Proof.
  intros Hrep Hp Hsrep Hsp.
  pose proof Hrep as (Hsz & Hcap & Hle & Hfit & Hblk).
  pose proof Hsrep as (Hssz & Hscap & Hsfit & Hsblk).
  split.
  - unfold Vec.cbegin, Vec.GetAddress, ptr_add. simpl.
    eapply vec_wp_Erase; [done | done |].
    intros s' Hrep' _ _.
    assert (Vec.size_ (this s') = length xs - 1) as Hsz'.
    { destruct Hrep' as (-> & _). rewrite length_app, length_take, length_drop. lia. }
    split_and!; [done | done | done | |].
    + intros y Hy. apply (vec_deref_ok p y s' _ cap Hrep').
      rewrite lookup_app_r; rewrite length_take; [| lia].
      replace (p - p `min` length xs) with 0 by lia.
      by rewrite lookup_drop, Nat.add_0_r.
    + intros Hlast. unfold Vec.end_, Vec.begin_, ptr_add. simpl.
      f_equal. lia.
  - unfold Simple.cbegin, ptr_add. simpl.
    eapply sv_wp_Erase; [done | done |].
    intros s' rest' Hrep' Hthis _.
    assert (Simple.size_ (this s') = length sxs - 1) as Hsz' by (by rewrite Hthis).
    split_and!; [by eauto | done | by rewrite Hthis | done | |].
    + intros y Hy. apply (sv_deref_ok sp y s' _ rest' Hrep').
      rewrite lookup_app_r; rewrite length_take; [| lia].
      replace (sp - sp `min` length sxs) with 0 by lia.
      by rewrite lookup_drop, Nat.add_0_r.
    + intros Hlast. unfold Simple.end_, Simple.begin_, ptr_add. simpl.
      f_equal. lia.
Qed.

(** C6 (amended): copy-constructing A from a valid B, none of whose element
    copies throws, returns A with B's size and B's elements in order, in
    storage of its own, and leaves B as it was; the capacity of A is B's
    size for [Vector] and B's capacity for [SimpleVector].  Whatever member
    function is then called on A, B still holds its elements, with its
    size and capacity, whether the call returns or throws. *)
Theorem C6_copy_construction
    (other : Vec.Vector) (s : state Vec.Vector (option T)) (ys : list T) (capo : nat)
    (sother : Simple.SimpleVector) (ss : state Simple.SimpleVector T)
    (sys srest : list T) :
  vrep (State other (mem s)) ys capo → copies_ok ys = true →
  srep (State sother (mem ss)) sys srest → copies_ok sys = true →
  wp (Vec.Vector_copy other) s
     (λ a s',
        vrep (State a (mem s')) ys (length ys) ∧
        Vec.Size a = Vec.Size other ∧
        Vec.Capacity a = Vec.Size other ∧
        vrep (State other (mem s')) ys capo ∧
        (Vec.buffer_ (Vec.data_ a) = None ∨
         Vec.buffer_ (Vec.data_ a) ≠ Vec.buffer_ (Vec.data_ other)) ∧
        ∀ c, Vec.call_pre c a →
          wp (Vec.run_call c) (State a (mem s'))
             (λ _ s'', vec_valid s'' ∧ vrep (State other (mem s'')) ys capo)
             (λ _ s'', vec_valid s'' ∧ vrep (State other (mem s'')) ys capo))
     nothrow ∧
  wp (Simple.SimpleVector_copy sother) ss
     (λ a s',
        (∃ rest', srep (State a (mem s')) sys rest') ∧
        Simple.GetSize a = Simple.GetSize sother ∧
        Simple.GetCapacity a = Simple.GetCapacity sother ∧
        srep (State sother (mem s')) sys srest ∧
        (Simple.items_ a = None ∨ Simple.items_ a ≠ Simple.items_ sother) ∧
        ∀ c, Simple.call_pre c a →
          wp (Simple.run_call c) (State a (mem s'))
             (λ _ s'', simple_valid s'' ∧ srep (State sother (mem s'')) sys srest)
             (λ _ s'', simple_valid s'' ∧ srep (State sother (mem s'')) sys srest))
     nothrow.
Proof.
  intros Hrep Hok Hsrep Hsok. split.
  - eapply vec_wp_Vector_copy; [done | | congruence].
    intros a s' _ _ Hrep' Hkept Hfresh.
    pose proof Hrep as (Hsz & Hcap & Hle & Hfit & Hblk).
    pose proof Hrep' as (Hsz' & Hcap' & _).
    assert (vrep (State other (mem s')) ys capo) as Hother.
    { eapply vrep_other_kept; [done |]. intros c blk _. apply Hkept. }
    assert (Vec.buffer_ (Vec.data_ other) = None ∨
            Vec.buffer_ (Vec.data_ other) ≠ Vec.buffer_ (Vec.data_ a)) as Hsep.
    { destruct (Vec.buffer_ (Vec.data_ other)) as [c|] eqn:Hb; [| by left].
      right. intros Heq. symmetry in Heq. specialize (Hfresh c Heq).
      simpl in Hblk. rewrite Hb in Hblk. unfold block_at in Hblk. congruence. }
    simpl in *.
    split_and!; [done | unfold Vec.Size; congruence
                | unfold Vec.Capacity, Vec.RawMemory_Capacity, Vec.Size; congruence
                | done | | ].
    + destruct Hsep as [-> | Hne]; [| right; congruence].
      destruct (Vec.buffer_ (Vec.data_ a)); [by right | by left].
    + intros c Hpre.
      eapply wp_mono; [by eapply (vec_wp_run_call c (State a (mem s'))) | |].
      * intros _ s'' [Hval Hfr]. split; [done |].
        by eapply (vrep_frame (State a (mem s')) s'').
      * intros e s'' (_ & Hval & Hfr). split; [done |].
        by eapply (vrep_frame (State a (mem s')) s'').
  - eapply sv_wp_SimpleVector_copy; [done | | congruence].
    intros a s' _ _ Hrep' Hkept Hfresh.
    pose proof Hsrep as (Hsz & Hcap & Hfit & Hblk).
    pose proof Hrep' as (Hsz' & Hcap' & _).
    assert (srep (State sother (mem s')) sys srest) as Hother.
    { eapply srep_other_kept; [done |]. intros c blk _. apply Hkept. }
    assert (Simple.items_ sother = None ∨ Simple.items_ sother ≠ Simple.items_ a)
      as Hsep.
    { destruct (Simple.items_ sother) as [c|] eqn:Hb; [| by left].
      right. intros Heq. symmetry in Heq. specialize (Hfresh c Heq).
      simpl in Hblk. rewrite Hb in Hblk. unfold block_at in Hblk. congruence. }
    simpl in *.
    split_and!; [by eauto | unfold Simple.GetSize; congruence
                | unfold Simple.GetCapacity; rewrite Hcap', Hcap, length_replicate; done
                | done | | ].
    + destruct Hsep as [-> | Hne]; [| right; congruence].
      destruct (Simple.items_ a); [by right | by left].
    + intros c Hpre.
      eapply wp_mono; [by eapply (sv_wp_run_call c (State a (mem s'))) | |].
      * intros _ s'' [Hval Hfr]. split; [done |].
        by eapply (srep_frame (State a (mem s')) s'').
      * intros e s'' (_ & Hval & Hfr). split; [done |].
        by eapply (srep_frame (State a (mem s')) s'').
Qed.

(** C7: on a valid SimpleVector, At(index) throws std::out_of_range with the
    message index >= size exactly when index >= size, and otherwise returns
    the element at that index; either way the vector and the memory are
    left as they were. *)
Theorem C7_checked_access
    (ss : state Simple.SimpleVector T) (sxs srest : list T) (i : nat) :
  srep ss sxs srest →
  (Simple.GetSize (this ss) ≤ i →
     Simple.At i ss = Throw (out_of_range "index >= size") ss) ∧
  (∀ x, sxs !! i = Some x → Simple.At i ss = Ok x ss) ∧
  (i < Simple.GetSize (this ss) → ∃ x, sxs !! i = Some x ∧ Simple.At i ss = Ok x ss) ∧
  ((∃ e s', Simple.At i ss = Throw e s') ↔ Simple.GetSize (this ss) ≤ i).
Proof.
  intros Hrep. pose proof Hrep as (Hsz & _). unfold Simple.GetSize.
  assert (Simple.size_ (this ss) ≤ i →
          Simple.At i ss = Throw (out_of_range "index >= size") ss) as Hout.
  { intros Hi. apply wp_throws_same. by apply sv_wp_At_out_of_range. }
  assert (∀ x, sxs !! i = Some x → Simple.At i ss = Ok x ss) as Hin.
  { intros x Hx. apply wp_returns_same. by eapply sv_wp_At_in_range. }
  split_and!; [done | done | |].
  - intros Hi. rewrite Hsz in Hi.
    destruct (lookup_lt_is_Some_2 sxs i Hi) as [x Hx]. eauto.
  - split; [| by eauto].
    intros (e & s' & Hthrow).
    destruct (decide (Simple.size_ (this ss) ≤ i)) as [| Hlt]; [done |].
    rewrite Hsz in Hlt.
    destruct (lookup_lt_is_Some_2 sxs i) as [x Hx]; [lia |].
    rewrite (Hin x Hx) in Hthrow. done.
Qed.

(** C8 (amended): Resize(newSize) on a valid vector.  [Vector], for newSize
    whose byte count newSize * sizeof(T) is a size_t: for newSize < size
    the elements from newSize on are destroyed, the first newSize elements
    and the capacity stay (so Resize(0) keeps the capacity); for newSize >=
    size the old elements stay, value-initialised elements follow them up
    to newSize, and the capacity is newSize when that exceeded it and
    unchanged otherwise.  [SimpleVector]: for newSize <= size only the
    size is lowered, the array and the capacity staying as they were, no
    object being destroyed; for size < newSize <= capacity the objects from
    size to newSize are assigned [Type()] in place; for newSize > capacity
    the capacity becomes max(newSize, 2 * capacity), the doubling taken as
    size_t arithmetic.  In both, a Resize that throws leaves the size as it
    was. *)
Theorem C8_resize
    (s : state Vec.Vector (option T)) (xs : list T) (cap n : nat)
    (ss : state Simple.SimpleVector T) (sxs srest : list T) :
  vrep s xs cap → allocatable n → srep ss sxs srest → fits n →
  wp (Vec.Resize n) s
     (λ _ s',
        Vec.Size (this s') = n ∧
        (n < length xs → vrep s' (take n xs) cap) ∧
        (length xs ≤ n →
         vrep s' (xs ++ replicate (n - length xs) default_value) (cap `max` n)) ∧
        (cap < n → Vec.Capacity (this s') = n) ∧
        (n ≤ cap → Vec.Capacity (this s') = cap))
     (λ e s', e = element_failure ∧ length xs ≤ n ∧
              Vec.Size (this s') = Vec.Size (this s) ∧
              ∃ cap', vrep s' xs cap') ∧
  wp (Simple.Resize n) ss
     (λ _ s',
        Simple.GetSize (this s') = n ∧
        (n ≤ length sxs →
         srep s' (take n sxs) (drop n sxs ++ srest) ∧
         mem s' = mem ss ∧ this s' = Simple.set_size (this ss) n) ∧
        (length sxs < n → n ≤ Simple.GetCapacity (this ss) →
         srep s' (sxs ++ replicate (n - length sxs) default_value)
              (drop (n - length sxs) srest) ∧
         this s' = Simple.set_size (this ss) n) ∧
        (Simple.GetCapacity (this ss) < n →
         (∃ rest', srep s' (sxs ++ replicate (n - length sxs) default_value) rest') ∧
         Simple.GetCapacity (this s') =
           n `max` size_mul (Simple.GetCapacity (this ss)) 2))
     (λ e s', e = element_failure ∧ length sxs < n ∧
              Simple.GetSize (this s') = Simple.GetSize (this ss) ∧
              Simple.GetCapacity (this s') = Simple.GetCapacity (this ss)).
Proof.
  intros Hrep Hbytes Hsrep Hn. split.
  - pose proof Hrep as (Hsz & Hcap & Hle & Hfit & Hblk).
    unfold Vec.Size, Vec.Capacity, Vec.RawMemory_Capacity.
    eapply vec_wp_Resize; [done | done | | |].
    + intros s' Hlt Hrep' _. pose proof Hrep' as (Hsz' & Hcap' & _).
      rewrite length_take in Hsz'.
      split_and!; [lia | done | intros; lia | intros; lia | done].
    + intros s' Hge _ _ Hrep' _. pose proof Hrep' as (Hsz' & Hcap' & _).
      rewrite length_app, length_replicate in Hsz'.
      split_and!; [lia | intros; lia | done | intros; lia | intros; lia].
    + intros s' Hge [(_ & _ & ->) | (_ & _ & Hrep')] _.
      * split_and!; [done | done | done | by eauto].
      * pose proof Hrep' as (Hsz' & _).
        split_and!; [done | done | congruence | by eauto].
  - pose proof Hsrep as (Hsz & Hcap & Hfit & Hblk).
    unfold Simple.GetSize, Simple.GetCapacity. rewrite Hcap.
    eapply sv_wp_Resize; [done | done | | | | |].
    + intros s' Hle Hrep' Hthis Hmem. pose proof Hrep' as (Hsz' & _).
      rewrite length_take in Hsz'.
      split_and!; [lia | done | intros; lia | intros; lia].
    + intros s' Hlt Hle _ _ Hrep' Hthis _. pose proof Hrep' as (Hsz' & _).
      rewrite length_app, length_replicate in Hsz'.
      split_and!; [lia | intros; lia | done | intros; lia].
    + intros s' rest' Hlt _ _ Hrep' Hcap' _. pose proof Hrep' as (Hsz' & _).
      rewrite length_app, length_replicate in Hsz'.
      split_and!; [lia | intros; lia | intros; lia |].
      intros _. split; [by eauto |]. by rewrite Hcap', Hcap.
    + intros Hlt Hle _. split_and!; [done | done | done | done].
    + intros s' Hlt _ Hthis _ _. rewrite Hthis.
      split_and!; [done | lia | done | done].
Qed.

(** C10: PopBack on an empty SimpleVector returns normally and changes
    nothing: the vector (size, capacity, array) and the memory are as
    before, and the size does not wrap around. *)
Theorem C10_pop_back_on_empty (ss : state Simple.SimpleVector T) :
  Simple.IsEmpty (this ss) = true →
  Simple.PopBack ss = Ok tt ss.
Proof.
  intros Hempty. unfold Simple.IsEmpty, Simple.GetSize in Hempty.
  apply bool_decide_eq_true in Hempty.
  apply wp_returns_same. by apply sv_wp_PopBack_empty.
Qed.

(** C9: in every state a program reaches from no objects at all by
    constructing vectors (every constructor), ending their lifetimes and
    calling Reserve, Resize, Clear, the appends, PopBack, Insert, Emplace,
    Erase, element assignment, swap and both assignments on them, within
    the contract of each call (for a Vector, sizes asked for whose byte
    count is a size_t) and whether calls return or throw, every vector has
    size <= capacity; and from such a state every statement within its
    contract runs to a state of the same kind. *)
Theorem C9_size_within_capacity
    (w : world (Obj:=Vec.Vector) (Cell:=option T))
    (sw : world (Obj:=Simple.SimpleVector) (Cell:=T)) :
  Vec.reachable w →
  Simple.reachable sw →
  (∀ k v, objs w !! k = Some v → Vec.Size v ≤ Vec.Capacity v) ∧
  (∀ st, Vec.pre st w → ∃ w', Vec.exec st w = Some w' ∧ Vec.reachable w') ∧
  (∀ k v, objs sw !! k = Some v → Simple.GetSize v ≤ Simple.GetCapacity v) ∧
  (∀ st, Simple.pre st sw → ∃ w', Simple.exec st sw = Some w' ∧ Simple.reachable w').
Proof.
  intros Hw Hsw.
  pose proof (vec_reachable_winv w Hw) as Hinv.
  pose proof (simple_reachable_winv sw Hsw) as Hsinv.
  split_and!.
  - intros k v Hk. destruct Hinv as [Hval _].
    destruct (Hval k v Hk) as (xs & cap & (Hsz & Hcap & Hle & _)). simpl in *.
    unfold Vec.Size, Vec.Capacity, Vec.RawMemory_Capacity. lia.
  - intros st Hpre.
    destruct (vec_exec_keeps st w Hinv Hpre) as (w' & Hexec & _).
    exists w'. split; [done |]. by eapply Vec.reach_exec.
  - intros k v Hk. destruct Hsinv as [Hval _].
    destruct (Hval k v Hk) as (xs & rest & (Hsz & Hcap & _)). simpl in *.
    unfold Simple.GetSize, Simple.GetCapacity. lia.
  - intros st Hpre.
    destruct (simple_exec_keeps st sw Hsinv Hpre) as (w' & Hexec & _).
    exists w'. split; [done |]. by eapply Simple.reach_exec.
Qed.

End Claims.

(** * The claims on the examples *)

Section Examples.
Local Ltac evaluated :=
  repeat lazymatch goal with
         | |- _ ∧ _ => split
         | |- ∃ _, _ => eexists
         | |- _ → _ => intros ?
         end;
  first [reflexivity | lia | vm_compute; reflexivity | vm_compute; lia].




(** C3, as stated, fails for SimpleVector::PushBack: the vector holding 1, 2
    in a full array of two is asked to append the handle on 13, whose copy
    throws; the exception leaves it holding 0, 0, the moved-from values, not
    1, 2. *)
Lemma C3_simple_push_back_counterexample :
  Simple.get 0 simple_full_12 = Ok 1 simple_full_12 ∧
  Simple.get 1 simple_full_12 = Ok 2 simple_full_12 ∧
  Simple.GetSize (this simple_full_12) = Simple.GetCapacity (this simple_full_12) ∧
  copy_throws 13 = true ∧
  ∃ s', Simple.PushBack (Simple.outside 13) simple_full_12 = Throw element_failure s' ∧
        s' ≠ simple_full_12 ∧
        Simple.get 0 s' = Ok 0 s' ∧
        Simple.get 1 s' = Ok 0 s'.
Proof.
  split_and!; [reflexivity | reflexivity | reflexivity | reflexivity |].
  exists (State {| Simple.items_ := Some 1%positive; Simple.size_ := 2;
                   Simple.capacity_ := 2 |} {[ 1%positive := [0; 0] ]}).
  split_and!; [vm_compute; reflexivity | | reflexivity | reflexivity].
  intros Heq. apply (f_equal (λ s, mem s !! 1%positive)) in Heq.
  vm_compute in Heq. discriminate.
Qed.

Lemma C3_failed_construction_during_growth_witness :
  Vec.EmplaceBack None vec_full_12 = Throw element_failure vec_full_12 ∧
  Vec.PushBack 13 vec_full_12 = Throw element_failure vec_full_12 ∧
  Vec.Emplace (ptr_add (Vec.cbegin (this vec_full_12)) 1) None vec_full_12 =
    Throw element_failure vec_full_12 ∧
  Vec.Insert (ptr_add (Vec.cbegin (this vec_full_12)) 1) 13 vec_full_12 =
    Throw element_failure vec_full_12 ∧
  ∃ ss', Simple.PushBack (Simple.outside 13) simple_full_12 = Throw element_failure ss' ∧
         this ss' = this simple_full_12 ∧
         srep ss' (moved_from <$> [1; 2]) [].
Proof.
  apply (C3_failed_construction_during_growth vec_full_12 1 13 simple_full_12 [1; 2]).
  - exists [1; 2], 2. unfold vrep. simpl. evaluated.
  - reflexivity.
  - intros _. vm_compute. reflexivity.
  - simpl. lia.
  - reflexivity.
  - unfold srep. simpl. evaluated.
  - intros _. vm_compute. reflexivity.
Defined.



Lemma C5_erase_at_position_witness :
  wp (Vec.Erase (ptr_add (Vec.cbegin (this vec_full_12)) 0)) vec_full_12
     (λ r s',
        vrep s' (take 0 [1; 2] ++ drop 1 [1; 2]) 2 ∧
        Vec.Size (this s') = length [1; 2] - 1 ∧
        r = ptr_add (Vec.begin_ (this s')) 0 ∧
        (∀ y, [1; 2] !! 1 = Some y → Vec.deref r s' = Ok y s') ∧
        (1 = length [1; 2] → r = Vec.end_ (this s')))
     nothrow ∧
  wp (Simple.Erase (ptr_add (Simple.cbegin (this simple_roomy_123)) 2)) simple_roomy_123
     (λ r s',
        (∃ rest', srep s' (take 2 [1; 2; 3] ++ drop 3 [1; 2; 3]) rest') ∧
        Simple.GetSize (this s') = length [1; 2; 3] - 1 ∧
        Simple.GetCapacity (this s') = Simple.GetCapacity (this simple_roomy_123) ∧
        r = ptr_add (Simple.begin_ (this s')) 2 ∧
        (∀ y, [1; 2; 3] !! 3 = Some y → Simple.deref r s' = Ok y s') ∧
        (3 = length [1; 2; 3] → r = Simple.end_ (this s')))
     nothrow.
Proof.
  apply (C5_erase_at_position vec_full_12 [1; 2] 2 0 simple_roomy_123 [1; 2; 3] [0] 2).
  - unfold vrep. simpl. evaluated.
  - simpl. lia.
  - unfold srep. simpl. evaluated.
  - simpl. lia.
Defined.

(** C6, as stated, fails for SimpleVector: the copy of a vector holding
    1, 2, 3 in an array of four has capacity 4, the capacity of the
    original, not 3, its size. *)
Lemma C6_simple_copy_capacity_counterexample :
  Simple.GetSize (this simple_roomy_123) = 3 ∧
  ∃ a s', Simple.SimpleVector_copy (this simple_roomy_123) simple_roomy_123 = Ok a s' ∧
          Simple.GetSize a = 3 ∧
          Simple.GetCapacity a = 4 ∧
          Simple.GetCapacity a ≠ Simple.GetSize (this simple_roomy_123).
Proof.
  split; [reflexivity |].
  eexists _, _. split_and!; [vm_compute; reflexivity | reflexivity | reflexivity |].
  vm_compute. discriminate.
Qed.

Lemma C6_copy_construction_witness :
  wp (Vec.Vector_copy (this vec_full_12)) vec_full_12
     (λ a s',
        vrep (State a (mem s')) [1; 2] (length [1; 2]) ∧
        Vec.Size a = Vec.Size (this vec_full_12) ∧
        Vec.Capacity a = Vec.Size (this vec_full_12) ∧
        vrep (State (this vec_full_12) (mem s')) [1; 2] 2 ∧
        (Vec.buffer_ (Vec.data_ a) = None ∨
         Vec.buffer_ (Vec.data_ a) ≠ Vec.buffer_ (Vec.data_ (this vec_full_12))) ∧
        ∀ c, Vec.call_pre c a →
          wp (Vec.run_call c) (State a (mem s'))
             (λ _ s'', vec_valid s'' ∧ vrep (State (this vec_full_12) (mem s'')) [1; 2] 2)
             (λ _ s'', vec_valid s'' ∧ vrep (State (this vec_full_12) (mem s'')) [1; 2] 2))
     nothrow ∧
  wp (Simple.SimpleVector_copy (this simple_roomy_123)) simple_roomy_123
     (λ a s',
        (∃ rest', srep (State a (mem s')) [1; 2; 3] rest') ∧
        Simple.GetSize a = Simple.GetSize (this simple_roomy_123) ∧
        Simple.GetCapacity a = Simple.GetCapacity (this simple_roomy_123) ∧
        srep (State (this simple_roomy_123) (mem s')) [1; 2; 3] [0] ∧
        (Simple.items_ a = None ∨
         Simple.items_ a ≠ Simple.items_ (this simple_roomy_123)) ∧
        ∀ c, Simple.call_pre c a →
          wp (Simple.run_call c) (State a (mem s'))
             (λ _ s'', simple_valid s'' ∧
                       srep (State (this simple_roomy_123) (mem s'')) [1; 2; 3] [0])
             (λ _ s'', simple_valid s'' ∧
                       srep (State (this simple_roomy_123) (mem s'')) [1; 2; 3] [0]))
     nothrow.
Proof.
  apply (C6_copy_construction (this vec_full_12) vec_full_12 [1; 2] 2
           (this simple_roomy_123) simple_roomy_123 [1; 2; 3] [0]).
  - unfold vrep. simpl. evaluated.
  - reflexivity.
  - unfold srep. simpl. evaluated.
  - reflexivity.
Defined.

Lemma C7_checked_access_witness :
  (Simple.GetSize (this simple_full_12) ≤ 2 →
     Simple.At 2 simple_full_12 = Throw (out_of_range "index >= size") simple_full_12) ∧
  (∀ x, [1; 2] !! 2 = Some x → Simple.At 2 simple_full_12 = Ok x simple_full_12) ∧
  (2 < Simple.GetSize (this simple_full_12) →
     ∃ x, [1; 2] !! 2 = Some x ∧ Simple.At 2 simple_full_12 = Ok x simple_full_12) ∧
  ((∃ e s', Simple.At 2 simple_full_12 = Throw e s') ↔
   Simple.GetSize (this simple_full_12) ≤ 2).
Proof.
  apply (C7_checked_access simple_full_12 [1; 2] [] 2).
  unfold srep. simpl. evaluated.
Defined.

(** C8, as stated, fails for SimpleVector: Resize(5) on a vector holding
    1, 2, 3, 4 in a full array of four leaves the capacity at 8, twice the
    old one, not at 5; and Resize(1) destroys nothing, the array still
    holding 1, 2, 3, 4. *)
Lemma C8_simple_resize_counterexample :
  Simple.GetCapacity (this simple_full_1234) = 4 ∧
  (∃ s', Simple.Resize 5 simple_full_1234 = Ok tt s' ∧
         Simple.GetSize (this s') = 5 ∧
         Simple.GetCapacity (this s') = 8 ∧
         Simple.GetCapacity (this s') ≠ 5) ∧
  (∃ s', Simple.Resize 1 simple_full_1234 = Ok tt s' ∧
         Simple.GetSize (this s') = 1 ∧
         mem s' = mem simple_full_1234 ∧
         block_at (mem s') (Simple.items_ (this s')) = Some [1; 2; 3; 4]).
Proof.
  split_and!; [reflexivity | |].
  - eexists. split_and!; [vm_compute; reflexivity | reflexivity | reflexivity |].
    vm_compute. discriminate.
  - eexists. split_and!; [vm_compute; reflexivity | reflexivity | reflexivity |].
    vm_compute. reflexivity.
Qed.

Lemma C8_resize_witness :
  wp (Vec.Resize 5) vec_full_12
     (λ _ s',
        Vec.Size (this s') = 5 ∧
        (5 < length [1; 2] → vrep s' (take 5 [1; 2]) 2) ∧
        (length [1; 2] ≤ 5 →
         vrep s' ([1; 2] ++ replicate (5 - length [1; 2]) default_value) (2 `max` 5)) ∧
        (2 < 5 → Vec.Capacity (this s') = 5) ∧
        (5 ≤ 2 → Vec.Capacity (this s') = 2))
     (λ e s', e = element_failure ∧ length [1; 2] ≤ 5 ∧
              Vec.Size (this s') = Vec.Size (this vec_full_12) ∧
              ∃ cap', vrep s' [1; 2] cap') ∧
  wp (Simple.Resize 5) simple_full_12
     (λ _ s',
        Simple.GetSize (this s') = 5 ∧
        (5 ≤ length [1; 2] →
         srep s' (take 5 [1; 2]) (drop 5 [1; 2] ++ []) ∧
         mem s' = mem simple_full_12 ∧ this s' = Simple.set_size (this simple_full_12) 5) ∧
        (length [1; 2] < 5 → 5 ≤ Simple.GetCapacity (this simple_full_12) →
         srep s' ([1; 2] ++ replicate (5 - length [1; 2]) default_value)
              (drop (5 - length [1; 2]) []) ∧
         this s' = Simple.set_size (this simple_full_12) 5) ∧
        (Simple.GetCapacity (this simple_full_12) < 5 →
         (∃ rest', srep s' ([1; 2] ++ replicate (5 - length [1; 2]) default_value) rest') ∧
         Simple.GetCapacity (this s') =
           5 `max` size_mul (Simple.GetCapacity (this simple_full_12)) 2))
     (λ e s', e = element_failure ∧ length [1; 2] < 5 ∧
              Simple.GetSize (this s') = Simple.GetSize (this simple_full_12) ∧
              Simple.GetCapacity (this s') = Simple.GetCapacity (this simple_full_12)).
Proof.
  apply (C8_resize vec_full_12 [1; 2] 2 5 simple_full_12 [1; 2] []).
  - unfold vrep. simpl. evaluated.
  - vm_compute. reflexivity.
  - unfold srep. simpl. evaluated.
  - vm_compute. reflexivity.
Defined.

Lemma C9_size_within_capacity_witness :
  (∀ k v, objs vec_world_1 !! k = Some v → Vec.Size v ≤ Vec.Capacity v) ∧
  (∀ st, Vec.pre st vec_world_1 →
     ∃ w', Vec.exec st vec_world_1 = Some w' ∧ Vec.reachable w') ∧
  (∀ k v, objs simple_world_12 !! k = Some v →
     Simple.GetSize v ≤ Simple.GetCapacity v) ∧
  (∀ st, Simple.pre st simple_world_12 →
     ∃ w', Simple.exec st simple_world_12 = Some w' ∧ Simple.reachable w').
Proof.
  apply (C9_size_within_capacity vec_world_1 simple_world_12).
  - apply (Vec.reach_exec (Vec.on 0 (Vec.call_append (Vec.push_copy 1)))
             (World {[ 0 := Vec.Vector_default ]} ∅)).
    + apply (Vec.reach_exec (Vec.new_default 0) (World ∅ ∅));
        [apply Vec.reach_start | reflexivity | vm_compute; reflexivity].
    + exists Vec.Vector_default. split; [reflexivity |].
      intros _. vm_compute. reflexivity.
    + vm_compute. reflexivity.
  - apply (Simple.reach_exec (Simple.new_of_list 0 [1; 2]) (World ∅ ∅));
      [apply Simple.reach_start | | vm_compute; reflexivity].
    split; [reflexivity | vm_compute; reflexivity].
Defined.

Lemma C10_pop_back_on_empty_witness :
  Simple.PopBack (State Simple.SimpleVector_default (∅ : gmap addr (list nat))) =
  Ok tt (State Simple.SimpleVector_default ∅).
Proof.
  apply (C10_pop_back_on_empty (State Simple.SimpleVector_default ∅)). reflexivity.
Defined.

End Examples.
(** * Further properties of the code *)

Section VectorProperties.
Context {T : Type} `{!Element T}.
Implicit Types (s : state Vec.Vector (option T)) (xs ys : list T).

(** X1: Vector::Reserve(n) on a valid vector, for n whose byte count
    n * sizeof(T) is a size_t, does nothing at all when n is at most the
    capacity; otherwise it moves the elements, in order, into a block of
    exactly n slots, leaving every other block alone; and when the elements
    are relocated by copy and a copy throws, it throws with the whole state
    as it was. *)
Theorem X1_vector_reserve s xs cap n :
  vrep s xs cap → allocatable n →
  (n ≤ cap → Vec.Reserve n s = Ok tt s) ∧
  (cap < n → relocation_ok xs = true →
     ∃ s', Vec.Reserve n s = Ok tt s' ∧ vrep s' xs n ∧ vframe s s') ∧
  (cap < n → relocation_ok xs = false → Vec.Reserve n s = Throw element_failure s).
Proof.
  intros Hrep Hn. split_and!.
  - intros Hle. apply wp_returns_same.
    eapply vec_wp_Reserve; [done | done | done | intros; lia | intros; lia].
  - intros Hlt Hok.
    assert (wp (Vec.Reserve n) s (λ _ s', vrep s' xs n ∧ vframe s s') nothrow) as Hwp.
    { eapply vec_wp_Reserve; [done | done | intros; lia | done | congruence]. }
    apply wp_returns in Hwp as ([] & s' & Hrun & Hrep' & Hfr). eauto.
  - intros Hlt Hbad. apply wp_throws_same.
    eapply vec_wp_Reserve; [done | done | intros; lia | congruence | done].
Qed.

(** X2: Vector(size), for a size whose byte count size * sizeof(T) is a
    size_t, returns a vector of [size] value-initialised elements in a new
    block of exactly [size] slots, every block there was being left alone;
    when T() throws, the exception leaves the memory exactly as it was, the
    new block having been released. *)
Theorem X2_vector_sized_constructor s n :
  allocatable n →
  (n = 0 ∨ default_throws = false →
     ∃ v s', Vec.Vector_sized n s = Ok v s' ∧
       vrep (State v (mem s')) (replicate n default_value) n ∧
       this s' = this s ∧
       (∀ c blk, mem s !! c = Some blk → mem s' !! c = Some blk) ∧
       (∀ c, Vec.buffer_ (Vec.data_ v) = Some c → mem s !! c = None)) ∧
  (n ≠ 0 → default_throws = true → Vec.Vector_sized n s = Throw element_failure s).
Proof.
  intros Hn. split.
  - intros Hok.
    assert (wp (Vec.Vector_sized n) s
              (λ v s', vrep (State v (mem s')) (replicate n default_value) n ∧
                       this s' = this s ∧
                       (∀ c blk, mem s !! c = Some blk → mem s' !! c = Some blk) ∧
                       (∀ c, Vec.buffer_ (Vec.data_ v) = Some c → mem s !! c = None))
              nothrow) as Hwp.
    { eapply vec_wp_Vector_sized; [done | | intros ? ?; destruct Hok; congruence].
      intros v s' _ Hthis Hrep' Hkept Hfresh. done. }
    apply wp_returns in Hwp as (v & s' & Hrun & Hpost). eauto.
  - intros Hn0 Hd. apply wp_throws_same.
    eapply vec_wp_Vector_sized; [done | intros ? ? [? | ?]; congruence | done].
Qed.

(** X3: constructing a Vector, by Vector(size) for a size whose byte count
    is a size_t or as a copy of a valid vector, and destroying it at once
    leaves the state exactly as it was: what the constructor allocated the
    destructor releases, and nothing else is touched.  When the constructor
    throws, the state is as it was too. *)
Theorem X3_vector_construct_destroy s n other ys capo :
  allocatable n →
  vrep (State other (mem s)) ys capo →
  (n = 0 ∨ default_throws = false →
     (v <- Vec.Vector_sized n;; Vec.Vector_destroy v) s = Ok tt s) ∧
  (copies_ok ys = true →
     (v <- Vec.Vector_copy other;; Vec.Vector_destroy v) s = Ok tt s) ∧
  (copies_ok ys = false → Vec.Vector_copy other s = Throw element_failure s).
Proof.
  intros Hn Hother. split_and!.
  - intros Hok. apply wp_returns_same.
    eapply vec_wp_sized_destroy; [done | done |].
    intros ? ?. destruct Hok; congruence.
  - intros Hok. apply wp_returns_same.
    eapply vec_wp_copy_destroy; [done | done | congruence].
  - intros Hbad. apply wp_throws_same.
    eapply vec_wp_Vector_copy; [done | congruence | done].
Qed.

(** X4: an append (PushBack by copy or move, EmplaceBack) followed by
    PopBack gives back the elements the vector held, in a block at least as
    large; the pair returns whenever the append does. *)
Theorem X4_vector_push_pop s xs cap a :
  vrep s xs cap →
  Vec.can_grow (this s) →
  Vec.append_ok a = true →
  (length xs = cap → relocation_ok xs = true) →
  ∃ s', (Vec.do_append a;;; Vec.PopBack) s = Ok tt s' ∧
        vrep s' xs (if decide (cap = length xs) then 1 `max` (2 * cap) else cap).
Proof.
  intros Hrep Hgrow Hok Hrel.
  pose proof Hrep as (Hsz & Hcap & _).
  unfold Vec.can_grow, Vec.Capacity, Vec.RawMemory_Capacity in Hgrow.
  rewrite Hsz, Hcap in Hgrow.
  assert (wp (Vec.do_append a;;; Vec.PopBack) s
            (λ _ s', vrep s' xs (if decide (cap = length xs)
                                 then 1 `max` (2 * cap) else cap)) nothrow) as Hwp.
  { apply wp_bind. eapply vec_wp_do_append; [done | done | |].
    - intros s' _ _ Hrep' _. eapply vec_wp_PopBack; [done |]. by intros s'' Hrep'' _ _.
    - intros [Hbad | [Hfull Hbad]]; [congruence |].
      rewrite (Hrel Hfull) in Hbad. done. }
  apply wp_returns in Hwp as ([] & s' & Hrun & Hrep'). eauto.
Qed.

(** X5: Vector::PopBack has no check for an empty vector: on a valid empty
    vector the size wraps around to the largest size_t and the element to
    destroy lies outside the block, which the assertion of
    RawMemory::operator+ rejects unless the capacity is that largest size_t
    itself; the call has no defined outcome. *)
Theorem X5_vector_pop_back_empty s cap :
  vrep s [] cap → Vec.PopBack s = Undefined.
Proof.
  intros (Hsz & Hcap & Hle & Hfit & Hblk). simpl in *.
  assert (∃ m, size_sub 0 1 = m ∧ cap ≤ m) as (m & Hm & Hcm)
    by (eexists; split; [reflexivity | size_lia]).
  unfold Vec.PopBack, bind, get_this, put_this, Vec.RawMemory_plus. simpl.
  rewrite Hsz, Hcap, Hm.
  destruct (decide (m ≤ cap)) as [Hmax | Hbig]; [| done].
  (* the capacity is the largest size_t: the address passes the assertion,
     and is one past the end of the block *)
  unfold ret, Vec.destroy_at, Vec.destroy_n, Vec.read_live, bind, read_cells. simpl.
  rewrite Hblk. rewrite raw_block_length by done.
  destruct (decide (m + 1 ≤ cap)) as [Hle' | Hgt]; [lia | done].
Qed.

(** X6: assigning to element i < size through operator[] changes that
    element only: reading i gives the new value, reading any other index
    gives what was there, and size, capacity and block stay; reading at an
    index >= size has no defined outcome, operator[] asserting index <
    size. *)
Theorem X6_vector_element_assignment s xs cap i x :
  vrep s xs cap → i < length xs →
  (∃ s', Vec.set i x s = Ok tt s' ∧
         vrep s' (<[i := x]> xs) cap ∧
         Vec.data_ (this s') = Vec.data_ (this s) ∧
         Vec.get i s' = Ok x s' ∧
         ∀ j y, j ≠ i → xs !! j = Some y → Vec.get j s' = Ok y s') ∧
  (∀ j, length xs ≤ j → Vec.get j s = Undefined).
Proof.
  intros Hrep Hi. split.
  - assert (wp (Vec.set i x) s
              (λ _ s', vrep s' (<[i := x]> xs) cap ∧
                       Vec.buffer_ (Vec.data_ (this s')) = Vec.buffer_ (Vec.data_ (this s)))
              nothrow) as Hwp.
    { eapply vec_wp_set; [done | done |]. by intros s' Hrep' _ Hbuf. }
    apply wp_returns in Hwp as ([] & s' & Hrun & Hrep' & Hbuf).
    exists s'. split_and!; [done | done | | |].
    + destruct Hrep as (_ & Hcap & _). destruct Hrep' as (_ & Hcap' & _).
      destruct (Vec.data_ (this s')), (Vec.data_ (this s)). simpl in *. congruence.
    + eapply vec_get_ok; [done |]. by apply list_lookup_insert_eq.
    + intros j y Hne Hj. eapply vec_get_ok; [done |].
      by rewrite list_lookup_insert_ne.
  - intros j Hj. destruct Hrep as (Hsz & _).
    unfold Vec.get, Vec.index, bind, get_this. rewrite Hsz.
    by rewrite decide_False by lia.
Qed.

(** X7: copy assignment of a valid vector from another one, in storage of
    its own: when it returns, the target holds the source's elements, in
    its old block, kept with its capacity, when that had room for them, and
    otherwise in a block of exactly as many slots as there are elements,
    at an address that was not in use; when an element copy throws, the
    target is still a valid vector in its old block; either way the source
    is as it was.  Assigning a vector to itself does nothing. *)
Theorem X7_vector_copy_assignment s xs cap rhs ys capr :
  vrep s xs cap →
  vrep (State rhs (mem s)) ys capr →
  (Vec.buffer_ (Vec.data_ rhs) = None ∨
   Vec.buffer_ (Vec.data_ rhs) ≠ Vec.buffer_ (Vec.data_ (this s))) →
  wp (Vec.assign_copy (Vec.Other rhs)) s
     (λ _ s', vrep s' ys (if decide (cap < length ys) then length ys else cap) ∧
              (length ys ≤ cap → Vec.data_ (this s') = Vec.data_ (this s)) ∧
              (cap < length ys →
               ∃ c, Vec.buffer_ (Vec.data_ (this s')) = Some c ∧ mem s !! c = None) ∧
              vrep (State rhs (mem s')) ys capr)
     (λ e s', e = element_failure ∧ (∃ zs, vrep s' zs cap) ∧
              Vec.data_ (this s') = Vec.data_ (this s) ∧
              vrep (State rhs (mem s')) ys capr) ∧
  Vec.assign_copy Vec.Self s = Ok tt s.
Proof.
  intros Hrep Hrhs Hsep. split; [| done].
  eapply vec_wp_assign_copy; [done | done | done | |].
  - intros s' Hrep' Hrhs' _ Hkept Hnew. done.
  - intros s' zs Hrep' Hrhs' _ Hkept. eauto.
Qed.

(** X8: move assignment of a Vector takes over the source's block, size
    and capacity and leaves the source empty, with no block; the block the
    target held before is neither released nor are its elements destroyed:
    it stays in memory as it was, owned by no vector. *)
Theorem X8_vector_move_assignment s xs cap rhs :
  vrep s xs cap →
  ∃ s', Vec.assign_move (Vec.Other rhs) s = Ok (Some Vec.Vector_default) s' ∧
        this s' = rhs ∧
        mem s' = mem s ∧
        block_at (mem s') (Vec.buffer_ (Vec.data_ (this s))) = Some (raw_block xs cap) ∧
        Vec.Size Vec.Vector_default = 0 ∧
        Vec.buffer_ (Vec.data_ Vec.Vector_default) = None.
Proof.
  intros (Hsz & Hcap & Hle & Hfit & Hblk).
  exists (State rhs (mem s)). split_and!; [| done | done | done | done | done].
  unfold Vec.assign_move, bind, put_this, ret. simpl. by destruct rhs as [[? ?] ?].
Qed.

(** X9: Vector::Erase called with end() on a non-empty vector does not
    fail: it removes the last element, through PopBack, and returns the new
    end(). *)
Theorem X9_vector_erase_at_end s xs x cap :
  vrep s (xs ++ [x]) cap →
  ∃ s', Vec.Erase (Vec.cend (this s)) s = Ok (Vec.end_ (this s')) s' ∧
        vrep s' xs cap ∧
        Vec.Size (this s') = length xs.
Proof.
  intros Hrep.
  assert (wp (Vec.Erase (Vec.cend (this s))) s
            (λ r s', r = Vec.end_ (this s') ∧ vrep s' xs cap) nothrow) as Hwp.
  { unfold Vec.Erase. apply wp_bind, wp_get_this.
    rewrite decide_True by done.
    apply wp_bind. eapply vec_wp_PopBack; [done |].
    intros s' Hrep' _ _. apply wp_bind, wp_get_this, wp_ret. done. }
  apply wp_returns in Hwp as (r & s' & Hrun & -> & Hrep').
  exists s'. split_and!; [done | done |]. unfold Vec.Size. by destruct Hrep' as (-> & _).
Qed.

(** X10: when a full Vector has to grow, the byte count of the doubled
    block being a size_t, and its elements are relocated by copy (the move
    constructor may throw), a throwing copy of an old
    element, after the new element was constructed, makes EmplaceBack and
    PushBack throw with the whole state as it was, and Emplace and Insert
    throw with the vector and its elements as they were. *)
Theorem X10_vector_relocation_failure s xs cap x p :
  vrep s xs cap →
  length xs = cap →
  allocatable (1 `max` (2 * cap)) →
  relocation_ok xs = false →
  p ≤ length xs →
  Vec.EmplaceBack (Some x) s = Throw element_failure s ∧
  Vec.PushBack_move x s = Throw element_failure s ∧
  wp (Vec.Emplace (ptr_add (Vec.cbegin (this s)) p) (Some x)) s
     (λ _ _, False)
     (λ e s', e = element_failure ∧ this s' = this s ∧ vrep s' xs cap).
Proof.
  intros Hrep Hfull Hdbl Hbad Hp.
  assert (Vec.EmplaceBack (Some x) s = Throw element_failure s) as Hback.
  { apply wp_throws_same.
    eapply vec_wp_EmplaceBack; [done | done | | done].
    intros y s' _ Hok. rewrite (Hok Hfull) in Hbad. done. }
  split_and!; [done | |].
  - unfold Vec.PushBack_move, bind. by rewrite Hback.
  - unfold Vec.cbegin, Vec.GetAddress, ptr_add. simpl.
    eapply vec_wp_Emplace; [done | done | done | | done |].
    + intros y s' _ Hok. rewrite (Hok Hfull) in Hbad. done.
    + intros y s' _ _ _ Hthis Hrep' _. done.
Qed.

(** X11: appends to a valid Vector that has room for them all, for one by
    Reserve, never reallocate: the run returns with the elements appended
    in order, in the same block with the same capacity, so that begin()
    is what it was, and no other block is touched. *)
Theorem X11_vector_appends_within_capacity s xs cap ops :
  vrep s xs cap →
  length xs + length ops ≤ cap →
  forallb Vec.append_ok ops = true →
  ∃ s', Vec.do_appends ops s = Ok tt s' ∧
        vrep s' (xs ++ (Vec.appended <$> ops)) cap ∧
        Vec.begin_ (this s') = Vec.begin_ (this s) ∧
        Vec.Capacity (this s') = Vec.Capacity (this s) ∧
        vframe s s'.
Proof.
  intros Hrep Hroom Hok.
  pose proof (vec_wp_do_appends_room ops s xs cap Hrep Hroom Hok) as Hwp.
  apply wp_returns in Hwp as ([] & s' & Hrun & Hrep' & Hdata & Hfr).
  exists s'. split_and!; [done | done | | | done].
  - unfold Vec.begin_. by rewrite Hdata.
  - unfold Vec.Capacity. by rewrite Hdata.
Qed.

End VectorProperties.

Section SimpleVectorProperties.
Context {T : Type} `{!Element T}.
Implicit Types (s : state Simple.SimpleVector T) (xs ys rest : list T).

(** X12: the constructors SimpleVector(size), SimpleVector(size, value) and
    SimpleVector(initializer_list) return a vector whose size and capacity
    are the number of elements asked for, holding [Type()], [value] or the
    listed values in order, in a new array; when [Type()] or an element
    assignment throws, the exception leaves the whole state as it was, the
    array having been released. *)
Theorem X12_simple_vector_constructors s n x init :
  fits n → fits (length init) →
  let built := λ (xs : list T) (v : Simple.SimpleVector) (s' : state _ T),
    srep (State v (mem s')) xs [] ∧
    Simple.GetSize v = length xs ∧ Simple.GetCapacity v = length xs ∧
    this s' = this s ∧
    (∀ c blk, mem s !! c = Some blk → mem s' !! c = Some blk) ∧
    (∀ c, Simple.items_ v = Some c → mem s !! c = None) in
  let unchanged := λ (e : exn) (s' : state Simple.SimpleVector T),
    e = element_failure ∧ s' = s in
  wp (Simple.SimpleVector_sized n) s (built (replicate n default_value)) unchanged ∧
  wp (Simple.SimpleVector_filled n x) s (built (replicate n x)) unchanged ∧
  wp (Simple.SimpleVector_of_list init) s (built init) unchanged.
Proof.
  intros Hn Hinit built unchanged.
  assert (∀ xs v s', srep (State v (mem s')) xs [] → this s' = this s →
            (∀ c blk, mem s !! c = Some blk → mem s' !! c = Some blk) →
            (∀ c, Simple.items_ v = Some c → mem s !! c = None) →
            built xs v s') as Hbuilt.
  { intros xs v s' Hrep Hthis Hkept Hfresh.
    pose proof Hrep as (Hsz & Hcap & _). simpl in *. rewrite Nat.add_0_r in Hcap.
    unfold built, Simple.GetSize, Simple.GetCapacity. done. }
  split_and!.
  - eapply sv_wp_SimpleVector_sized; [done | | done].
    intros v s' _ Hthis Hrep Hkept Hfresh. by apply Hbuilt.
  - eapply sv_wp_SimpleVector_filled; [done | | done].
    intros v s' _ Hthis Hrep Hkept Hfresh. by apply Hbuilt.
  - eapply sv_wp_SimpleVector_of_list; [done | | done].
    intros v s' _ Hthis Hrep Hkept Hfresh. by apply Hbuilt.
Qed.

(** X13: SimpleVector(Reserve(n)) returns an empty vector of capacity n, and
    appending up to n elements to it, none of whose copies throws, never
    reallocates: the elements are there in order, the array and the
    capacity being those the constructor made. *)
Theorem X13_simple_vector_reserved_then_appends s n ops :
  fits n →
  length ops ≤ n →
  forallb Simple.append_ok ops = true →
  ∃ v s', Simple.SimpleVector_of_proxy (Simple.Reserve_obj n) s = Ok v s' ∧
    Simple.GetSize v = 0 ∧
    Simple.GetCapacity v = n ∧
    ∃ s'', Simple.do_appends ops (State v (mem s')) = Ok tt s'' ∧
      srep s'' (Simple.appended <$> ops) (replicate (n - length ops) array_init) ∧
      Simple.items_ (this s'') = Simple.items_ v ∧
      Simple.GetCapacity (this s'') = n.
Proof.
  intros Hn Hroom Hok.
  assert (wp (Simple.SimpleVector_of_proxy (Simple.Reserve_obj n)) s
            (λ v s', srep (State v (mem s')) [] (replicate n array_init)) nothrow) as Hwp.
  { unfold Simple.SimpleVector_of_proxy, Simple.Reserve_obj,
      Simple.ReserveProxyObj_GetCapacity. simpl.
    eapply sv_wp_SimpleVector_reserved; [done |]. by intros v s' _ Hrep _ _. }
  apply wp_returns in Hwp as (v & s' & Hrun & Hrep).
  pose proof Hrep as (Hsz & Hcap & _). simpl in *. rewrite length_replicate in Hcap.
  exists v, s'. split_and!; [done | done | done |].
  pose proof (sv_wp_do_appends_room ops (State v (mem s')) [] (replicate n array_init)
                Hrep) as Hwp.
  rewrite length_replicate in Hwp. specialize (Hwp Hroom Hok).
  apply wp_returns in Hwp as ([] & s'' & Hrun' & Hrep' & Hitems & Hcap' & _).
  simpl in *. rewrite drop_replicate in Hrep'.
  exists s''. split_and!; [done | done | done |].
  unfold Simple.GetCapacity. congruence.
Qed.

(** X14: Clear keeps the array and the capacity: after Clear on a valid
    vector, appending as many elements as the capacity allows, none of
    whose copies throws, reuses the array, with no allocation, and leaves
    the capacity as it was. *)
Theorem X14_simple_vector_clear_then_appends s xs rest ops :
  srep s xs rest →
  length ops ≤ length xs + length rest →
  forallb Simple.append_ok ops = true →
  ∃ s', (Simple.Clear;;; Simple.do_appends ops) s = Ok tt s' ∧
        srep s' (Simple.appended <$> ops) (drop (length ops) (xs ++ rest)) ∧
        Simple.items_ (this s') = Simple.items_ (this s) ∧
        Simple.GetCapacity (this s') = Simple.GetCapacity (this s).
Proof.
  intros Hrep Hroom Hok.
  assert (wp (Simple.Clear;;; Simple.do_appends ops) s
            (λ _ s', srep s' (Simple.appended <$> ops) (drop (length ops) (xs ++ rest)) ∧
                     Simple.items_ (this s') = Simple.items_ (this s) ∧
                     Simple.capacity_ (this s') = Simple.capacity_ (this s)) nothrow)
    as Hwp.
  { apply wp_bind. eapply sv_wp_Clear; [done |].
    intros s1 Hrep1 Hthis Hmem.
    eapply wp_mono; [eapply (sv_wp_do_appends_room ops s1 [] (xs ++ rest)) | | done].
    - done.
    - rewrite length_app. lia.
    - done.
    - intros _ s' (Hrep' & Hitems & Hcap & _). simpl in *.
      rewrite Hthis in Hitems, Hcap. done. }
  apply wp_returns in Hwp as ([] & s' & Hrun & Hpost). eauto.
Qed.

(** X15: PopBack on a non-empty SimpleVector only lowers the size: the
    memory is untouched, so the popped object is still in the array, where
    the unchecked operator[] reads it at index size, while At refuses that
    index. *)
Theorem X15_simple_vector_pop_back s xs x rest :
  srep s (xs ++ [x]) rest →
  ∃ s', Simple.PopBack s = Ok tt s' ∧
        srep s' xs (x :: rest) ∧
        mem s' = mem s ∧
        Simple.GetCapacity (this s') = Simple.GetCapacity (this s) ∧
        Simple.get (length xs) s' = Ok x s' ∧
        Simple.At (length xs) s' = Throw (out_of_range "index >= size") s'.
Proof.
  intros Hrep.
  assert (wp Simple.PopBack s
            (λ _ s', srep s' xs (x :: rest) ∧ mem s' = mem s ∧
                     this s' = Simple.set_size (this s) (length xs)) nothrow) as Hwp.
  { eapply sv_wp_PopBack; [done |]. by intros s' Hrep' Hthis Hmem. }
  apply wp_returns in Hwp as ([] & s' & Hrun & Hrep' & Hmem & Hthis).
  exists s'. split_and!; [done | done | done | by rewrite Hthis | |].
  - pose proof Hrep' as (Hsz & Hcap & Hfit & Hblk).
    apply wp_returns_same. unfold Simple.get.
    apply wp_bind, wp_get_this.
    apply wp_bind. eapply wp_read_cells; [done | len_tac |]. simpl.
    replace (take 1 (drop (length xs) (xs ++ x :: rest))) with [x] by list_ext.
    by apply wp_ret.
  - apply wp_throws_same. apply sv_wp_At_out_of_range; [| done].
    destruct Hrep' as (-> & _). done.
Qed.

(** X16: SimpleVector::Reserve(n) on a valid vector does nothing at all
    when n is at most the capacity; otherwise it returns, without
    throwing, with the same elements in a new array of exactly n objects,
    leaving every other block alone. *)
Theorem X16_simple_vector_reserve s xs rest n :
  srep s xs rest → fits n →
  (n ≤ length xs + length rest → Simple.Reserve n s = Ok tt s) ∧
  (length xs + length rest < n →
     ∃ s', Simple.Reserve n s = Ok tt s' ∧
           srep s' xs (replicate (n - length xs) array_init) ∧
           Simple.GetCapacity (this s') = n ∧
           sframe s s').
Proof.
  intros Hrep Hn. split.
  - intros Hle. apply wp_returns_same.
    eapply sv_wp_Reserve; [done | done | done | intros; lia].
  - intros Hlt.
    assert (wp (Simple.Reserve n) s
              (λ _ s', srep s' xs (replicate (n - length xs) array_init) ∧ sframe s s')
              nothrow) as Hwp.
    { eapply sv_wp_Reserve; [done | done | intros; lia | done]. }
    apply wp_returns in Hwp as ([] & s' & Hrun & Hrep' & Hfr).
    exists s'. split_and!; [done | done | | done].
    destruct Hrep' as (_ & Hcap & _). unfold Simple.GetCapacity.
    rewrite Hcap, length_replicate. lia.
Qed.

(** X17: copy assignment of a SimpleVector is all or nothing: from a valid
    vector in storage of its own, it either returns with the target
    holding the source's elements and capacity, or, when an element copy
    throws, throws with the whole state as it was; the source is as it was
    either way.  Assigning a vector to itself does nothing. *)
Theorem X17_simple_vector_copy_assignment s xs rest rhs ys restr :
  srep s xs rest →
  srep (State rhs (mem s)) ys restr →
  (Simple.items_ rhs = None ∨ Simple.items_ rhs ≠ Simple.items_ (this s)) →
  (copies_ok ys = true →
     ∃ s', Simple.assign_copy (Simple.Other rhs) s = Ok tt s' ∧
           (∃ rest', srep s' ys rest') ∧
           Simple.GetCapacity (this s') = Simple.GetCapacity rhs ∧
           srep (State rhs (mem s')) ys restr) ∧
  (copies_ok ys = false →
     Simple.assign_copy (Simple.Other rhs) s = Throw element_failure s) ∧
  Simple.assign_copy Simple.Self s = Ok tt s.
Proof.
  intros Hrep Hrhs Hsep. split_and!; [| | done].
  - intros Hok.
    assert (wp (Simple.assign_copy (Simple.Other rhs)) s
              (λ _ s', srep s' ys (replicate (length restr) array_init) ∧
                       srep (State rhs (mem s')) ys restr) nothrow) as Hwp.
    { eapply sv_wp_assign_copy; [done | done | done | | congruence].
      by intros s' _ Hrep' Hrhs' _. }
    apply wp_returns in Hwp as ([] & s' & Hrun & Hrep' & Hrhs').
    exists s'. split_and!; [done | by eauto | | done].
    destruct Hrep' as (_ & Hcap & _). destruct Hrhs as (_ & Hcapr & _). simpl in *.
    unfold Simple.GetCapacity. rewrite Hcap, Hcapr, length_replicate. done.
  - intros Hbad. apply wp_throws_same.
    eapply sv_wp_assign_copy; [done | done | done | congruence | done].
Qed.

(** X18: move assignment of a valid SimpleVector takes over the source's
    array, size and capacity, leaves the source empty with no array, and
    releases the array the target held: no block is left at its address.
    The move constructor takes the array the same way. *)
Theorem X18_simple_vector_move_assignment s xs rest rhs :
  srep s xs rest →
  Simple.assign_move (Simple.Other rhs) s =
    Ok (Some Simple.SimpleVector_default)
       (State rhs (free_block (mem s) (Simple.items_ (this s)))) ∧
  (∀ c, Simple.items_ (this s) = Some c →
     free_block (mem s) (Simple.items_ (this s)) !! c = None) ∧
  Simple.SimpleVector_move rhs = (rhs, Simple.SimpleVector_default) ∧
  Simple.GetSize Simple.SimpleVector_default = 0 ∧
  Simple.GetCapacity Simple.SimpleVector_default = 0.
Proof.
  intros (Hsz & Hcap & Hfit & Hblk). split_and!; [| | done | done | done].
  - unfold Simple.assign_move, Simple.SimpleVector_move, Simple.SimpleVector_destroy,
      Simple.ArrayPtr_destroy, operator_delete, bind, get_this, put_this, ret.
    simpl. unfold block_at, free_block in *.
    destruct (Simple.items_ (this s)) as [c|]; [| done]. by rewrite Hblk.
  - intros c ->. unfold free_block. apply lookup_delete_eq.
Qed.

(** X24: constructing a SimpleVector, by SimpleVector(size, value), from
    an initializer list or as a copy of a valid vector, and destroying it
    at once leaves the state exactly as it was: the array the constructor
    made is released by the destructor, and nothing else is touched. *)
Theorem X24_simple_vector_construct_destroy s n x init other ys resto :
  fits n → fits (length init) →
  srep (State other (mem s)) ys resto →
  (n = 0 ∨ copy_throws x = false →
     (v <- Simple.SimpleVector_filled n x;; Simple.SimpleVector_destroy v) s = Ok tt s) ∧
  (copies_ok init = true →
     (v <- Simple.SimpleVector_of_list init;; Simple.SimpleVector_destroy v) s = Ok tt s) ∧
  (copies_ok ys = true →
     (v <- Simple.SimpleVector_copy other;; Simple.SimpleVector_destroy v) s = Ok tt s).
Proof.
  intros Hn Hinit Hother. split_and!.
  - intros Hok. apply wp_returns_same.
    eapply sv_wp_filled_destroy; [done | done |].
    intros ? ?. destruct Hok; congruence.
  - intros Hok. apply wp_returns_same.
    eapply sv_wp_of_list_destroy; [done | done | congruence].
  - intros Hok. apply wp_returns_same.
    eapply sv_wp_copy_destroy; [done | done | congruence].
Qed.

End SimpleVectorProperties.

Section ComparisonProperties.
Context {T : Type} `{!Element T} `{!Comparable T}.
Implicit Types (s : state Simple.SimpleVector T) (xs ys : list T).

(** X19: operator== on two valid SimpleVectors returns, changing nothing,
    and when the elements' == is equality it returns true exactly when both
    hold the same elements in the same order, whatever their capacities and
    whatever lies in their arrays past the size; operator!= returns the
    opposite. *)
Theorem X19_simple_vector_equality (lhs rhs : Simple.SimpleVector) s xs restl ys restr :
  srep (State lhs (mem s)) xs restl →
  srep (State rhs (mem s)) ys restr →
  (∀ x y, elem_eqb x y = true ↔ x = y) →
  ∃ b, Simple.op_eq lhs rhs s = Ok b s ∧
       Simple.op_ne lhs rhs s = Ok (negb b) s ∧
       (b = true ↔ xs = ys).
Proof.
  intros Hl Hr Heq.
  pose proof (sv_op_eq_ok lhs rhs s xs restl ys restr Hl Hr) as Hrun.
  eexists. split_and!; [done | |].
  - unfold Simple.op_ne, bind. by rewrite Hrun.
  - case_decide as Hlen.
    + split; [done |]. intros ->. done.
    + by apply std_equal_spec.
Qed.

(** X20: on two valid SimpleVectors whose elements' < is a strict total
    order and whose == is equality, the six relational operators return,
    changing nothing; operator< is the lexicographic order of the elements,
    a proper prefix coming first; exactly one of <, == and > is true; <= is
    true exactly when < or == is, and >= exactly when > or == is. *)
Theorem X20_simple_vector_ordering (lhs rhs : Simple.SimpleVector) s xs restl ys restr :
  srep (State lhs (mem s)) xs restl →
  srep (State rhs (mem s)) ys restr →
  (∀ x y, elem_eqb x y = true ↔ x = y) →
  (∀ x, elem_ltb x x = false) →
  (∀ x y, elem_ltb x y = true → elem_ltb y x = false) →
  (∀ x y, elem_ltb x y = false → elem_ltb y x = false → x = y) →
  ∃ lt eq gt,
    Simple.op_lt lhs rhs s = Ok lt s ∧
    Simple.op_eq lhs rhs s = Ok eq s ∧
    Simple.op_gt lhs rhs s = Ok gt s ∧
    Simple.op_le lhs rhs s = Ok (lt || eq) s ∧
    Simple.op_ge lhs rhs s = Ok (gt || eq) s ∧
    lt = Simple.std_lexicographical_compare xs ys ∧
    (∀ zs z, Simple.std_lexicographical_compare zs (zs ++ z :: ys) = true) ∧
    ((lt = true ∧ eq = false ∧ gt = false) ∨
     (lt = false ∧ eq = true ∧ gt = false) ∨
     (lt = false ∧ eq = false ∧ gt = true)).
Proof.
  intros Hl Hr Heq Hirr Hasym Htot.
  pose proof (sv_op_lt_ok lhs rhs s xs restl ys restr Hl Hr) as Hlt.
  pose proof (sv_op_lt_ok rhs lhs s ys restr xs restl Hr Hl) as Hgt.
  pose proof (sv_op_eq_ok lhs rhs s xs restl ys restr Hl Hr) as Heqv.
  set (eq := if decide (length xs ≠ length ys) then false else Simple.std_equal xs ys)
    in *.
  assert (eq = true ↔ xs = ys) as Hb.
  { subst eq. case_decide as Hlen.
    - split; [done |]. intros ->. done.
    - by apply std_equal_spec. }
  assert (xs ≠ ys → eq = false) as Hb'.
  { intros Hne. destruct eq; [| done]. exfalso. by apply Hne, Hb. }
  assert ((Simple.std_lexicographical_compare xs ys = true ∧ eq = false ∧
           Simple.std_lexicographical_compare ys xs = false) ∨
          (Simple.std_lexicographical_compare xs ys = false ∧ eq = true ∧
           Simple.std_lexicographical_compare ys xs = false) ∨
          (Simple.std_lexicographical_compare xs ys = false ∧ eq = false ∧
           Simple.std_lexicographical_compare ys xs = true)) as Hcases.
  { destruct (Simple.std_lexicographical_compare xs ys) eqn:H1.
    - left. split_and!; [done | | by apply std_lexicographical_compare_asym].
      apply Hb'. intros ->.
      by rewrite std_lexicographical_compare_irrefl in H1.
    - destruct (Simple.std_lexicographical_compare ys xs) eqn:H2.
      + right. right. split_and!; [done | | done].
        apply Hb'. intros ->.
        by rewrite std_lexicographical_compare_irrefl in H2.
      + right. left. split_and!; [done | | done].
        apply Hb. by apply std_lexicographical_compare_total. }
  exists (Simple.std_lexicographical_compare xs ys), eq,
         (Simple.std_lexicographical_compare ys xs).
  split_and!; [done | done | done | | | done | | done].
  - unfold Simple.op_le, Simple.op_gt, bind. rewrite Hgt. simpl. f_equal.
    destruct Hcases as [(-> & -> & ->) | [(-> & -> & ->) | (-> & -> & ->)]]; done.
  - unfold Simple.op_ge, bind. rewrite Hlt. simpl. f_equal.
    destruct Hcases as [(-> & -> & ->) | [(-> & -> & ->) | (-> & -> & ->)]]; done.
  - intros zs z. induction zs as [| z' zs IH]; simpl; [done |]. by rewrite Hirr.
Qed.

(** X21: a copy compares equal to its original: after copy-constructing
    from a valid SimpleVector, none of whose element copies throws,
    operator== on the copy and the original returns true, the elements'
    == being reflexive. *)
Theorem X21_simple_vector_copy_is_equal (other : Simple.SimpleVector) s ys resto :
  srep (State other (mem s)) ys resto →
  copies_ok ys = true →
  (∀ x, elem_eqb x x = true) →
  ∃ v s', Simple.SimpleVector_copy other s = Ok v s' ∧
          Simple.op_eq v other s' = Ok true s' ∧
          Simple.op_ne v other s' = Ok false s'.
Proof.
  intros Hother Hok Hrefl.
  assert (wp (Simple.SimpleVector_copy other) s
            (λ v s', (∃ rest', srep (State v (mem s')) ys rest') ∧
                     srep (State other (mem s')) ys resto) nothrow) as Hwp.
  { eapply sv_wp_SimpleVector_copy; [done | | congruence].
    intros v s' _ _ Hrep Hkept _. split; [by eauto |].
    eapply srep_other_kept; [done |]. intros c blk _. apply Hkept. }
  apply wp_returns in Hwp as (v & s' & Hrun & (rest' & Hv) & Ho).
  pose proof (sv_op_eq_ok v other s' ys rest' ys resto Hv Ho) as Heq.
  rewrite decide_False in Heq by (intros Hne; by apply Hne).
  rewrite std_equal_refl in Heq by done.
  exists v, s'. split_and!; [done | done |].
  unfold Simple.op_ne, bind. by rewrite Heq.
Qed.

End ComparisonProperties.

Section ProgramProperties.
Context {T : Type} `{!Element T}.

(** X22: in every state a program over Vectors reaches, each call being
    within its contract (sizes asked for whose byte count is a size_t,
    positions inside the vector, no PopBack on empty), each live vector
    owns a block of exactly capacity slots of which the first size hold
    its elements and the others are raw memory, and no two live vectors own
    the same block, so that no call on one can change another and no block
    is released twice. *)
Theorem X22_vector_programs_never_alias (w : world (Obj:=Vec.Vector) (Cell:=option T)) :
  Vec.reachable w →
  (∀ k v, objs w !! k = Some v →
     ∃ xs, length xs = Vec.Size v ∧
           block_at (heap w) (Vec.buffer_ (Vec.data_ v)) =
             Some ((Some <$> xs) ++ replicate (Vec.Capacity v - Vec.Size v) None)) ∧
  (∀ k k' v v', k ≠ k' → objs w !! k = Some v → objs w !! k' = Some v' →
     Vec.buffer_ (Vec.data_ v) = None ∨
     Vec.buffer_ (Vec.data_ v) ≠ Vec.buffer_ (Vec.data_ v')).
Proof.
  intros Hw. destruct (vec_reachable_winv w Hw) as [Hval Hsep]. split.
  - intros k v Hk. destruct (Hval k v Hk) as (xs & cap & (Hsz & Hcap & _ & _ & Hblk)).
    simpl in *. exists xs. unfold Vec.Size, Vec.Capacity, Vec.RawMemory_Capacity.
    rewrite Hsz, Hcap. done.
  - intros k k' v v' Hne Hk Hk'. apply (Hsep k k' v v' Hne Hk Hk').
Qed.

(** X23: in every state a program over SimpleVectors reaches, each live
    vector owns an array of exactly capacity objects, and no two live
    vectors own the same array. *)
Theorem X23_simple_vector_programs_never_alias
    (w : world (Obj:=Simple.SimpleVector) (Cell:=T)) :
  Simple.reachable w →
  (∀ k v, objs w !! k = Some v →
     ∃ blk, block_at (heap w) (Simple.items_ v) = Some blk ∧
            length blk = Simple.GetCapacity v ∧
            Simple.GetSize v ≤ length blk) ∧
  (∀ k k' v v', k ≠ k' → objs w !! k = Some v → objs w !! k' = Some v' →
     Simple.items_ v = None ∨ Simple.items_ v ≠ Simple.items_ v').
Proof.
  intros Hw. destruct (simple_reachable_winv w Hw) as [Hval Hsep]. split.
  - intros k v Hk. destruct (Hval k v Hk) as (xs & rest & (Hsz & Hcap & _ & Hblk)).
    simpl in *. exists (xs ++ rest). unfold Simple.GetSize, Simple.GetCapacity.
    rewrite Hsz, Hcap, length_app. split_and!; [done | done | lia].
  - intros k k' v v' Hne Hk Hk'. apply (Hsep k k' v v' Hne Hk Hk').
Qed.

End ProgramProperties.

Section SimpleVectorInsertFailures.
Context {T : Type} `{!Element T}.
Implicit Types (s : state Simple.SimpleVector T) (xs rest : list T).

(** X25: Insert by copy of a value that no array holds into a full
    SimpleVector is all or nothing: the elements are copied, not moved,
    into the new array, so when the copy of an old element or of the value
    throws, the call throws with the whole state as it was, the new array
    having been released. *)
Theorem X25_simple_vector_insert_full_failure s xs p x :
  srep s xs [] →
  p ≤ length xs →
  doubles (length xs) →
  copies_ok xs = false ∨ copy_throws x = true →
  Simple.Insert (ptr_add (Simple.cbegin (this s)) p) (Simple.outside x) s =
    Throw element_failure s.
Proof.
  intros Hrep Hp Hdbl Hbad. apply wp_throws_same.
  unfold Simple.cbegin, ptr_add. simpl.
  by eapply sv_wp_Insert_full_fails.
Qed.

(** X26: Insert by copy of a value that no array holds before an element
    of a SimpleVector that has room shifts the elements from the position
    on one place up before it assigns the value; when the copy of the value
    then throws, the call throws with the size unchanged and the array
    holding the element at the position twice, at p and p + 1, followed by
    the elements that came after it: the last element is no longer among
    the first size objects. *)
Theorem X26_simple_vector_insert_in_place_failure s xs r rest p x y :
  srep s xs (r :: rest) →
  xs !! p = Some y →
  copies_ok (drop p xs) = true →
  copy_throws x = true →
  ∃ s', Simple.Insert (ptr_add (Simple.cbegin (this s)) p) (Simple.outside x) s =
          Throw element_failure s' ∧
        this s' = this s ∧
        block_at (mem s') (Simple.items_ (this s')) =
          Some (take p xs ++ y :: y :: drop (S p) xs ++ rest) ∧
        srep s' (take p xs ++ y :: take (length xs - S p) (y :: drop (S p) xs))
             (drop (length xs - S p) (y :: drop (S p) xs) ++ rest).
Proof.
  intros Hrep Hy Hok Hx.
  pose proof (lookup_lt_Some _ _ _ Hy) as Hp.
  pose proof Hrep as (Hsz & Hcap & Hfit & Hblk).
  assert (drop p xs = y :: drop (S p) xs) as Hdrop by (by apply drop_S).
  assert (wp (Simple.Insert (ptr_add (Simple.cbegin (this s)) p) (Simple.outside x)) s
            (λ _ _, False)
            (λ e s', e = element_failure ∧
                     s' = State (this s)
                            (set_block (mem s) (Simple.items_ (this s))
                               (take p xs ++ y :: drop p xs ++ rest)))) as Hwp.
  { unfold Simple.cbegin, ptr_add. simpl.
    by eapply sv_wp_Insert_room_value_fails. }
  apply wp_throws in Hwp as (e & s' & Hrun & -> & ->).
  assert (block_at (set_block (mem s) (Simple.items_ (this s))
                      (take p xs ++ y :: drop p xs ++ rest)) (Simple.items_ (this s))
          = Some (take p xs ++ y :: y :: drop (S p) xs ++ rest)) as Hblk'.
  { rewrite Hdrop. eapply block_at_set_block_len; [done |].
    rewrite !length_app. simpl. rewrite !length_app, length_take, length_drop.
    simpl. lia. }
  eexists. split_and!; [done | done | done |].
  unfold srep. simpl. rewrite Hblk'.
  assert (length (take p xs ++ y :: take (length xs - S p) (y :: drop (S p) xs))
          = length xs) as Hlen.
  { rewrite length_app, length_take. simpl. rewrite length_take. simpl.
    rewrite length_drop. lia. }
  split_and!; [by rewrite Hlen | | done |].
  - rewrite Hcap, Hlen, length_app, length_drop. simpl. rewrite length_drop. lia.
  - f_equal. rewrite <-!app_assoc. simpl. f_equal. f_equal.
    rewrite app_assoc, take_drop. done.
Qed.

End SimpleVectorInsertFailures.

Section VectorAllocationWraps.
Context {T : Type} `{!Element T}.

(** X27: RawMemory hands n * sizeof(T), computed in size_t, to operator
    new.  When n is not 0 and the product wraps around to 0, Reserve(n) on
    an empty vector returns with capacity n over a block that has room for
    no element, and the next EmplaceBack, trusting the capacity, constructs
    its element outside the block: it has no defined outcome.  Vector(n)
    value-initialises n elements outside the block at once. *)
Theorem X27_vector_reserve_wrapping (h : gmap addr (list (option T))) n x :
  n ≠ 0 → bytes_of n = 0 →
  (∃ s', Vec.Reserve n (State Vec.Vector_default h) = Ok tt s' ∧
         Vec.Size (this s') = 0 ∧
         Vec.Capacity (this s') = n ∧
         block_at (mem s') (Vec.buffer_ (Vec.data_ (this s'))) = Some [] ∧
         Vec.EmplaceBack (Some x) s' = Undefined) ∧
  (default_throws = false → Vec.Vector_sized n (State Vec.Vector_default h) = Undefined).
Proof.
  intros Hn Hbytes.
  assert (slots_in 0 = 0) as Hslots by done.
  set (a := fresh (dom h)).
  set (v := {| Vec.data_ := {| Vec.buffer_ := Some a; Vec.capacity_ := n |};
               Vec.size_ := 0 |}).
  split.
  - exists (State v (<[a := []]> h)). split_and!; [| done | done | |].
    + unfold Vec.Reserve, bind, get_this. simpl.
      rewrite decide_False by lia.
      unfold Vec.RawMemory_new, Vec.Allocate, bind. rewrite decide_True by done.
      rewrite Hbytes, Hslots. simpl. fold a.
      unfold unwind, Vec.UnitializedN, Vec.uninitialized_move_n, Vec.uninitialized_copy_n,
        Vec.read_live, bind, read_cells. simpl.
      destruct relocate_by_move; simpl.
      * unfold write_cells. simpl. rewrite lookup_insert_eq. simpl.
        rewrite insert_insert_eq. done.
      * unfold write_cells. simpl. rewrite lookup_insert_eq. simpl.
        rewrite insert_insert_eq. done.
    + simpl. unfold block_at. apply lookup_insert_eq.
    + unfold Vec.EmplaceBack, bind, get_this. simpl.
      unfold Vec.Capacity, Vec.RawMemory_Capacity. simpl.
      rewrite decide_False by done.
      unfold Vec.RawMemory_plus. simpl.
      unfold bind, write_cells. simpl. by rewrite lookup_insert_eq.
  - intros Hd. unfold Vec.Vector_sized, bind.
    unfold Vec.RawMemory_new, Vec.Allocate, bind. rewrite decide_True by done.
    rewrite Hbytes, Hslots. simpl. fold a.
    unfold unwind, Vec.uninitialized_value_construct_n.
    rewrite decide_False by done. rewrite Hd.
    unfold write_cells. simpl. rewrite lookup_insert_eq. simpl.
    rewrite length_replicate. by rewrite decide_False by lia.
Qed.

End VectorAllocationWraps.

Section SimpleVectorOwnElements.
Context {T : Type} `{!Element T}.
Implicit Types (s : state Simple.SimpleVector T) (xs rest : list T).

(** X28: SimpleVector::PushBack(v[j]), the item being an element of the
    vector itself.  With room it appends the value of that element.  On a
    full vector it appends what the move left of the element, not its
    value: the item is read only after ReallocateCopy has moved the
    elements into the new array. *)
Theorem X28_simple_vector_push_back_own_element s xs rest j y :
  srep s xs rest →
  xs !! j = Some y →
  (rest ≠ [] → copy_throws y = false →
     ∃ s', Simple.PushBack (Simple.element (this s) j) s = Ok tt s' ∧
           srep s' (xs ++ [y]) (tail rest) ∧
           Simple.get (length xs) s' = Ok y s') ∧
  (rest = [] → doubles (length xs) → copy_throws (moved_from y) = false →
     ∃ s' rest', Simple.PushBack (Simple.element (this s) j) s = Ok tt s' ∧
           srep s' (xs ++ [moved_from y]) rest' ∧
           Simple.get (length xs) s' = Ok (moved_from y) s').
Proof.
  intros Hrep Hy. split.
  - intros Hroom Hcopy. destruct rest as [| r rest]; [done |].
    assert (wp (Simple.PushBack (Simple.element (this s) j)) s
              (λ _ s', srep s' (xs ++ [y]) rest) nothrow) as Hwp.
    { eapply sv_wp_PushBack_element_room; [done | done | | congruence].
      by intros s' _ Hrep' _ _. }
    apply wp_returns in Hwp as ([] & s' & Hrun & Hrep').
    exists s'. split_and!; [done | done |].
    eapply sv_get_ok; [done |]. by rewrite lookup_app_r, Nat.sub_diag.
  - intros -> Hdbl Hcopy.
    assert (wp (Simple.PushBack (Simple.element (this s) j)) s
              (λ _ s', ∃ rest', srep s' (xs ++ [moved_from y]) rest') nothrow) as Hwp.
    { eapply sv_wp_PushBack_element_full; [done | done | done | | congruence].
      intros s' rest' _ Hrep' _ _. eauto. }
    apply wp_returns in Hwp as ([] & s' & Hrun & rest' & Hrep').
    exists s', rest'. split_and!; [done | done |].
    eapply sv_get_ok; [done |]. by rewrite lookup_app_r, Nat.sub_diag.
Qed.

(** X29: SimpleVector::Insert(pos, v[j]), the value being an element of the
    vector itself, none of whose element copies throws.  With room, the
    elements from the position on are shifted up before the value is read:
    the value inserted is that of v[j] when j is at or before the position,
    and that of v[j - 1], the element the shift put at place j, when j is
    behind it.  On a full vector the elements are copied into a new array
    and the value is read from the old one: the value inserted is that of
    v[j]. *)
Theorem X29_simple_vector_insert_own_element s xs rest p j :
  srep s xs rest →
  p ≤ length xs →
  j < length xs →
  copies_ok xs = true →
  (rest ≠ [] →
     ∃ z s', xs !! (if decide (j ≤ p) then j else j - 1) = Some z ∧
       Simple.Insert (ptr_add (Simple.cbegin (this s)) p) (Simple.element (this s) j) s =
         Ok (ptr_add (Simple.begin_ (this s')) p) s' ∧
       srep s' (take p xs ++ z :: drop p xs) (tail rest)) ∧
  (rest = [] → doubles (length xs) →
     ∃ y s' rest', xs !! j = Some y ∧
       Simple.Insert (ptr_add (Simple.cbegin (this s)) p) (Simple.element (this s) j) s =
         Ok (ptr_add (Simple.begin_ (this s')) p) s' ∧
       srep s' (take p xs ++ y :: drop p xs) rest').
Proof.
  intros Hrep Hp Hj Hok. split.
  - intros Hroom. destruct rest as [| r rest]; [done |].
    destruct (lookup_lt_is_Some_2 xs (if decide (j ≤ p) then j else j - 1))
      as [z Hz]; [case_decide; lia |].
    assert (wp (Simple.Insert (ptr_add (Simple.cbegin (this s)) p)
                  (Simple.element (this s) j)) s
              (λ r' s', r' = ptr_add (Simple.begin_ (this s')) p ∧
                        srep s' (take p xs ++ z :: drop p xs) rest) nothrow) as Hwp.
    { unfold Simple.cbegin, ptr_add. simpl.
      eapply sv_wp_Insert_element_room; [done | done | done | done | | |].
      - rewrite (copies_ok_take_drop xs p) in Hok. by apply andb_prop in Hok as [_ ?].
      - by eapply copies_ok_lookup.
      - intros s' Hrep' Hthis _. split; [| done].
        unfold Simple.begin_. rewrite Hthis. simpl. f_equal. }
    apply wp_returns in Hwp as (r' & s' & Hrun & -> & Hrep').
    exists z, s'. done.
  - intros -> Hdbl.
    destruct (lookup_lt_is_Some_2 xs j Hj) as [y Hy].
    assert (wp (Simple.Insert (ptr_add (Simple.cbegin (this s)) p)
                  (Simple.element (this s) j)) s
              (λ r' s', r' = ptr_add (Simple.begin_ (this s')) p ∧
                        ∃ rest', srep s' (take p xs ++ y :: drop p xs) rest') nothrow)
      as Hwp.
    { unfold Simple.cbegin, ptr_add. simpl.
      eapply sv_wp_Insert_element_full; [done | done | done | done | done | |].
      - by eapply copies_ok_lookup.
      - intros s' rest' Hrep' _ _. split; [| by eauto].
        unfold Simple.begin_. simpl. done. }
    apply wp_returns in Hwp as (r' & s' & Hrun & -> & rest' & Hrep').
    exists y, s', rest'. done.
Qed.

End SimpleVectorOwnElements.

(** * The further properties on the examples *)

Section MoreExamples.

Local Ltac computed :=
  repeat lazymatch goal with
         | |- _ ∧ _ => split
         | |- ∃ _, _ => eexists
         | |- _ → _ => intros ?
         end;
  first [reflexivity | lia | vm_compute; reflexivity | vm_compute; lia].

Lemma X1_vector_reserve_witness :
  (5 ≤ 2 → Vec.Reserve 5 vec_full_12 = Ok tt vec_full_12) ∧
  (2 < 5 → relocation_ok [1; 2] = true →
     ∃ s', Vec.Reserve 5 vec_full_12 = Ok tt s' ∧ vrep s' [1; 2] 5 ∧
           vframe vec_full_12 s') ∧
  (2 < 5 → relocation_ok [1; 2] = false →
     Vec.Reserve 5 vec_full_12 = Throw element_failure vec_full_12).
Proof.
  apply (X1_vector_reserve vec_full_12 [1; 2] 2 5).
  - unfold vrep. simpl. computed.
  - vm_compute. reflexivity.
Defined.

Lemma X2_vector_sized_constructor_witness :
  (3 = 0 ∨ default_throws = false →
     ∃ v s', Vec.Vector_sized 3 vec_full_12 = Ok v s' ∧
       vrep (State v (mem s')) (replicate 3 default_value) 3 ∧
       this s' = this vec_full_12 ∧
       (∀ c blk, mem vec_full_12 !! c = Some blk → mem s' !! c = Some blk) ∧
       (∀ c, Vec.buffer_ (Vec.data_ v) = Some c → mem vec_full_12 !! c = None)) ∧
  (3 ≠ 0 → default_throws = true →
     Vec.Vector_sized 3 vec_full_12 = Throw element_failure vec_full_12).
Proof.
  apply (X2_vector_sized_constructor vec_full_12 3). vm_compute. reflexivity.
Defined.

Lemma X3_vector_construct_destroy_witness :
  (3 = 0 ∨ default_throws = false →
     (v <- Vec.Vector_sized 3;; Vec.Vector_destroy v) vec_full_12 = Ok tt vec_full_12) ∧
  (copies_ok [1; 2] = true →
     (v <- Vec.Vector_copy (this vec_full_12);; Vec.Vector_destroy v) vec_full_12 =
       Ok tt vec_full_12) ∧
  (copies_ok [1; 2] = false →
     Vec.Vector_copy (this vec_full_12) vec_full_12 = Throw element_failure vec_full_12).
Proof.
  apply (X3_vector_construct_destroy vec_full_12 3 (this vec_full_12) [1; 2] 2).
  - vm_compute. reflexivity.
  - unfold vrep. simpl. computed.
Defined.

Lemma X4_vector_push_pop_witness :
  ∃ s', (Vec.do_append (Vec.push_copy 5);;; Vec.PopBack) vec_full_12 = Ok tt s' ∧
        vrep s' [1; 2] (if decide (2 = length [1; 2]) then 1 `max` (2 * 2) else 2).
Proof.
  apply (X4_vector_push_pop vec_full_12 [1; 2] 2 (Vec.push_copy 5)).
  - unfold vrep. simpl. computed.
  - intros _. vm_compute. reflexivity.
  - reflexivity.
  - intros _. reflexivity.
Defined.

Lemma X5_vector_pop_back_empty_witness :
  Vec.PopBack (State Vec.Vector_default (∅ : gmap addr (list (option nat)))) = Undefined.
Proof.
  apply (X5_vector_pop_back_empty (State Vec.Vector_default ∅) 0).
  unfold vrep. simpl. computed.
Defined.

Lemma X6_vector_element_assignment_witness :
  (∃ s', Vec.set 1 7 vec_full_12 = Ok tt s' ∧
         vrep s' (<[1 := 7]> [1; 2]) 2 ∧
         Vec.data_ (this s') = Vec.data_ (this vec_full_12) ∧
         Vec.get 1 s' = Ok 7 s' ∧
         ∀ j y, j ≠ 1 → [1; 2] !! j = Some y → Vec.get j s' = Ok y s') ∧
  (∀ j, length [1; 2] ≤ j → Vec.get j vec_full_12 = Undefined).
Proof.
  apply (X6_vector_element_assignment vec_full_12 [1; 2] 2 1 7).
  - unfold vrep. simpl. computed.
  - simpl. lia.
Defined.

(* assigning 7, 8, 9 to the full vector 1, 2 (a new block), 1, 2 to the
   vector 7, 8, 9 (in place), and 7, 13, 9 to the vector 1, 2 (a copy
   throws) *)
Lemma X7_vector_copy_assignment_witness :
  (wp (Vec.assign_copy (Vec.Other vec_second)) vec_12_and_789
      (λ _ s', vrep s' [7; 8; 9] (if decide (2 < length [7; 8; 9])
                                  then length [7; 8; 9] else 2) ∧
               (length [7; 8; 9] ≤ 2 →
                Vec.data_ (this s') = Vec.data_ (this vec_12_and_789)) ∧
               (2 < length [7; 8; 9] →
                ∃ c, Vec.buffer_ (Vec.data_ (this s')) = Some c ∧
                     mem vec_12_and_789 !! c = None) ∧
               vrep (State vec_second (mem s')) [7; 8; 9] 3)
      (λ e s', e = element_failure ∧ (∃ zs, vrep s' zs 2) ∧
               Vec.data_ (this s') = Vec.data_ (this vec_12_and_789) ∧
               vrep (State vec_second (mem s')) [7; 8; 9] 3) ∧
   Vec.assign_copy Vec.Self vec_12_and_789 = Ok tt vec_12_and_789) ∧
  (wp (Vec.assign_copy (Vec.Other (this vec_12_and_789)))
      (State vec_second (mem vec_12_and_789))
      (λ _ s', vrep s' [1; 2] (if decide (3 < length [1; 2]) then length [1; 2] else 3) ∧
               (length [1; 2] ≤ 3 → Vec.data_ (this s') = Vec.data_ vec_second) ∧
               (3 < length [1; 2] →
                ∃ c, Vec.buffer_ (Vec.data_ (this s')) = Some c ∧
                     mem vec_12_and_789 !! c = None) ∧
               vrep (State (this vec_12_and_789) (mem s')) [1; 2] 2)
      (λ e s', e = element_failure ∧ (∃ zs, vrep s' zs 3) ∧
               Vec.data_ (this s') = Vec.data_ vec_second ∧
               vrep (State (this vec_12_and_789) (mem s')) [1; 2] 2) ∧
   Vec.assign_copy Vec.Self (State vec_second (mem vec_12_and_789)) =
     Ok tt (State vec_second (mem vec_12_and_789))) ∧
  (wp (Vec.assign_copy (Vec.Other vec_second)) vec_12_and_7_13_9
      (λ _ s', vrep s' [7; 13; 9] (if decide (2 < length [7; 13; 9])
                                   then length [7; 13; 9] else 2) ∧
               (length [7; 13; 9] ≤ 2 →
                Vec.data_ (this s') = Vec.data_ (this vec_12_and_7_13_9)) ∧
               (2 < length [7; 13; 9] →
                ∃ c, Vec.buffer_ (Vec.data_ (this s')) = Some c ∧
                     mem vec_12_and_7_13_9 !! c = None) ∧
               vrep (State vec_second (mem s')) [7; 13; 9] 3)
      (λ e s', e = element_failure ∧ (∃ zs, vrep s' zs 2) ∧
               Vec.data_ (this s') = Vec.data_ (this vec_12_and_7_13_9) ∧
               vrep (State vec_second (mem s')) [7; 13; 9] 3) ∧
   Vec.assign_copy Vec.Self vec_12_and_7_13_9 = Ok tt vec_12_and_7_13_9).
Proof.
  split; [| split].
  - apply (X7_vector_copy_assignment vec_12_and_789 [1; 2] 2 vec_second [7; 8; 9] 3).
    + unfold vrep. simpl. computed.
    + unfold vrep. simpl. computed.
    + right. vm_compute. discriminate.
  - apply (X7_vector_copy_assignment (State vec_second (mem vec_12_and_789))
             [7; 8; 9] 3 (this vec_12_and_789) [1; 2] 2).
    + unfold vrep. simpl. computed.
    + unfold vrep. simpl. computed.
    + right. vm_compute. discriminate.
  - apply (X7_vector_copy_assignment vec_12_and_7_13_9 [1; 2] 2 vec_second [7; 13; 9] 3).
    + unfold vrep. simpl. computed.
    + unfold vrep. simpl. computed.
    + right. vm_compute. discriminate.
Defined.

Lemma X8_vector_move_assignment_witness :
  ∃ s', Vec.assign_move (Vec.Other Vec.Vector_default) vec_full_12 =
          Ok (Some Vec.Vector_default) s' ∧
        this s' = Vec.Vector_default ∧
        mem s' = mem vec_full_12 ∧
        block_at (mem s') (Vec.buffer_ (Vec.data_ (this vec_full_12))) =
          Some (raw_block [1; 2] 2) ∧
        Vec.Size Vec.Vector_default = 0 ∧
        Vec.buffer_ (Vec.data_ Vec.Vector_default) = None.
Proof.
  apply (X8_vector_move_assignment vec_full_12 [1; 2] 2 Vec.Vector_default).
  unfold vrep. simpl. computed.
Defined.

Lemma X9_vector_erase_at_end_witness :
  ∃ s', Vec.Erase (Vec.cend (this vec_full_12)) vec_full_12 = Ok (Vec.end_ (this s')) s' ∧
        vrep s' [1] 2 ∧
        Vec.Size (this s') = length [1].
Proof.
  apply (X9_vector_erase_at_end vec_full_12 [1] 2 2).
  unfold vrep. simpl. computed.
Defined.

Lemma X10_vector_relocation_failure_witness :
  @Vec.EmplaceBack nat (handle false) (Some 5) vec_full_13_2 =
    Throw element_failure vec_full_13_2 ∧
  @Vec.PushBack_move nat (handle false) 5 vec_full_13_2 =
    Throw element_failure vec_full_13_2 ∧
  wp (@Vec.Emplace nat (handle false) (ptr_add (Vec.cbegin (this vec_full_13_2)) 1) (Some 5))
     vec_full_13_2
     (λ _ _, False)
     (λ e s', e = element_failure ∧ this s' = this vec_full_13_2 ∧
              vrep s' [13; 2] 2).
Proof.
  apply (@X10_vector_relocation_failure nat (handle false) vec_full_13_2 [13; 2] 2 5 1).
  - unfold vrep. simpl. computed.
  - reflexivity.
  - vm_compute. reflexivity.
  - reflexivity.
  - simpl. lia.
Defined.

Lemma X11_vector_appends_within_capacity_witness :
  ∃ s', Vec.do_appends [Vec.push_copy 2; Vec.emplace_back 3] vec_roomy_1 = Ok tt s' ∧
        vrep s' ([1] ++ (Vec.appended <$> [Vec.push_copy 2; Vec.emplace_back 3])) 3 ∧
        Vec.begin_ (this s') = Vec.begin_ (this vec_roomy_1) ∧
        Vec.Capacity (this s') = Vec.Capacity (this vec_roomy_1) ∧
        vframe vec_roomy_1 s'.
Proof.
  apply (X11_vector_appends_within_capacity vec_roomy_1 [1] 3
           [Vec.push_copy 2; Vec.emplace_back 3]).
  - unfold vrep. simpl. computed.
  - simpl. lia.
  - reflexivity.
Defined.

Lemma X12_simple_vector_constructors_witness :
  let built := λ (xs : list nat) (v : Simple.SimpleVector) (s' : state _ nat),
    srep (State v (mem s')) xs [] ∧
    Simple.GetSize v = length xs ∧ Simple.GetCapacity v = length xs ∧
    this s' = this simple_full_12 ∧
    (∀ c blk, mem simple_full_12 !! c = Some blk → mem s' !! c = Some blk) ∧
    (∀ c, Simple.items_ v = Some c → mem simple_full_12 !! c = None) in
  let unchanged := λ (e : exn) (s' : state Simple.SimpleVector nat),
    e = element_failure ∧ s' = simple_full_12 in
  wp (Simple.SimpleVector_sized 2) simple_full_12 (built (replicate 2 default_value))
     unchanged ∧
  wp (Simple.SimpleVector_filled 2 7) simple_full_12 (built (replicate 2 7)) unchanged ∧
  wp (Simple.SimpleVector_of_list [4; 5]) simple_full_12 (built [4; 5]) unchanged.
Proof.
  apply (X12_simple_vector_constructors simple_full_12 2 7 [4; 5]);
    vm_compute; reflexivity.
Defined.

Lemma X13_simple_vector_reserved_then_appends_witness :
  ∃ v s', Simple.SimpleVector_of_proxy (Simple.Reserve_obj 3) simple_full_12 = Ok v s' ∧
    Simple.GetSize v = 0 ∧
    Simple.GetCapacity v = 3 ∧
    ∃ s'', Simple.do_appends [Simple.push_copy 1; Simple.push_move 2]
             (State v (mem s')) = Ok tt s'' ∧
      srep s'' (Simple.appended <$> [Simple.push_copy 1; Simple.push_move 2])
           (replicate (3 - length [Simple.push_copy 1; Simple.push_move 2]) array_init) ∧
      Simple.items_ (this s'') = Simple.items_ v ∧
      Simple.GetCapacity (this s'') = 3.
Proof.
  apply (X13_simple_vector_reserved_then_appends simple_full_12 3
           [Simple.push_copy 1; Simple.push_move 2]).
  - vm_compute. reflexivity.
  - simpl. lia.
  - reflexivity.
Defined.

Lemma X14_simple_vector_clear_then_appends_witness :
  ∃ s', (Simple.Clear;;; Simple.do_appends [Simple.push_copy 9]) simple_roomy_123 =
          Ok tt s' ∧
        srep s' (Simple.appended <$> [Simple.push_copy 9])
             (drop (length [Simple.push_copy 9]) ([1; 2; 3] ++ [0])) ∧
        Simple.items_ (this s') = Simple.items_ (this simple_roomy_123) ∧
        Simple.GetCapacity (this s') = Simple.GetCapacity (this simple_roomy_123).
Proof.
  apply (X14_simple_vector_clear_then_appends simple_roomy_123 [1; 2; 3] [0]
           [Simple.push_copy 9]).
  - unfold srep. simpl. computed.
  - simpl. lia.
  - reflexivity.
Defined.

Lemma X15_simple_vector_pop_back_witness :
  ∃ s', Simple.PopBack simple_full_12 = Ok tt s' ∧
        srep s' [1] [2] ∧
        mem s' = mem simple_full_12 ∧
        Simple.GetCapacity (this s') = Simple.GetCapacity (this simple_full_12) ∧
        Simple.get (length [1]) s' = Ok 2 s' ∧
        Simple.At (length [1]) s' = Throw (out_of_range "index >= size") s'.
Proof.
  apply (X15_simple_vector_pop_back simple_full_12 [1] 2 []).
  unfold srep. simpl. computed.
Defined.

Lemma X16_simple_vector_reserve_witness :
  (5 ≤ length [1; 2] + length ([] : list nat) →
     Simple.Reserve 5 simple_full_12 = Ok tt simple_full_12) ∧
  (length [1; 2] + length ([] : list nat) < 5 →
     ∃ s', Simple.Reserve 5 simple_full_12 = Ok tt s' ∧
           srep s' [1; 2] (replicate (5 - length [1; 2]) array_init) ∧
           Simple.GetCapacity (this s') = 5 ∧
           sframe simple_full_12 s').
Proof.
  apply (X16_simple_vector_reserve simple_full_12 [1; 2] [] 5).
  - unfold srep. simpl. computed.
  - vm_compute. reflexivity.
Defined.

(* assigning 7, 8, 9, and then 7, 13, 9, whose copy throws, to the vector
   1, 2 *)
Lemma X17_simple_vector_copy_assignment_witness :
  ((copies_ok [7; 8; 9] = true →
      ∃ s', Simple.assign_copy (Simple.Other simple_second) simple_12_and_789 =
              Ok tt s' ∧
            (∃ rest', srep s' [7; 8; 9] rest') ∧
            Simple.GetCapacity (this s') = Simple.GetCapacity simple_second ∧
            srep (State simple_second (mem s')) [7; 8; 9] []) ∧
   (copies_ok [7; 8; 9] = false →
      Simple.assign_copy (Simple.Other simple_second) simple_12_and_789 =
        Throw element_failure simple_12_and_789) ∧
   Simple.assign_copy Simple.Self simple_12_and_789 = Ok tt simple_12_and_789) ∧
  ((copies_ok [7; 13; 9] = true →
      ∃ s', Simple.assign_copy (Simple.Other simple_second) simple_12_and_7_13_9 =
              Ok tt s' ∧
            (∃ rest', srep s' [7; 13; 9] rest') ∧
            Simple.GetCapacity (this s') = Simple.GetCapacity simple_second ∧
            srep (State simple_second (mem s')) [7; 13; 9] []) ∧
   (copies_ok [7; 13; 9] = false →
      Simple.assign_copy (Simple.Other simple_second) simple_12_and_7_13_9 =
        Throw element_failure simple_12_and_7_13_9) ∧
   Simple.assign_copy Simple.Self simple_12_and_7_13_9 = Ok tt simple_12_and_7_13_9).
Proof.
  split.
  - apply (X17_simple_vector_copy_assignment simple_12_and_789 [1; 2] []
             simple_second [7; 8; 9] []).
    + unfold srep. simpl. computed.
    + unfold srep. simpl. computed.
    + right. vm_compute. discriminate.
  - apply (X17_simple_vector_copy_assignment simple_12_and_7_13_9 [1; 2] []
             simple_second [7; 13; 9] []).
    + unfold srep. simpl. computed.
    + unfold srep. simpl. computed.
    + right. vm_compute. discriminate.
Defined.

Lemma X18_simple_vector_move_assignment_witness :
  Simple.assign_move (Simple.Other Simple.SimpleVector_default) simple_full_12 =
    Ok (Some Simple.SimpleVector_default)
       (State Simple.SimpleVector_default
          (free_block (mem simple_full_12) (Simple.items_ (this simple_full_12)))) ∧
  (∀ c, Simple.items_ (this simple_full_12) = Some c →
     free_block (mem simple_full_12) (Simple.items_ (this simple_full_12)) !! c = None) ∧
  Simple.SimpleVector_move Simple.SimpleVector_default =
    (Simple.SimpleVector_default, Simple.SimpleVector_default) ∧
  Simple.GetSize Simple.SimpleVector_default = 0 ∧
  Simple.GetCapacity Simple.SimpleVector_default = 0.
Proof.
  apply (X18_simple_vector_move_assignment simple_full_12 [1; 2] []
           Simple.SimpleVector_default).
  unfold srep. simpl. computed.
Defined.

Lemma X24_simple_vector_construct_destroy_witness :
  (2 = 0 ∨ copy_throws 7 = false →
     (v <- Simple.SimpleVector_filled 2 7;; Simple.SimpleVector_destroy v) simple_full_12 =
       Ok tt simple_full_12) ∧
  (copies_ok [4; 5] = true →
     (v <- Simple.SimpleVector_of_list [4; 5];; Simple.SimpleVector_destroy v)
       simple_full_12 = Ok tt simple_full_12) ∧
  (copies_ok [1; 2] = true →
     (v <- Simple.SimpleVector_copy (this simple_full_12);; Simple.SimpleVector_destroy v)
       simple_full_12 = Ok tt simple_full_12).
Proof.
  apply (X24_simple_vector_construct_destroy simple_full_12 2 7 [4; 5]
           (this simple_full_12) [1; 2] []).
  - vm_compute. reflexivity.
  - vm_compute. reflexivity.
  - unfold srep. simpl. computed.
Defined.

Lemma X19_simple_vector_equality_witness :
  ∃ b, Simple.op_eq (this simple_full_12) (this simple_full_12) simple_full_12 =
         Ok b simple_full_12 ∧
       Simple.op_ne (this simple_full_12) (this simple_full_12) simple_full_12 =
         Ok (negb b) simple_full_12 ∧
       (b = true ↔ [1; 2] = [1; 2]).
Proof.
  apply (X19_simple_vector_equality (this simple_full_12) (this simple_full_12)
           simple_full_12 [1; 2] [] [1; 2] []).
  - unfold srep. simpl. computed.
  - unfold srep. simpl. computed.
  - intros x y. simpl. apply Nat.eqb_eq.
Defined.

Lemma X20_simple_vector_ordering_witness :
  ∃ lt eq gt,
    Simple.op_lt (this simple_full_12) (this simple_full_12) simple_full_12 =
      Ok lt simple_full_12 ∧
    Simple.op_eq (this simple_full_12) (this simple_full_12) simple_full_12 =
      Ok eq simple_full_12 ∧
    Simple.op_gt (this simple_full_12) (this simple_full_12) simple_full_12 =
      Ok gt simple_full_12 ∧
    Simple.op_le (this simple_full_12) (this simple_full_12) simple_full_12 =
      Ok (lt || eq) simple_full_12 ∧
    Simple.op_ge (this simple_full_12) (this simple_full_12) simple_full_12 =
      Ok (gt || eq) simple_full_12 ∧
    lt = Simple.std_lexicographical_compare [1; 2] [1; 2] ∧
    (∀ zs z, Simple.std_lexicographical_compare zs (zs ++ z :: [1; 2]) = true) ∧
    ((lt = true ∧ eq = false ∧ gt = false) ∨
     (lt = false ∧ eq = true ∧ gt = false) ∨
     (lt = false ∧ eq = false ∧ gt = true)).
Proof.
  apply (X20_simple_vector_ordering (this simple_full_12) (this simple_full_12)
           simple_full_12 [1; 2] [] [1; 2] []).
  - unfold srep. simpl. computed.
  - unfold srep. simpl. computed.
  - intros x y. simpl. apply Nat.eqb_eq.
  - intros x. simpl. apply Nat.ltb_irrefl.
  - intros x y Hxy. simpl in *. apply Nat.ltb_lt in Hxy. apply Nat.ltb_ge. lia.
  - intros x y Hxy Hyx. simpl in *. apply Nat.ltb_ge in Hxy, Hyx. lia.
Defined.

Lemma X21_simple_vector_copy_is_equal_witness :
  ∃ v s', Simple.SimpleVector_copy (this simple_roomy_123) simple_roomy_123 = Ok v s' ∧
          Simple.op_eq v (this simple_roomy_123) s' = Ok true s' ∧
          Simple.op_ne v (this simple_roomy_123) s' = Ok false s'.
Proof.
  apply (X21_simple_vector_copy_is_equal (this simple_roomy_123) simple_roomy_123
           [1; 2; 3] [0]).
  - unfold srep. simpl. computed.
  - reflexivity.
  - intros x. simpl. apply Nat.eqb_refl.
Defined.

Lemma X22_vector_programs_never_alias_witness :
  (∀ k v, objs vec_world_1 !! k = Some v →
     ∃ xs : list nat, length xs = Vec.Size v ∧
           block_at (heap vec_world_1) (Vec.buffer_ (Vec.data_ v)) =
             Some ((Some <$> xs) ++ replicate (Vec.Capacity v - Vec.Size v) None)) ∧
  (∀ k k' v v', k ≠ k' → objs vec_world_1 !! k = Some v →
     objs vec_world_1 !! k' = Some v' →
     Vec.buffer_ (Vec.data_ v) = None ∨
     Vec.buffer_ (Vec.data_ v) ≠ Vec.buffer_ (Vec.data_ v')).
Proof.
  apply (X22_vector_programs_never_alias vec_world_1).
  apply (Vec.reach_exec (Vec.on 0 (Vec.call_append (Vec.push_copy 1)))
           (World {[ 0 := Vec.Vector_default ]} ∅)).
  - apply (Vec.reach_exec (Vec.new_default 0) (World ∅ ∅));
      [apply Vec.reach_start | reflexivity | vm_compute; reflexivity].
  - exists Vec.Vector_default. split; [reflexivity |].
    intros _. vm_compute. reflexivity.
  - vm_compute. reflexivity.
Defined.

Lemma X23_simple_vector_programs_never_alias_witness :
  (∀ k v, objs simple_world_12 !! k = Some v →
     ∃ blk : list nat, block_at (heap simple_world_12) (Simple.items_ v) = Some blk ∧
            length blk = Simple.GetCapacity v ∧
            Simple.GetSize v ≤ length blk) ∧
  (∀ k k' v v', k ≠ k' → objs simple_world_12 !! k = Some v →
     objs simple_world_12 !! k' = Some v' →
     Simple.items_ v = None ∨ Simple.items_ v ≠ Simple.items_ v').
Proof.
  apply (X23_simple_vector_programs_never_alias simple_world_12).
  apply (Simple.reach_exec (Simple.new_of_list 0 [1; 2]) (World ∅ ∅));
    [apply Simple.reach_start | | vm_compute; reflexivity].
  split; [reflexivity | vm_compute; reflexivity].
Defined.

Lemma X25_simple_vector_insert_full_failure_witness :
  Simple.Insert (ptr_add (Simple.cbegin (this simple_full_12)) 1) (Simple.outside 13)
    simple_full_12 = Throw element_failure simple_full_12.
Proof.
  apply (X25_simple_vector_insert_full_failure simple_full_12 [1; 2] 1 13).
  - unfold srep. simpl. computed.
  - simpl. lia.
  - vm_compute. reflexivity.
  - right. reflexivity.
Defined.

Lemma X26_simple_vector_insert_in_place_failure_witness :
  ∃ s', Simple.Insert (ptr_add (Simple.cbegin (this simple_roomy_123)) 1)
          (Simple.outside 13) simple_roomy_123 = Throw element_failure s' ∧
        this s' = this simple_roomy_123 ∧
        block_at (mem s') (Simple.items_ (this s')) =
          Some (take 1 [1; 2; 3] ++ 2 :: 2 :: drop 2 [1; 2; 3] ++ []) ∧
        srep s' (take 1 [1; 2; 3] ++
                 2 :: take (length [1; 2; 3] - 2) (2 :: drop 2 [1; 2; 3]))
             (drop (length [1; 2; 3] - 2) (2 :: drop 2 [1; 2; 3]) ++ []).
Proof.
  apply (X26_simple_vector_insert_in_place_failure simple_roomy_123 [1; 2; 3] 0 [] 1 13 2).
  - unfold srep. simpl. computed.
  - reflexivity.
  - reflexivity.
  - reflexivity.
Defined.

(* four elements of 2^62 bytes each *)
Lemma X27_vector_reserve_wrapping_witness :
  (∃ s', @Vec.Reserve nat huge 4 (State Vec.Vector_default ∅) = Ok tt s' ∧
         Vec.Size (this s') = 0 ∧
         Vec.Capacity (this s') = 4 ∧
         block_at (mem s') (Vec.buffer_ (Vec.data_ (this s'))) = Some [] ∧
         @Vec.EmplaceBack nat huge (Some 7) s' = Undefined) ∧
  (@default_throws nat huge = false →
   @Vec.Vector_sized nat huge 4 (State Vec.Vector_default ∅) = Undefined).
Proof.
  apply (@X27_vector_reserve_wrapping nat huge ∅ 4 7).
  - lia.
  - vm_compute. reflexivity.
Defined.

(* v.PushBack(v[0]) on 1, 2, 3 with room, and on the full vector 1, 2 *)
Lemma X28_simple_vector_push_back_own_element_witness :
  ((([0] : list nat) ≠ [] → copy_throws 1 = false →
      ∃ s', Simple.PushBack (Simple.element (this simple_roomy_123) 0) simple_roomy_123 =
              Ok tt s' ∧
            srep s' ([1; 2; 3] ++ [1]) (tail [0]) ∧
            Simple.get (length [1; 2; 3]) s' = Ok 1 s') ∧
   (([0] : list nat) = [] → doubles (length [1; 2; 3]) → copy_throws (moved_from 1) = false →
      ∃ s' rest', Simple.PushBack (Simple.element (this simple_roomy_123) 0)
                    simple_roomy_123 = Ok tt s' ∧
            srep s' ([1; 2; 3] ++ [moved_from 1]) rest' ∧
            Simple.get (length [1; 2; 3]) s' = Ok (moved_from 1) s')) ∧
  ((([] : list nat) ≠ [] → copy_throws 1 = false →
      ∃ s', Simple.PushBack (Simple.element (this simple_full_12) 0) simple_full_12 =
              Ok tt s' ∧
            srep s' ([1; 2] ++ [1]) (tail []) ∧
            Simple.get (length [1; 2]) s' = Ok 1 s') ∧
   (([] : list nat) = [] → doubles (length [1; 2]) → copy_throws (moved_from 1) = false →
      ∃ s' rest', Simple.PushBack (Simple.element (this simple_full_12) 0) simple_full_12 =
                    Ok tt s' ∧
            srep s' ([1; 2] ++ [moved_from 1]) rest' ∧
            Simple.get (length [1; 2]) s' = Ok (moved_from 1) s')).
Proof.
  split.
  - apply (X28_simple_vector_push_back_own_element simple_roomy_123 [1; 2; 3] [0] 0 1).
    + unfold srep. simpl. computed.
    + reflexivity.
  - apply (X28_simple_vector_push_back_own_element simple_full_12 [1; 2] [] 0 1).
    + unfold srep. simpl. computed.
    + reflexivity.
Defined.

(* v.Insert(v.begin(), v[2]) on 1, 2, 3 with room, and v.Insert(v.begin(),
   v[1]) on the full vector 1, 2 *)
Lemma X29_simple_vector_insert_own_element_witness :
  ((([0] : list nat) ≠ [] →
      ∃ z s', [1; 2; 3] !! (if decide (2 ≤ 0) then 2 else 2 - 1) = Some z ∧
        Simple.Insert (ptr_add (Simple.cbegin (this simple_roomy_123)) 0)
          (Simple.element (this simple_roomy_123) 2) simple_roomy_123 =
          Ok (ptr_add (Simple.begin_ (this s')) 0) s' ∧
        srep s' (take 0 [1; 2; 3] ++ z :: drop 0 [1; 2; 3]) (tail [0])) ∧
   (([0] : list nat) = [] → doubles (length [1; 2; 3]) →
      ∃ y s' rest', [1; 2; 3] !! 2 = Some y ∧
        Simple.Insert (ptr_add (Simple.cbegin (this simple_roomy_123)) 0)
          (Simple.element (this simple_roomy_123) 2) simple_roomy_123 =
          Ok (ptr_add (Simple.begin_ (this s')) 0) s' ∧
        srep s' (take 0 [1; 2; 3] ++ y :: drop 0 [1; 2; 3]) rest')) ∧
  ((([] : list nat) ≠ [] →
      ∃ z s', [1; 2] !! (if decide (1 ≤ 0) then 1 else 1 - 1) = Some z ∧
        Simple.Insert (ptr_add (Simple.cbegin (this simple_full_12)) 0)
          (Simple.element (this simple_full_12) 1) simple_full_12 =
          Ok (ptr_add (Simple.begin_ (this s')) 0) s' ∧
        srep s' (take 0 [1; 2] ++ z :: drop 0 [1; 2]) (tail [])) ∧
   (([] : list nat) = [] → doubles (length [1; 2]) →
      ∃ y s' rest', [1; 2] !! 1 = Some y ∧
        Simple.Insert (ptr_add (Simple.cbegin (this simple_full_12)) 0)
          (Simple.element (this simple_full_12) 1) simple_full_12 =
          Ok (ptr_add (Simple.begin_ (this s')) 0) s' ∧
        srep s' (take 0 [1; 2] ++ y :: drop 0 [1; 2]) rest')).
Proof.
  split.
  - apply (X29_simple_vector_insert_own_element simple_roomy_123 [1; 2; 3] [0] 0 2).
    + unfold srep. simpl. computed.
    + simpl. lia.
    + simpl. lia.
    + reflexivity.
  - apply (X29_simple_vector_insert_own_element simple_full_12 [1; 2] [] 0 1).
    + unfold srep. simpl. computed.
    + simpl. lia.
    + simpl. lia.
    + reflexivity.
Defined.

End MoreExamples.
